(** * WebGLImageViewerEngine: a shallow embedding and its properties

    The engine of [packages/webgl-viewer/src/WebGLImageViewerEngine.ts] is a
    class with mutable fields, driven by DOM events, animation-frame
    callbacks, a one-second memory monitor and promise completions.  It is
    embedded here as a record of its fields and one state-transforming
    function per method, under the method's own name.

    Modelling conventions.
    - A JavaScript [number] is an exact rational ([Q]).  Rounding is not
      modelled.  A division by zero gives [Infinity] or [NaN] in the source
      and [0] in [Q]: the statements that depend on a quotient assume that
      its divisor is not zero (an image and a viewport of positive size),
      and the animation step, which divides by a duration that may be
      zero, is a partial function.  Equalities between numbers are stated
      with [==].
    - LOD indices are integers ([Z]): the source computes
      [currentLOD - 1] and [LOD_LEVELS.length - 1], which may be [-1].
    - A [WebGLTexture] is a handle ([nat]); the GL context is the set of
      live handles and the next fresh one.
    - The source is single threaded: every method body, every timer or
      animation-frame callback and every promise continuation runs to
      completion.  Each is one transition here; what is in flight between
      two transitions (image decodes, texture requests, armed swap
      callbacks) is kept in the state.  A method with an [await] is one
      transition per stretch between two of its [await]s.
    - [LOD_LEVELS] comes from [./constants] and the configuration from the
      host; both are parameters.
    - Shader compilation, the GL draw calls, the debug overlay, the frame
      statistics and the listeners and timers that [destroy] removes are
      left out: no property below reads what they write. *)

From Stdlib Require Import QArith Qminmax Qabs Qround Lqa ZArith Lia Bool List.
From stdpp Require Import gmap strings list.

Open Scope Q_scope.

(** ** JavaScript numbers *)

(** [a < b] on numbers; [a <= b] is [Qle_bool a b]. *)
Definition Qltb (a b : Q) : bool := negb (Qle_bool b a).

(** Truthiness of an optional number argument: [undefined] and [0] are
    falsy. *)
Definition truthy (n : option Q) : bool :=
  match n with
  | None => false
  | Some q => negb (Qeq_bool q 0)
  end.

(** [n || d] for an optional number [n]. *)
Definition or_default (n : option Q) (d : Q) : Q :=
  match n with
  | Some q => if truthy n then q else d
  | None => d
  end.

(** ** Configuration and constants *)

Inductive DoubleClickMode := toggle | zoom.

(** [Required<WebGLImageViewerProps>], nested options flattened with their
    path as prefix ([wheel.step] is [wheel_step]). *)
Record Config := {
  initialScale : Q;
  minScale : Q;
  maxScale : Q;
  wheel_step : Q;
  wheel_wheelDisabled : bool;
  panning_disabled : bool;
  pinch_disabled : bool;
  doubleClick_disabled : bool;
  doubleClick_mode : DoubleClickMode;
  doubleClick_step : Q;
  doubleClick_animationTime : option Q;
  smooth : bool;
  centerOnInit : bool;
  limitToBounds : bool;
  debug : bool
}.

(** One entry of [LOD_LEVELS]. *)
Record LODLevel := {
  lod_scale : Q;
  maxViewportScale : Q
}.

(** ** Engine state *)

Definition WebGLTexture := nat.

Inductive Pressure := low | medium | high | critical.

Record TextureInfo := {
  texture : WebGLTexture;
  width : Q;
  height : Q;
  memory : Q;
  lastUsed : Q
}.

(** [memoryInfo]; the heap figures read from [performance.memory] are
    display only and left out. *)
Record MemoryInfo := {
  textureMemory : Q;
  pressure : Pressure
}.

(** Double buffer. *)
Record Buffers := {
  frontTexture : option WebGLTexture;
  backTexture : option WebGLTexture;
  isBackBufferReady : bool
}.

(** Image and canvas. *)
Record ImageState := {
  originalImageSrc : string;
  imageWidth : Q;
  imageHeight : Q;
  canvasWidth : Q;
  canvasHeight : Q;
  imageLoaded : bool
}.

(** Transform. *)
Record TransformState := {
  scale : Q;
  translateX : Q;
  translateY : Q;
  targetScale : Q;
  targetTranslateX : Q;
  targetTranslateY : Q
}.

(** Interaction. *)
Record InteractionState := {
  isDragging : bool;
  lastMouseX : Q;
  lastMouseY : Q;
  lastTouchDistance : Q;
  isOriginalSize : bool;
  lastDoubleClickTime : Q;
  lastTouchTime : Q;
  lastTouchX : Q;
  lastTouchY : Q
}.

(** Animation. *)
Record AnimationState := {
  isAnimating : bool;
  animationStartTime : Q;
  animationDuration : Q;
  startScale : Q;
  startTranslateX : Q;
  startTranslateY : Q
}.

(** LOD and texture management. *)
Record LODState := {
  currentLOD : Z;
  lodTextures : gmap Z TextureInfo;
  textureMemoryLimit : Q
}.

(** A texture promise that has not settled yet, with what awaits it. *)
Inductive TextureRequest :=
| ReqInitial (optimalLOD : Z)   (* the [await] inside [createInitialTexture] *)
| ReqLODUpdate (lodLevel : Z)   (* the [await] inside [updateLODIfNeeded] *)
| ReqPreload (lodLevel : Z).    (* a task of [preloadAdjacentLODs] *)

(** The surroundings the engine acts on: the GL context, the event loop
    and the host callback. *)
Record Runtime := {
  glLive : gset WebGLTexture;        (* created and not deleted *)
  glNext : WebGLTexture;             (* next handle [createTexture] gives *)
  pendingDecodes : nat;              (* calls of [loadImage] awaiting the decoder *)
  pendingTextures : list TextureRequest;
  pendingSwaps : list Z;             (* [newLOD] of each armed swap callback *)
  zoomChanges : list (Q * Q);        (* calls of [onZoomChange], latest first *)
  renderCalls : nat
}.

Record Engine := {
  buf : Buffers;
  img : ImageState;
  xf : TransformState;
  ia : InteractionState;
  anim : AnimationState;
  lod : LODState;
  memoryInfo : MemoryInfo;
  rt : Runtime
}.

(** *** Field updates *)

Definition with_buf (f : Buffers -> Buffers) (e : Engine) : Engine :=
  {| buf := f (buf e); img := img e; xf := xf e; ia := ia e; anim := anim e;
     lod := lod e; memoryInfo := memoryInfo e; rt := rt e |}.
Definition with_img (f : ImageState -> ImageState) (e : Engine) : Engine :=
  {| buf := buf e; img := f (img e); xf := xf e; ia := ia e; anim := anim e;
     lod := lod e; memoryInfo := memoryInfo e; rt := rt e |}.
Definition with_xf (f : TransformState -> TransformState) (e : Engine) : Engine :=
  {| buf := buf e; img := img e; xf := f (xf e); ia := ia e; anim := anim e;
     lod := lod e; memoryInfo := memoryInfo e; rt := rt e |}.
Definition with_ia (f : InteractionState -> InteractionState) (e : Engine) : Engine :=
  {| buf := buf e; img := img e; xf := xf e; ia := f (ia e); anim := anim e;
     lod := lod e; memoryInfo := memoryInfo e; rt := rt e |}.
Definition with_anim (f : AnimationState -> AnimationState) (e : Engine) : Engine :=
  {| buf := buf e; img := img e; xf := xf e; ia := ia e; anim := f (anim e);
     lod := lod e; memoryInfo := memoryInfo e; rt := rt e |}.
Definition with_lod (f : LODState -> LODState) (e : Engine) : Engine :=
  {| buf := buf e; img := img e; xf := xf e; ia := ia e; anim := anim e;
     lod := f (lod e); memoryInfo := memoryInfo e; rt := rt e |}.
Definition with_memoryInfo (f : MemoryInfo -> MemoryInfo) (e : Engine) : Engine :=
  {| buf := buf e; img := img e; xf := xf e; ia := ia e; anim := anim e;
     lod := lod e; memoryInfo := f (memoryInfo e); rt := rt e |}.
Definition with_rt (f : Runtime -> Runtime) (e : Engine) : Engine :=
  {| buf := buf e; img := img e; xf := xf e; ia := ia e; anim := anim e;
     lod := lod e; memoryInfo := memoryInfo e; rt := f (rt e) |}.

Definition set_scale (v : Q) (t : TransformState) : TransformState :=
  {| scale := v; translateX := translateX t; translateY := translateY t;
     targetScale := targetScale t; targetTranslateX := targetTranslateX t;
     targetTranslateY := targetTranslateY t |}.
Definition set_translate (x y : Q) (t : TransformState) : TransformState :=
  {| scale := scale t; translateX := x; translateY := y;
     targetScale := targetScale t; targetTranslateX := targetTranslateX t;
     targetTranslateY := targetTranslateY t |}.
Definition set_targetScale (v : Q) (t : TransformState) : TransformState :=
  {| scale := scale t; translateX := translateX t; translateY := translateY t;
     targetScale := v; targetTranslateX := targetTranslateX t;
     targetTranslateY := targetTranslateY t |}.
Definition set_targetTranslate (x y : Q) (t : TransformState) : TransformState :=
  {| scale := scale t; translateX := translateX t; translateY := translateY t;
     targetScale := targetScale t; targetTranslateX := x;
     targetTranslateY := y |}.

Definition set_isDragging (b : bool) (i : InteractionState) : InteractionState :=
  {| isDragging := b; lastMouseX := lastMouseX i; lastMouseY := lastMouseY i;
     lastTouchDistance := lastTouchDistance i; isOriginalSize := isOriginalSize i;
     lastDoubleClickTime := lastDoubleClickTime i; lastTouchTime := lastTouchTime i;
     lastTouchX := lastTouchX i; lastTouchY := lastTouchY i |}.
Definition set_lastMouse (x y : Q) (i : InteractionState) : InteractionState :=
  {| isDragging := isDragging i; lastMouseX := x; lastMouseY := y;
     lastTouchDistance := lastTouchDistance i; isOriginalSize := isOriginalSize i;
     lastDoubleClickTime := lastDoubleClickTime i; lastTouchTime := lastTouchTime i;
     lastTouchX := lastTouchX i; lastTouchY := lastTouchY i |}.
Definition set_lastTouchDistance (d : Q) (i : InteractionState) : InteractionState :=
  {| isDragging := isDragging i; lastMouseX := lastMouseX i; lastMouseY := lastMouseY i;
     lastTouchDistance := d; isOriginalSize := isOriginalSize i;
     lastDoubleClickTime := lastDoubleClickTime i; lastTouchTime := lastTouchTime i;
     lastTouchX := lastTouchX i; lastTouchY := lastTouchY i |}.
Definition set_isOriginalSize (b : bool) (i : InteractionState) : InteractionState :=
  {| isDragging := isDragging i; lastMouseX := lastMouseX i; lastMouseY := lastMouseY i;
     lastTouchDistance := lastTouchDistance i; isOriginalSize := b;
     lastDoubleClickTime := lastDoubleClickTime i; lastTouchTime := lastTouchTime i;
     lastTouchX := lastTouchX i; lastTouchY := lastTouchY i |}.
Definition set_lastDoubleClickTime (t : Q) (i : InteractionState) : InteractionState :=
  {| isDragging := isDragging i; lastMouseX := lastMouseX i; lastMouseY := lastMouseY i;
     lastTouchDistance := lastTouchDistance i; isOriginalSize := isOriginalSize i;
     lastDoubleClickTime := t; lastTouchTime := lastTouchTime i;
     lastTouchX := lastTouchX i; lastTouchY := lastTouchY i |}.
Definition set_lastTouchTime (t : Q) (i : InteractionState) : InteractionState :=
  {| isDragging := isDragging i; lastMouseX := lastMouseX i; lastMouseY := lastMouseY i;
     lastTouchDistance := lastTouchDistance i; isOriginalSize := isOriginalSize i;
     lastDoubleClickTime := lastDoubleClickTime i; lastTouchTime := t;
     lastTouchX := lastTouchX i; lastTouchY := lastTouchY i |}.
Definition set_lastTouch (x y : Q) (i : InteractionState) : InteractionState :=
  {| isDragging := isDragging i; lastMouseX := lastMouseX i; lastMouseY := lastMouseY i;
     lastTouchDistance := lastTouchDistance i; isOriginalSize := isOriginalSize i;
     lastDoubleClickTime := lastDoubleClickTime i; lastTouchTime := lastTouchTime i;
     lastTouchX := x; lastTouchY := y |}.

Definition set_isAnimating (b : bool) (a : AnimationState) : AnimationState :=
  {| isAnimating := b; animationStartTime := animationStartTime a;
     animationDuration := animationDuration a; startScale := startScale a;
     startTranslateX := startTranslateX a; startTranslateY := startTranslateY a |}.

Definition set_currentLOD (l : Z) (s : LODState) : LODState :=
  {| currentLOD := l; lodTextures := lodTextures s;
     textureMemoryLimit := textureMemoryLimit s |}.
Definition set_lodTextures (m : gmap Z TextureInfo) (s : LODState) : LODState :=
  {| currentLOD := currentLOD s; lodTextures := m;
     textureMemoryLimit := textureMemoryLimit s |}.

Definition set_frontTexture (t : option WebGLTexture) (b : Buffers) : Buffers :=
  {| frontTexture := t; backTexture := backTexture b;
     isBackBufferReady := isBackBufferReady b |}.

Definition set_glLive (s : gset WebGLTexture) (r : Runtime) : Runtime :=
  {| glLive := s; glNext := glNext r; pendingDecodes := pendingDecodes r;
     pendingTextures := pendingTextures r; pendingSwaps := pendingSwaps r;
     zoomChanges := zoomChanges r; renderCalls := renderCalls r |}.
Definition set_glNext (t : WebGLTexture) (r : Runtime) : Runtime :=
  {| glLive := glLive r; glNext := t; pendingDecodes := pendingDecodes r;
     pendingTextures := pendingTextures r; pendingSwaps := pendingSwaps r;
     zoomChanges := zoomChanges r; renderCalls := renderCalls r |}.
Definition set_pendingDecodes (n : nat) (r : Runtime) : Runtime :=
  {| glLive := glLive r; glNext := glNext r; pendingDecodes := n;
     pendingTextures := pendingTextures r; pendingSwaps := pendingSwaps r;
     zoomChanges := zoomChanges r; renderCalls := renderCalls r |}.
Definition set_pendingTextures (l : list TextureRequest) (r : Runtime) : Runtime :=
  {| glLive := glLive r; glNext := glNext r; pendingDecodes := pendingDecodes r;
     pendingTextures := l; pendingSwaps := pendingSwaps r;
     zoomChanges := zoomChanges r; renderCalls := renderCalls r |}.
Definition set_pendingSwaps (l : list Z) (r : Runtime) : Runtime :=
  {| glLive := glLive r; glNext := glNext r; pendingDecodes := pendingDecodes r;
     pendingTextures := pendingTextures r; pendingSwaps := l;
     zoomChanges := zoomChanges r; renderCalls := renderCalls r |}.
Definition set_zoomChanges (l : list (Q * Q)) (r : Runtime) : Runtime :=
  {| glLive := glLive r; glNext := glNext r; pendingDecodes := pendingDecodes r;
     pendingTextures := pendingTextures r; pendingSwaps := pendingSwaps r;
     zoomChanges := l; renderCalls := renderCalls r |}.
Definition set_renderCalls (n : nat) (r : Runtime) : Runtime :=
  {| glLive := glLive r; glNext := glNext r; pendingDecodes := pendingDecodes r;
     pendingTextures := pendingTextures r; pendingSwaps := pendingSwaps r;
     zoomChanges := zoomChanges r; renderCalls := n |}.

(** ** Events of the host *)

(** [getBoundingClientRect()] of the canvas. *)
Record DOMRect := {
  rect_left : Q;
  rect_top : Q;
  rect_width : Q;
  rect_height : Q
}.

(** The coordinates of a [MouseEvent] or of one [Touch]. *)
Record Point := {
  clientX : Q;
  clientY : Q
}.

(** What the texture factory ends with: the final size of the texture it
    stored, or nothing when every production path failed.  The sizing
    ([Math.round], [Math.sqrt] in [applyMemoryConstraints]) decides none of
    the properties below and is left to the caller of the model. *)
Definition TextureOutcome := option (Q * Q).

(** ** The methods *)

Section Methods.

Variable LOD_LEVELS : list LODLevel.
Variable config : Config.

(** [LOD_LEVELS.length] and [LOD_LEVELS[i]] ([undefined] is [None]). *)
Definition LOD_LEVELS_length : Z := Z.of_nat (length LOD_LEVELS).

Definition LOD_LEVELS_at (i : Z) : option LODLevel :=
  if (i <? 0)%Z then None else LOD_LEVELS !! Z.to_nat i.

(** *** Scale bounds and constraints *)

(** The quotients are those of the source when the image size is
    positive. *)
Definition getFitToScreenScale (e : Engine) : Q :=
  let scaleX := canvasWidth (img e) / imageWidth (img e) in
  let scaleY := canvasHeight (img e) / imageHeight (img e) in
  Qmin scaleX scaleY.

(** The two bounds that [constrainScaleAndPosition], [zoomAt] and
    [performDoubleClickAction] each compute under these names. *)
Definition absoluteMinScale (e : Engine) : Q :=
  getFitToScreenScale e * minScale config.

Definition effectiveMaxScale (e : Engine) : Q :=
  let originalSizeScale := 1 in
  let userMaxScale := getFitToScreenScale e * maxScale config in
  Qmax userMaxScale originalSizeScale.

Definition constrainImagePosition (e : Engine) : Engine :=
  if negb (limitToBounds config) then e
  else
    let fitScale := getFitToScreenScale e in
    if Qle_bool (scale (xf e)) fitScale then with_xf (set_translate 0 0) e
    else
      let scaledWidth := imageWidth (img e) * scale (xf e) in
      let scaledHeight := imageHeight (img e) * scale (xf e) in
      let maxTranslateX := Qmax 0 ((scaledWidth - canvasWidth (img e)) / 2) in
      let maxTranslateY := Qmax 0 ((scaledHeight - canvasHeight (img e)) / 2) in
      with_xf (set_translate
                 (Qmax (- maxTranslateX) (Qmin maxTranslateX (translateX (xf e))))
                 (Qmax (- maxTranslateY) (Qmin maxTranslateY (translateY (xf e))))) e.

Definition constrainScaleAndPosition (e : Engine) : Engine :=
  let e1 :=
    if Qltb (scale (xf e)) (absoluteMinScale e)
    then with_xf (set_scale (absoluteMinScale e)) e
    else if Qltb (effectiveMaxScale e) (scale (xf e))
         then with_xf (set_scale (effectiveMaxScale e)) e
         else e in
  constrainImagePosition e1.

(** The host callback is recorded with its two arguments.  The second is
    the quotient of the source when the fit scale is not zero: with an
    image and a canvas of positive size. *)
Definition notifyZoomChange (e : Engine) : Engine :=
  let originalScale := scale (xf e) in
  let relativeScale := scale (xf e) / getFitToScreenScale e in
  with_rt (fun r => set_zoomChanges ((originalScale, relativeScale) :: zoomChanges r) r) e.

(** *** LOD selection *)

Definition getMemoryPressureModifier (e : Engine) : Q :=
  match pressure (memoryInfo e) with
  | critical => 5 # 10
  | high => 7 # 10
  | medium => 9 # 10
  | low => 1
  end.

(** The [for (const [i, lodLevel] of LOD_LEVELS.entries())] loop, from
    index [i] on. *)
Fixpoint firstFittingLOD (levels : list LODLevel) (i : Z)
    (relativeScale pressureModifier : Q) : option Z :=
  match levels with
  | [] => None
  | lodLevel :: rest =>
      let adjustedMaxScale := maxViewportScale lodLevel * pressureModifier in
      if Qle_bool relativeScale adjustedMaxScale then Some i
      else firstFittingLOD rest (i + 1)%Z relativeScale pressureModifier
  end.

(** [relativeScale] is the quotient of the source when the fit scale is
    not zero: with an image and a canvas of positive size. *)
Definition selectOptimalLOD (e : Engine) : Z :=
  if negb (imageLoaded (img e)) then 3%Z
  else
    let fitToScreenScale := getFitToScreenScale e in
    let relativeScale := scale (xf e) / fitToScreenScale in
    let pressureModifier := getMemoryPressureModifier e in
    match firstFittingLOD LOD_LEVELS 0 relativeScale pressureModifier with
    | Some i => i
    | None => (LOD_LEVELS_length - 1)%Z
    end.

(** *** Texture cache and memory monitor *)

Definition updateMemoryUsage (e : Engine) : Engine :=
  let textureMemory' :=
    map_fold (fun _ textureInfo acc => acc + memory textureInfo) 0
             (lodTextures (lod e)) in
  with_memoryInfo (fun m => {| textureMemory := textureMemory';
                               pressure := pressure m |}) e.

Definition checkMemoryPressure (e : Engine) : Engine :=
  let usageRatio :=
    textureMemory (memoryInfo e) / textureMemoryLimit (lod e) in
  let p :=
    if Qltb (9 # 10) usageRatio then critical
    else if Qltb (7 # 10) usageRatio then high
    else if Qltb (5 # 10) usageRatio then medium
    else low in
  with_memoryInfo (fun m => {| textureMemory := textureMemory m;
                               pressure := p |}) e.

(** The handles held by a set of cache entries. *)
Definition texturesOf (m : gmap Z TextureInfo) : gset WebGLTexture :=
  map_to_set (fun _ textureInfo => texture textureInfo) m.

(** [gl.deleteTexture] on each entry of [gone], and
    [lodTextures.delete] of its key. *)
Definition evict (keepEntry : Z * TextureInfo -> bool) (e : Engine) : Engine :=
  let kept := filter (fun kv => keepEntry kv = true) (lodTextures (lod e)) in
  let gone := filter (fun kv => keepEntry kv <> true) (lodTextures (lod e)) in
  with_lod (set_lodTextures kept)
    (with_rt (fun r => set_glLive (glLive r ∖ texturesOf gone) r) e).

Definition emergencyCleanup (e : Engine) : Engine :=
  let c := currentLOD (lod e) in
  let toKeep (lodLevel : Z) : bool :=
    (lodLevel =? c)%Z || (lodLevel =? c - 1)%Z || (lodLevel =? c + 1)%Z in
  evict (fun kv => toKeep (fst kv)) e.

Definition cleanupOldTextures (now : Q) (e : Engine) : Engine :=
  let maxAge := 30000 in
  evict (fun kv =>
           (fst kv =? currentLOD (lod e))%Z
           || negb (Qltb maxAge (now - lastUsed (snd kv)))) e.

(** The body of the [setInterval] callback of [startMemoryMonitoring];
    [now] is [Date.now()]. *)
Definition updateMemoryInfo (now : Q) (e : Engine) : Engine :=
  let e1 := checkMemoryPressure (updateMemoryUsage e) in
  match pressure (memoryInfo e1) with
  | critical => emergencyCleanup e1
  | high => cleanupOldTextures now e1
  | _ => e1
  end.

(** The common tail of [createTextureOffscreen] and
    [createTextureMainThread] on success: a texture is created, uploaded and
    recorded under its level.  Nothing is removed from the cache. *)
Definition storeTexture (lodLevel : Z) (finalWidth finalHeight now : Q)
    (e : Engine) : Engine * WebGLTexture :=
  let t := glNext (rt e) in
  let memoryUsage := finalWidth * finalHeight * 4 in
  let info := {| texture := t; width := finalWidth; height := finalHeight;
                 memory := memoryUsage; lastUsed := now |} in
  let e1 := with_rt (fun r => set_glNext (S t) (set_glLive (glLive r ∪ {[ t ]}) r)) e in
  let e2 := with_lod (fun s => set_lodTextures (<[ lodLevel := info ]> (lodTextures s)) s) e1 in
  (updateMemoryUsage e2, t).

(** [createTextureMainThread]: the outer [None] is the [TypeError] of
    reading [.scale] of an undefined [LOD_LEVELS[lodLevel]]; the inner one
    is the [null] result. *)
Definition createTextureMainThread (lodLevel : Z) (outcome : TextureOutcome)
    (now : Q) (e : Engine) : option (Engine * option WebGLTexture) :=
  match LOD_LEVELS_at lodLevel with
  | None => None
  | Some lodConfig =>
      match outcome with
      | Some (finalWidth, finalHeight) =>
          let '(e', t) := storeTexture lodLevel finalWidth finalHeight now e in
          Some (e', Some t)
      | None => Some (e, None)
      end
  end.

(** [createLODTextureAsync], at the time its promise settles. *)
Definition createLODTextureAsync (lodLevel : Z) (outcome : TextureOutcome)
    (now : Q) (e : Engine) : Engine * option WebGLTexture :=
  if (lodLevel <? 0)%Z || (LOD_LEVELS_length <=? lodLevel)%Z then (e, None)
  else
    match outcome with
    | Some (finalWidth, finalHeight) =>
        let '(e', t) := storeTexture lodLevel finalWidth finalHeight now e in
        (e', Some t)
    | None => (e, None)
    end.

(** *** Double buffering *)

(** [swapBuffers] arms the back buffer and registers an animation-frame
    callback that remembers [newLOD]. *)
Definition swapBuffers (newTexture : WebGLTexture) (newLOD : Z) (e : Engine) : Engine :=
  let e1 := with_buf (fun b => {| frontTexture := frontTexture b;
                                  backTexture := Some newTexture;
                                  isBackBufferReady := true |}) e in
  with_rt (fun r => set_pendingSwaps (pendingSwaps r ++ [newLOD]) r) e1.

(** The callback registered by [swapBuffers]. *)
Definition swapCallback (newLOD : Z) (e : Engine) : Engine :=
  if isBackBufferReady (buf e) then
    with_lod (set_currentLOD newLOD)
      (with_buf (fun b => {| frontTexture := backTexture b;
                             backTexture := backTexture b;
                             isBackBufferReady := false |}) e)
  else e.

(** The next armed callback runs, if there is one. *)
Definition runSwapCallback (e : Engine) : Engine :=
  match pendingSwaps (rt e) with
  | [] => e
  | newLOD :: rest =>
      swapCallback newLOD (with_rt (set_pendingSwaps rest) e)
  end.

(** [preloadAdjacentLODs] starts a texture request for each neighbour the
    cache does not hold. *)
Definition preloadAdjacentLODs (currentLOD' : Z) (e : Engine) : Engine :=
  let has (l : Z) := bool_decide (is_Some (lodTextures (lod e) !! l)) in
  let next :=
    if (currentLOD' <? LOD_LEVELS_length - 1)%Z && negb (has (currentLOD' + 1)%Z)
    then [ReqPreload (currentLOD' + 1)%Z] else [] in
  let prev :=
    if (0 <? currentLOD')%Z && negb (has (currentLOD' - 1)%Z)
    then [ReqPreload (currentLOD' - 1)%Z] else [] in
  with_rt (fun r => set_pendingTextures (pendingTextures r ++ next ++ prev) r) e.

(** [updateLODIfNeeded] up to its [await]: with the texture in the cache it
    runs to its end, otherwise a request is left pending. *)
Definition updateLODIfNeeded (e : Engine) : Engine :=
  let optimalLOD := selectOptimalLOD e in
  if (optimalLOD =? currentLOD (lod e))%Z then e
  else
    match lodTextures (lod e) !! optimalLOD with
    | Some info =>
        preloadAdjacentLODs optimalLOD (swapBuffers (texture info) optimalLOD e)
    | None =>
        with_rt (fun r => set_pendingTextures
                            (pendingTextures r ++ [ReqLODUpdate optimalLOD]) r) e
    end.

(** *** Animation *)

Definition easeOutQuart (t : Q) : Q := 1 - (1 - t) ^ 4.

(** [now] is [performance.now()]. *)
Definition startAnimation (targetScale' targetTranslateX' targetTranslateY' : Q)
    (animationTime : option Q) (now : Q) (e : Engine) : Engine :=
  let e1 := with_anim (fun _ =>
              {| isAnimating := true;
                 animationStartTime := now;
                 animationDuration :=
                   or_default animationTime (if smooth config then 300 else 0);
                 startScale := scale (xf e);
                 startTranslateX := translateX (xf e);
                 startTranslateY := translateY (xf e) |}) e in
  let e2 := with_xf (set_targetScale targetScale') e1 in
  (* apply the constraint to the target position *)
  let tempScale := scale (xf e2) in
  let tempTranslateX := translateX (xf e2) in
  let tempTranslateY := translateY (xf e2) in
  let e3 := constrainImagePosition
              (with_xf (fun t => set_translate targetTranslateX' targetTranslateY'
                                   (set_scale targetScale' t)) e2) in
  let e4 := with_xf (set_targetTranslate (translateX (xf e3)) (translateY (xf e3))) e3 in
  (* restore the current state *)
  with_xf (fun t => set_translate tempTranslateX tempTranslateY
                      (set_scale tempScale t)) e4.

(** [Math.min(elapsed / animationDuration, 1)].  With a zero duration the
    quotient is [Infinity] for a positive [elapsed], which gives [1]; it is
    [NaN] or [-Infinity] otherwise, and the transform computed from it is
    not a finite number: [None]. *)
Definition animationProgress (elapsed duration : Q) : option Q :=
  if Qeq_bool duration 0 then
    if Qltb 0 elapsed then Some 1 else None
  else Some (Qmin (elapsed / duration) 1).

Definition updateAnimation (currentTime : Q) (e : Engine) : option Engine :=
  let elapsed := currentTime - animationStartTime (anim e) in
  match animationProgress elapsed (animationDuration (anim e)) with
  | None => None
  | Some progress =>
      let easedProgress :=
        if smooth config then easeOutQuart progress else progress in
      let lerp (a b : Q) := a + (b - a) * easedProgress in
      let e1 := with_xf (fun t =>
                  set_translate
                    (lerp (startTranslateX (anim e)) (targetTranslateX t))
                    (lerp (startTranslateY (anim e)) (targetTranslateY t))
                    (set_scale (lerp (startScale (anim e)) (targetScale t)) t)) e in
      let e2 :=
        if Qle_bool 1 progress then
          updateLODIfNeeded
            (with_xf (fun t => set_translate (targetTranslateX t) (targetTranslateY t)
                                 (set_scale (targetScale t) t))
               (with_anim (set_isAnimating false) e1))
        else e1 in
      Some (notifyZoomChange e2)
  end.

(** [renderFrame]: the texture bound for the draw call, if one is issued. *)
Definition drawnTexture (e : Engine) : option WebGLTexture :=
  if imageLoaded (img e) then frontTexture (buf e) else None.

Definition renderFrame (e : Engine) : Engine :=
  match drawnTexture e with
  | None => e
  | Some _ => with_rt (fun r => set_renderCalls (S (renderCalls r)) r) e
  end.

(** The [render] callback of [startRenderLoop]. *)
Definition render (currentTime : Q) (e : Engine) : option Engine :=
  if isAnimating (anim e) then
    match updateAnimation currentTime e with
    | Some e' => Some (renderFrame e')
    | None => None
    end
  else Some (renderFrame e).

(** *** Zoom *)

(** [now] is [performance.now()], read by [startAnimation]. *)
Definition zoomAt (x y scaleFactor : Q) (animated : bool) (now : Q)
    (e : Engine) : Engine :=
  let newScale := scale (xf e) * scaleFactor in
  if Qltb newScale (absoluteMinScale e) || Qltb (effectiveMaxScale e) newScale
  then e
  else
    let zoomX := (x - canvasWidth (img e) / 2 - translateX (xf e)) / scale (xf e) in
    let zoomY := (y - canvasHeight (img e) / 2 - translateY (xf e)) / scale (xf e) in
    if animated && smooth config then
      let targetTranslateX' := x - canvasWidth (img e) / 2 - zoomX * newScale in
      let targetTranslateY' := y - canvasHeight (img e) / 2 - zoomY * newScale in
      startAnimation newScale targetTranslateX' targetTranslateY' None now e
    else
      let e1 := with_xf (set_scale newScale) e in
      let e2 := with_xf (set_translate
                           (x - canvasWidth (img e1) / 2 - zoomX * scale (xf e1))
                           (y - canvasHeight (img e1) / 2 - zoomY * scale (xf e1))) e1 in
      updateLODIfNeeded (notifyZoomChange (constrainImagePosition e2)).

Definition zoomIn (animated : bool) (now : Q) (e : Engine) : Engine :=
  let centerX := canvasWidth (img e) / 2 in
  let centerY := canvasHeight (img e) / 2 in
  zoomAt centerX centerY (1 + wheel_step config) animated now e.

Definition zoomOut (animated : bool) (now : Q) (e : Engine) : Engine :=
  let centerX := canvasWidth (img e) / 2 in
  let centerY := canvasHeight (img e) / 2 in
  zoomAt centerX centerY (1 - wheel_step config) animated now e.

Definition resetView (now : Q) (e : Engine) : Engine :=
  let fitToScreenScale := getFitToScreenScale e in
  let targetScale' := fitToScreenScale * initialScale config in
  startAnimation targetScale' 0 0 None now e.

Definition getScale (e : Engine) : Q := scale (xf e).

(** *** Input handlers *)

Definition handleMouseDown (ev : Point) (e : Engine) : Engine :=
  if isAnimating (anim e) || panning_disabled config then e
  else
    let e1 := with_anim (set_isAnimating false) e in
    with_ia (fun i => set_lastMouse (clientX ev) (clientY ev)
                        (set_isDragging true i)) e1.

Definition handleMouseMove (ev : Point) (e : Engine) : Engine :=
  if negb (isDragging (ia e)) || panning_disabled config then e
  else
    let deltaX := clientX ev - lastMouseX (ia e) in
    let deltaY := clientY ev - lastMouseY (ia e) in
    let e1 := with_xf (fun t => set_translate (translateX t + deltaX)
                                  (translateY t + deltaY) t) e in
    let e2 := with_ia (set_lastMouse (clientX ev) (clientY ev)) e1 in
    constrainImagePosition e2.

Definition handleMouseUp (e : Engine) : Engine :=
  with_ia (set_isDragging false) e.

Definition handleWheel (ev : Point) (deltaY : Q) (rect : DOMRect) (now : Q)
    (e : Engine) : Engine :=
  if isAnimating (anim e) || wheel_wheelDisabled config then e
  else
    let mouseX := clientX ev - rect_left rect in
    let mouseY := clientY ev - rect_top rect in
    let scaleFactor :=
      if Qltb 0 deltaY then 1 - wheel_step config else 1 + wheel_step config in
    zoomAt mouseX mouseY scaleFactor false now e.

(** [now] is [performance.now()]. *)
Definition performDoubleClickAction (x y : Q) (now : Q) (e : Engine) : Engine :=
  let e0 := with_anim (set_isAnimating false) e in
  match doubleClick_mode config with
  | toggle =>
      let fitToScreenScale := getFitToScreenScale e0 in
      let originalSizeScale := 1 in
      let targetScale' :=
        if isOriginalSize (ia e0)
        then Qmax (absoluteMinScale e0) (Qmin (effectiveMaxScale e0) fitToScreenScale)
        else Qmax (absoluteMinScale e0) (Qmin (effectiveMaxScale e0) originalSizeScale) in
      let zoomX := (x - canvasWidth (img e0) / 2 - translateX (xf e0)) / scale (xf e0) in
      let zoomY := (y - canvasHeight (img e0) / 2 - translateY (xf e0)) / scale (xf e0) in
      let targetTranslateX' := x - canvasWidth (img e0) / 2 - zoomX * targetScale' in
      let targetTranslateY' := y - canvasHeight (img e0) / 2 - zoomY * targetScale' in
      let e1 := startAnimation targetScale' targetTranslateX' targetTranslateY'
                  (doubleClick_animationTime config) now e0 in
      with_ia (set_isOriginalSize (negb (isOriginalSize (ia e0)))) e1
  | zoom => zoomAt x y (doubleClick_step config) false now e0
  end.

(** [dateNow] is [Date.now()], [now] is [performance.now()]. *)
Definition handleDoubleClick (ev : Point) (rect : DOMRect) (dateNow now : Q)
    (e : Engine) : Engine :=
  if doubleClick_disabled config then e
  else if Qltb (dateNow - lastDoubleClickTime (ia e)) 300 then e
  else
    let e1 := with_ia (set_lastDoubleClickTime dateNow) e in
    let mouseX := clientX ev - rect_left rect in
    let mouseY := clientY ev - rect_top rect in
    performDoubleClickAction mouseX mouseY now e1.

Definition handleTouchDoubleTap (clientX' clientY' : Q) (rect : DOMRect) (now : Q)
    (e : Engine) : Engine :=
  if doubleClick_disabled config then e
  else
    let touchX := clientX' - rect_left rect in
    let touchY := clientY' - rect_top rect in
    performDoubleClickAction touchX touchY now e.

(** A [TouchEvent]: its [touches], and the distance between the first two
    (the source takes a square root, which is not rational, so the value
    comes with the event). *)
Record TouchEvent := {
  touches : list Point;
  touchDistance : Q
}.

Definition handleTouchStart (ev : TouchEvent) (rect : DOMRect) (dateNow now : Q)
    (e : Engine) : Engine :=
  if isAnimating (anim e) then e
  else
    match touches ev with
    | [touch] =>
        if panning_disabled config then e
        else if negb (doubleClick_disabled config)
                && Qltb (dateNow - lastTouchTime (ia e)) 300
                && Qltb (Qabs (clientX touch - lastTouchX (ia e))) 50
                && Qltb (Qabs (clientY touch - lastTouchY (ia e))) 50
        then
          let e1 := handleTouchDoubleTap (clientX touch) (clientY touch) rect now e in
          with_ia (set_lastTouchTime 0) e1
        else
          with_ia (fun i =>
                     set_lastTouch (clientX touch) (clientY touch)
                       (set_lastTouchTime dateNow
                          (set_lastMouse (clientX touch) (clientY touch)
                             (set_isDragging true i)))) e
    | [touch1; touch2] =>
        if pinch_disabled config then e
        else with_ia (fun i => set_lastTouchDistance (touchDistance ev)
                                 (set_isDragging false i)) e
    | _ => e
    end.

Definition handleTouchMove (ev : TouchEvent) (rect : DOMRect) (now : Q)
    (e : Engine) : Engine :=
  match touches ev with
  | [touch] =>
      if isDragging (ia e) && negb (panning_disabled config) then
        let deltaX := clientX touch - lastMouseX (ia e) in
        let deltaY := clientY touch - lastMouseY (ia e) in
        let e1 := with_xf (fun t => set_translate (translateX t + deltaX)
                                      (translateY t + deltaY) t) e in
        let e2 := with_ia (set_lastMouse (clientX touch) (clientY touch)) e1 in
        constrainImagePosition e2
      else e
  | [touch1; touch2] =>
      if pinch_disabled config then e
      else
        let distance := touchDistance ev in
        let e1 :=
          if Qltb 0 (lastTouchDistance (ia e)) then
            let scaleFactor := distance / lastTouchDistance (ia e) in
            let centerX := (clientX touch1 + clientX touch2) / 2 in
            let centerY := (clientY touch1 + clientY touch2) / 2 in
            zoomAt (centerX - rect_left rect) (centerY - rect_top rect)
              scaleFactor false now e
          else e in
        with_ia (set_lastTouchDistance distance) e1
  | _ => e
  end.

Definition handleTouchEnd (e : Engine) : Engine :=
  with_ia (fun i => set_lastTouchDistance 0 (set_isDragging false i)) e.

(** *** Resize and load *)

Definition resizeCanvas (rect : DOMRect) (e : Engine) : Engine :=
  let e1 := with_img (fun i =>
              {| originalImageSrc := originalImageSrc i;
                 imageWidth := imageWidth i; imageHeight := imageHeight i;
                 canvasWidth := rect_width rect; canvasHeight := rect_height rect;
                 imageLoaded := imageLoaded i |}) e in
  if imageLoaded (img e1)
  then notifyZoomChange (updateLODIfNeeded (constrainScaleAndPosition e1))
  else e1.

Definition fitImageToScreen (e : Engine) : Engine :=
  let scaleX := canvasWidth (img e) / imageWidth (img e) in
  let scaleY := canvasHeight (img e) / imageHeight (img e) in
  let fitToScreenScale := Qmin scaleX scaleY in
  with_ia (set_isOriginalSize false)
    (with_xf (fun t => set_translate 0 0
                         (set_scale (fitToScreenScale * initialScale config) t)) e).

(** [createInitialTexture] from its [await] on, for the level it selected
    before: [None] is the exception it throws.  [asyncOutcome] is what
    [createLODTextureAsync] ends with and [syncOutcome] what the
    [createTextureMainThread] fallback does. *)
Definition createInitialTexture_resume (optimalLOD : Z)
    (asyncOutcome syncOutcome : TextureOutcome) (now : Q) (e : Engine) : option Engine :=
  match createLODTextureAsync optimalLOD asyncOutcome now e with
  | (e1, Some texture') =>
      Some (with_buf (set_frontTexture (Some texture'))
              (with_lod (set_currentLOD optimalLOD) e1))
  | (e1, None) =>
      match createTextureMainThread optimalLOD syncOutcome now e1 with
      | Some (e2, Some fallbackTexture) =>
          Some (with_buf (set_frontTexture (Some fallbackTexture))
                  (with_lod (set_currentLOD optimalLOD) e2))
      | Some (e2, None) => None
      | None => None
      end
  end.

(** [createInitialTexture] with nothing happening during its [await]. *)
Definition createInitialTexture (asyncOutcome syncOutcome : TextureOutcome)
    (now : Q) (e : Engine) : option Engine :=
  let optimalLOD := selectOptimalLOD e in
  createInitialTexture_resume optimalLOD asyncOutcome syncOutcome now e.

(** How a call of [loadImage] ends. *)
Inductive LoadResult := Resolved | Rejected.

(** [loadImage url] up to its first [await], on the decoder. *)
Definition loadImage_call (url : string) (e : Engine) : Engine :=
  with_img (fun i =>
    {| originalImageSrc := url;
       imageWidth := imageWidth i; imageHeight := imageHeight i;
       canvasWidth := canvasWidth i; canvasHeight := canvasHeight i;
       imageLoaded := imageLoaded i |}) e.

(** From the answer of the decoder, an image of the given size, to the
    [await] inside [createInitialTexture]. *)
Definition loadImage_decoded (image_width image_height : Q) (e : Engine) : Engine :=
  let e1 := with_img (fun i =>
              {| originalImageSrc := originalImageSrc i;
                 imageWidth := image_width; imageHeight := image_height;
                 canvasWidth := canvasWidth i; canvasHeight := canvasHeight i;
                 imageLoaded := imageLoaded i |}) e in
  if centerOnInit config then fitImageToScreen e1
  else
    let fitToScreenScale := getFitToScreenScale e1 in
    with_xf (set_scale (fitToScreenScale * initialScale config)) e1.

(** From the settling of the initial texture to the end. *)
Definition loadImage_resume (optimalLOD : Z)
    (asyncOutcome syncOutcome : TextureOutcome) (now : Q)
    (e : Engine) : Engine * LoadResult :=
  match createInitialTexture_resume optimalLOD asyncOutcome syncOutcome now e with
  | None => (e, Rejected)
  | Some e3 =>
      let e4 := with_img (fun i =>
                  {| originalImageSrc := originalImageSrc i;
                     imageWidth := imageWidth i; imageHeight := imageHeight i;
                     canvasWidth := canvasWidth i; canvasHeight := canvasHeight i;
                     imageLoaded := true |}) e3 in
      (notifyZoomChange (updateLODIfNeeded e4), Resolved)
  end.

(** [loadImage url], run from its call to the settling of its promise with
    no other event in between.  [decoded] is what [loadImageAsync] gives:
    the size of the image, or [None] when its promise rejects. *)
Definition loadImage (url : string) (decoded : option (Q * Q))
    (asyncOutcome syncOutcome : TextureOutcome) (now : Q)
    (e : Engine) : Engine * LoadResult :=
  let e0 := loadImage_call url e in
  match decoded with
  | None => (e0, Rejected)
  | Some (image_width, image_height) =>
      let e2 := loadImage_decoded image_width image_height e0 in
      loadImage_resume (selectOptimalLOD e2) asyncOutcome syncOutcome now e2
  end.

(** A pending texture request settles with [outcome]; [fallback] is what
    the synchronous fallback of [createInitialTexture] produces, should it
    run; [now] is [Date.now()]. *)
Definition settleTexture (req : TextureRequest) (outcome fallback : TextureOutcome)
    (now : Q) (e : Engine) : Engine :=
  match req with
  | ReqInitial optimalLOD => fst (loadImage_resume optimalLOD outcome fallback now e)
  | ReqLODUpdate optimalLOD =>
      match createLODTextureAsync optimalLOD outcome now e with
      | (e', Some targetTexture) =>
          preloadAdjacentLODs optimalLOD (swapBuffers targetTexture optimalLOD e')
      | (e', None) => e'
      end
  | ReqPreload lodLevel => fst (createLODTextureAsync lodLevel outcome now e)
  end.

(** *** Construction *)

(** [calculateMemoryLimits]: 60% of an assumed device memory. *)
Definition calculateMemoryLimits (isMobile : bool) (devicePixelRatio : Q) : Q :=
  let baseMemoryLimit :=
    if isMobile then
      if Qle_bool 3 devicePixelRatio then 256 * 1024 * 1024
      else 128 * 1024 * 1024
    else 512 * 1024 * 1024 in
  inject_Z (Qfloor (baseMemoryLimit * (6 # 10))).

(** The fields as the class initialises them, with the memory limit the
    constructor computes first. *)
Definition fieldInitialisers (limit : Q) : Engine :=
  {| buf := {| frontTexture := None; backTexture := None;
               isBackBufferReady := false |};
     img := {| originalImageSrc := EmptyString; imageWidth := 0; imageHeight := 0;
               canvasWidth := 0; canvasHeight := 0; imageLoaded := false |};
     xf := {| scale := 1; translateX := 0; translateY := 0;
              targetScale := 1; targetTranslateX := 0; targetTranslateY := 0 |};
     ia := {| isDragging := false; lastMouseX := 0; lastMouseY := 0;
              lastTouchDistance := 0; isOriginalSize := false;
              lastDoubleClickTime := 0; lastTouchTime := 0;
              lastTouchX := 0; lastTouchY := 0 |};
     anim := {| isAnimating := false; animationStartTime := 0;
                animationDuration := 300; startScale := 1;
                startTranslateX := 0; startTranslateY := 0 |};
     lod := {| currentLOD := 0; lodTextures := ∅; textureMemoryLimit := limit |};
     memoryInfo := {| textureMemory := 0; pressure := low |};
     rt := {| glLive := ∅; glNext := O; pendingDecodes := O;
              pendingTextures := []; pendingSwaps := []; zoomChanges := [];
              renderCalls := O |} |}.

(** The constructor: [setupCanvas] sizes the canvas and
    [startMemoryMonitoring] runs the monitor once. *)
Definition newEngine (isMobile : bool) (devicePixelRatio : Q) (rect : DOMRect)
    (dateNow : Q) : Engine :=
  updateMemoryInfo dateNow
    (resizeCanvas rect
       (fieldInitialisers (calculateMemoryLimits isMobile devicePixelRatio))).

(** *** The engine as a transition system *)

Inductive Event :=
| MouseDown (ev : Point)
| MouseMove (ev : Point)
| MouseUp
| Wheel (ev : Point) (deltaY : Q) (rect : DOMRect) (now : Q)
| DoubleClick (ev : Point) (rect : DOMRect) (dateNow now : Q)
| TouchStart (ev : TouchEvent) (rect : DOMRect) (dateNow now : Q)
| TouchMove (ev : TouchEvent) (rect : DOMRect) (now : Q)
| TouchEnd
| ZoomIn (animated : bool) (now : Q)
| ZoomOut (animated : bool) (now : Q)
| ResetView (now : Q)
| Resize (rect : DOMRect)
| AnimationFrame (currentTime : Q)        (* the render callback *)
| SwapFrame                               (* an armed swap callback *)
| TextureSettled (i : nat) (outcome fallback : TextureOutcome) (dateNow : Q)
| MemoryTick (dateNow : Q)
| LoadImage (url : string)                (* a call of [loadImage] *)
| ImageDecoded (decoded : option (Q * Q)). (* the decoder answers a call *)

(** One transition; [None] when the event cannot occur in the state (no
    such pending request, no call awaiting the decoder) or when the frame
    computes a transform that is not a finite number. *)
Definition step (ev : Event) (e : Engine) : option Engine :=
  match ev with
  | MouseDown p => Some (handleMouseDown p e)
  | MouseMove p => Some (handleMouseMove p e)
  | MouseUp => Some (handleMouseUp e)
  | Wheel p deltaY rect now => Some (handleWheel p deltaY rect now e)
  | DoubleClick p rect dateNow now => Some (handleDoubleClick p rect dateNow now e)
  | TouchStart t rect dateNow now => Some (handleTouchStart t rect dateNow now e)
  | TouchMove t rect now => Some (handleTouchMove t rect now e)
  | TouchEnd => Some (handleTouchEnd e)
  | ZoomIn animated now => Some (zoomIn animated now e)
  | ZoomOut animated now => Some (zoomOut animated now e)
  | ResetView now => Some (resetView now e)
  | Resize rect => Some (resizeCanvas rect e)
  | AnimationFrame currentTime => render currentTime e
  | SwapFrame => Some (runSwapCallback e)
  | TextureSettled i outcome fallback dateNow =>
      match pendingTextures (rt e) !! i with
      | Some req =>
          Some (settleTexture req outcome fallback dateNow
                  (with_rt (fun r => set_pendingTextures
                                       (delete i (pendingTextures r)) r) e))
      | None => None
      end
  | MemoryTick dateNow => Some (updateMemoryInfo dateNow e)
  | LoadImage url =>
      Some (with_rt (fun r => set_pendingDecodes (S (pendingDecodes r)) r)
              (loadImage_call url e))
  | ImageDecoded decoded =>
      match pendingDecodes (rt e) with
      | O => None
      | S n =>
          let e0 := with_rt (set_pendingDecodes n) e in
          match decoded with
          | None => Some e0
          | Some (image_width, image_height) =>
              let e2 := loadImage_decoded image_width image_height e0 in
              Some (with_rt (fun r => set_pendingTextures
                                        (pendingTextures r
                                         ++ [ReqInitial (selectOptimalLOD e2)]) r) e2)
          end
      end
  end.

(** States reached from [e0] by events that [ok] admits. *)
Inductive reachable (ok : Event -> Engine -> Prop) (e0 : Engine) : Engine -> Prop :=
| reachable_start : reachable ok e0 e0
| reachable_step e ev e' :
    reachable ok e0 e -> ok ev e -> step ev e = Some e' -> reachable ok e0 e'.

End Methods.

(** ** Vocabulary of the properties *)

Section Vocabulary.

Variable LOD_LEVELS : list LODLevel.
Variable config : Config.

(** The engine shows an image of positive size. *)
Definition imagePresent (e : Engine) : Prop :=
  0 < imageWidth (img e) /\ 0 < imageHeight (img e).

(** The canvas has a positive size. *)
Definition viewportPresent (e : Engine) : Prop :=
  0 < canvasWidth (img e) /\ 0 < canvasHeight (img e).

(** [r = s / F], the quotient of the source when [F] is not zero, that is
    with an image and a viewport present. *)
Definition relativeScale (e : Engine) : Q :=
  scale (xf e) / getFitToScreenScale e.

(** Level [lodLevel] is fine enough for relative scale [r] under
    modifier [m]. *)
Definition fits (lodLevel : LODLevel) (r m : Q) : Prop :=
  r <= maxViewportScale lodLevel * m.

(** [l] is the smallest level that fits. *)
Definition smallestFitting (r m : Q) (l : Z) : Prop :=
  (exists lodLevel, LOD_LEVELS_at LOD_LEVELS l = Some lodLevel /\ fits lodLevel r m)
  /\ forall j lodLevel,
       (j < l)%Z -> LOD_LEVELS_at LOD_LEVELS j = Some lodLevel -> ~ fits lodLevel r m.

Definition noneFits (r m : Q) : Prop :=
  forall j lodLevel, LOD_LEVELS_at LOD_LEVELS j = Some lodLevel -> ~ fits lodLevel r m.

(** The selection rule: the smallest fitting level, or the last one when
    none fits. *)
Definition selectionRule (r m : Q) (l : Z) : Prop :=
  smallestFitting r m l
  \/ (noneFits r m /\ l = (LOD_LEVELS_length LOD_LEVELS - 1)%Z).

(** [s] lies in the interval of admitted scales of state [e]. *)
Definition scaleInRange (e : Engine) (s : Q) : Prop :=
  absoluteMinScale config e <= s /\ s <= effectiveMaxScale config e.

(** The image-space point shown under the viewport point [(x, y)]. *)
Definition imagePointX (x : Q) (e : Engine) : Q :=
  (x - canvasWidth (img e) / 2 - translateX (xf e)) / scale (xf e).

Definition imagePointY (y : Q) (e : Engine) : Q :=
  (y - canvasHeight (img e) / 2 - translateY (xf e)) / scale (xf e).

(** The transform [zoomAt] computes before it applies
    [constrainImagePosition]. *)
Definition zoomedBeforeConstraint (x y scaleFactor : Q) (e : Engine) : Engine :=
  let newScale := scale (xf e) * scaleFactor in
  let zoomX := imagePointX x e in
  let zoomY := imagePointY y e in
  with_xf (set_translate (x - canvasWidth (img e) / 2 - zoomX * newScale)
                         (y - canvasHeight (img e) / 2 - zoomY * newScale))
    (with_xf (set_scale newScale) e).

(** Every key of the cache is an index of [LOD_LEVELS]. *)
Definition cacheKeysValid (e : Engine) : Prop :=
  forall l info, lodTextures (lod e) !! l = Some info ->
    (0 <= l < LOD_LEVELS_length LOD_LEVELS)%Z.

(** The cached handles are live, were handed out by the context, and no
    two levels share one. *)
Definition cacheHandlesSound (e : Engine) : Prop :=
  (forall l info, lodTextures (lod e) !! l = Some info ->
     texture info ∈ glLive (rt e) /\ (texture info < glNext (rt e))%nat)
  /\ (forall l1 l2 info1 info2,
        lodTextures (lod e) !! l1 = Some info1 ->
        lodTextures (lod e) !! l2 = Some info2 ->
        texture info1 = texture info2 -> l1 = l2).

(** [e'] has the cache and the GL context of [e]. *)
Definition sameCache (e e' : Engine) : Prop :=
  lodTextures (lod e') = lodTextures (lod e)
  /\ glLive (rt e') = glLive (rt e)
  /\ glNext (rt e') = glNext (rt e).

Definition cacheInvariant (e : Engine) : Prop :=
  cacheKeysValid e /\ cacheHandlesSound e.

(** From [e] to [e'] no level leaves the cache and no texture is
    deleted. *)
Definition cacheGrows (e e' : Engine) : Prop :=
  (forall l, is_Some (lodTextures (lod e) !! l) ->
             is_Some (lodTextures (lod e') !! l))
  /\ glLive (rt e) ⊆ glLive (rt e').

(** The levels [emergencyCleanup] keeps around level [c]. *)
Definition keptByEmergencyCleanup (c l : Z) : bool :=
  (l =? c)%Z || (l =? c - 1)%Z || (l =? c + 1)%Z.

(** Every event may occur. *)
Definition anyEvent (ev : Event) (e : Engine) : Prop := True.

(** The events of a session: a frame callback is not stamped before the
    start of the animation it advances; the canvas is resized, to a size
    that is not negative, only while an image is loaded and no animation
    is in flight; an image that the decoder delivers has a positive size
    and arrives while no animation is in flight.  Every other event may
    occur at any time. *)
Definition sessionEvent (ev : Event) (e : Engine) : Prop :=
  match ev with
  | AnimationFrame currentTime => animationStartTime (anim e) <= currentTime
  | Resize rect =>
      imageLoaded (img e) = true
      /\ isAnimating (anim e) = false
      /\ 0 <= rect_width rect /\ 0 <= rect_height rect
  | ImageDecoded (Some (image_width, image_height)) =>
      isAnimating (anim e) = false /\ 0 < image_width /\ 0 < image_height
  | _ => True
  end.

(** The configured scales are ordered and the configured animation time
    is not negative. *)
Definition configOrdered : Prop :=
  minScale config <= initialScale config
  /\ initialScale config <= maxScale config
  /\ match doubleClick_animationTime config with
     | Some t => 0 <= t
     | None => True
     end.

(** [e'] has the image, the scale and the animation of [e]. *)
Definition sameScale (e e' : Engine) : Prop :=
  img e' = img e /\ scale (xf e') = scale (xf e)
  /\ targetScale (xf e') = targetScale (xf e) /\ anim e' = anim e.

(** An image of positive size is decoded, loaded or not, into a canvas;
    the bounds hold of the scale and of the two ends of a running
    animation. *)
Definition scaleInvariant (e : Engine) : Prop :=
  (0 < imageWidth (img e) /\ 0 < imageHeight (img e)
   /\ 0 <= canvasWidth (img e) /\ 0 <= canvasHeight (img e))
  /\ scaleInRange e (scale (xf e))
  /\ (isAnimating (anim e) = true ->
      scaleInRange e (startScale (anim e))
      /\ scaleInRange e (targetScale (xf e))
      /\ 0 <= animationDuration (anim e)).

(** Events in sequence. *)
Fixpoint run (evs : list Event) (e : Engine) : option Engine :=
  match evs with
  | [] => Some e
  | ev :: rest =>
      match step LOD_LEVELS config ev e with
      | Some e' => run rest e'
      | None => None
      end
  end.

End Vocabulary.

(** ** Sample data *)

Module Sample.

Definition level (s v : Q) : LODLevel :=
  {| lod_scale := s; maxViewportScale := v |}.

(** A table of six levels, each twice as fine as the one before. *)
Definition LOD_LEVELS : list LODLevel :=
  [ level (1 # 8) (1 # 4); level (1 # 4) (1 # 2); level (1 # 2) 1;
    level 1 2; level 2 4; level 4 8 ].

(** Scenario 1 of the specification: [initialScale = 1],
    [minScale = 0.1], [maxScale = 10]. *)
Definition config : Config :=
  {| initialScale := 1; minScale := 1 # 10; maxScale := 10;
     wheel_step := 1 # 10; wheel_wheelDisabled := false;
     panning_disabled := false; pinch_disabled := false;
     doubleClick_disabled := false; doubleClick_mode := toggle;
     doubleClick_step := 2; doubleClick_animationTime := Some 0;
     smooth := true; centerOnInit := true; limitToBounds := true;
     debug := false |}.

(** The same with an initial scale below the minimum. *)
Definition configSmallInitial : Config :=
  {| initialScale := 1 # 20; minScale := 1 # 10; maxScale := 10;
     wheel_step := 1 # 10; wheel_wheelDisabled := false;
     panning_disabled := false; pinch_disabled := false;
     doubleClick_disabled := false; doubleClick_mode := toggle;
     doubleClick_step := 2; doubleClick_animationTime := Some 0;
     smooth := true; centerOnInit := true; limitToBounds := true;
     debug := false |}.

(** An 800 x 600 viewport. *)
Definition rect : DOMRect :=
  {| rect_left := 0; rect_top := 0; rect_width := 800; rect_height := 600 |}.

Definition fresh : Engine := newEngine LOD_LEVELS config false 1 rect 0.

(** An 8000 x 6000 image loaded into it; the bootstrap texture is
    1000 x 750. *)
Definition loaded : Engine :=
  fst (loadImage LOD_LEVELS config "a.jpg" (Some (8000, 6000))
         (Some (1000, 750)) None 0 fresh).

(** The same load as the events it consists of. *)
Definition loading : list Event :=
  [ LoadImage "a.jpg"; ImageDecoded (Some (8000, 6000));
    TextureSettled 0 (Some (1000, 750)) None 0 ].

(** The same load with both texture paths failing: the state in which
    [createInitialTexture] asked for the level to create. *)
Definition decodedOnly : Engine :=
  fst (loadImage LOD_LEVELS config "a.jpg" (Some (8000, 6000)) None None 0 fresh).

(** [loaded], then the pending request for level 2 settles with a
    4000 x 3000 texture. *)
Definition settleLevel2 : list Event :=
  [ TextureSettled 0 (Some (4000, 3000)) None 10 ].

Definition twoCached : option Engine :=
  run LOD_LEVELS config settleLevel2 loaded.

Definition twoCachedEngine : Engine := default loaded twoCached.

(** A wheel tick at the centre. *)
Definition centre : Point := {| clientX := 400; clientY := 300 |}.

(** [loaded], then a double click at the centre: an animation towards 1:1
    is in flight. *)
Definition animating : Engine :=
  handleDoubleClick LOD_LEVELS config centre rect 1000 1000 loaded.

(** A session that fills the cache with levels 1 to 4, each texture a
    quarter of the desktop budget, and ends with level 2 installed. *)
Definition big : TextureOutcome := Some (5000, 4100).

Definition wheelUp : Event := Wheel centre (-1) rect 0.
Definition wheelDown : Event := Wheel centre 1 rect 0.

Definition session : list Event :=
  [ LoadImage "a.jpg"; ImageDecoded (Some (8000, 6000));
    TextureSettled 0 big None 0;
    TextureSettled 0 big None 10; SwapFrame;
    TextureSettled 0 big None 20;
    wheelUp; SwapFrame;
    TextureSettled 0 big None 30;
    wheelDown; SwapFrame ].

Definition fourCached : option Engine :=
  run LOD_LEVELS config session fresh.

Definition fourCachedEngine : Engine := default fresh fourCached.

(** [loaded] zoomed about the centre to 1:1, the largest admitted scale. *)
Definition atMax : Engine :=
  zoomAt LOD_LEVELS config 400 300 10 false 0 loaded.

(** [loaded] under the configuration with the small initial scale. *)
Definition loadedSmall : Engine :=
  fst (loadImage LOD_LEVELS configSmallInitial "a.jpg" (Some (8000, 6000))
         (Some (1000, 750)) None 0
         (newEngine LOD_LEVELS configSmallInitial false 1 rect 0)).

(** That engine zoomed in four times about the centre, then reset. *)
Definition zoomedSmall : Engine :=
  zoomAt LOD_LEVELS configSmallInitial 400 300 4 false 0 loadedSmall.

Definition resetSmall : Engine :=
  resetView configSmallInitial 100 zoomedSmall.

End Sample.

(** ** Texture sizing, the transform matrix and disposal *)

(** [Math.round]: to the nearest integer, a half upwards. *)
Definition Math_round (x : Q) : Q := inject_Z (Qfloor (x + (1 # 2))).

Section Sizing.

(** [gl.getParameter(gl.MAX_TEXTURE_SIZE)], an integer the constructor
    reads once, and [Math.sqrt], whose values are not rational. *)
Variable maxTextureSize : Z.
Variable Math_sqrt : Q -> Q.

Definition getEffectivePixelRatio (basePixelRatio : Q) (e : Engine) : Q :=
  match pressure (memoryInfo e) with
  | critical => Qmin basePixelRatio 1
  | high => Qmin basePixelRatio (15 # 10)
  | medium => Qmin basePixelRatio 2
  | low => basePixelRatio
  end.

Definition getEffectiveMaxTextureSize (e : Engine) : Q :=
  match pressure (memoryInfo e) with
  | critical => Qmin (inject_Z maxTextureSize) 2048
  | high => Qmin (inject_Z maxTextureSize) 4096
  | medium => Qmin (inject_Z maxTextureSize) 8192
  | low => inject_Z maxTextureSize
  end.

(** The quotients are those of the source when [width] and [height] are
    positive, as the callers' [Math.max(1, ...)] makes them. *)
Definition applyMemoryConstraints (width' height' : Q) (e : Engine) : Q * Q :=
  let estimatedMemory := width' * height' * 4 in
  let maxSingleTextureMemory := textureMemoryLimit (lod e) * (3 # 10) in
  if Qltb maxSingleTextureMemory estimatedMemory then
    let scaleFactor := Math_sqrt (maxSingleTextureMemory / estimatedMemory) in
    (Qmax 1 (Math_round (width' * scaleFactor)),
     Qmax 1 (Math_round (height' * scaleFactor)))
  else
    let maxSize := getEffectiveMaxTextureSize e in
    if Qltb maxSize width' || Qltb maxSize height' then
      let aspectRatio := width' / height' in
      if Qltb 1 aspectRatio
      then (maxSize, Math_round (maxSize / aspectRatio))
      else (Math_round (maxSize * aspectRatio), maxSize)
    else (width', height').

End Sizing.

(** The nine entries of the [Float32Array], in its order. *)
Definition createTransformMatrix (e : Engine) : list Q :=
  let scaleX := imageWidth (img e) * scale (xf e) / canvasWidth (img e) in
  let scaleY := imageHeight (img e) * scale (xf e) / canvasHeight (img e) in
  let translateX' := translateX (xf e) * 2 / canvasWidth (img e) in
  let translateY' := - (translateY (xf e) * 2) / canvasHeight (img e) in
  [scaleX; 0; 0; 0; scaleY; 0; translateX'; translateY'; 1].

(** [cleanupWebGLResources], the part of [destroy] that acts on the
    state: [texturePool] is never added to, so its loop deletes nothing. *)
Definition cleanupWebGLResources (e : Engine) : Engine :=
  let cached := lodTextures (lod e) in
  with_buf (fun b => {| frontTexture := None; backTexture := None;
                        isBackBufferReady := isBackBufferReady b |})
    (with_lod (set_lodTextures ∅)
       (with_rt (fun r => set_glLive (glLive r ∖ texturesOf cached) r) e)).

(** ** Vocabulary of the further properties *)

(** The pressure levels in the order of the thresholds that
    [checkMemoryPressure] compares the usage to. *)
Definition pressureRank (p : Pressure) : nat :=
  match p with
  | low => 0
  | medium => 1
  | high => 2
  | critical => 3
  end.

(** The level a texture request asks for. *)
Definition requestLevel (req : TextureRequest) : Z :=
  match req with
  | ReqInitial l | ReqLODUpdate l | ReqPreload l => l
  end.

(** The memory of the cached textures, as [updateMemoryUsage] adds it
    up. *)
Definition cachedMemory (m : gmap Z TextureInfo) : Q :=
  map_fold (fun _ textureInfo acc => acc + memory textureInfo) 0 m.

(** No image is loaded, nothing is cached, and whatever is pending asks
    for level 3. *)
Definition awaitingLevel3 (e : Engine) : Prop :=
  imageLoaded (img e) = false
  /\ lodTextures (lod e) = ∅
  /\ Forall (fun req => requestLevel req = 3%Z) (pendingTextures (rt e)).

(** [e] has the texture memory limit of [e0]. *)
Definition sameLimit (e0 e : Engine) : Prop :=
  textureMemoryLimit (lod e) = textureMemoryLimit (lod e0).

(** Texture [t] is live, was handed out by the context, and is no entry
    of the cache. *)
Definition uncached (t : WebGLTexture) (e : Engine) : Prop :=
  t ∈ glLive (rt e) /\ (t < glNext (rt e))%nat
  /\ forall l info, lodTextures (lod e) !! l = Some info -> texture info <> t.

(** ** Further sample data *)

Module Fixture.

(** [Sample.config] without [limitToBounds]. *)
Definition configFree : Config :=
  {| initialScale := 1; minScale := 1 # 10; maxScale := 10;
     wheel_step := 1 # 10; wheel_wheelDisabled := false;
     panning_disabled := false; pinch_disabled := false;
     doubleClick_disabled := false; doubleClick_mode := toggle;
     doubleClick_step := 2; doubleClick_animationTime := Some 0;
     smooth := true; centerOnInit := true; limitToBounds := false;
     debug := false |}.

(** [Sample.loaded] under that configuration. *)
Definition loadedFree : Engine :=
  fst (loadImage Sample.LOD_LEVELS configFree "a.jpg" (Some (8000, 6000))
         (Some (1000, 750)) None 0
         (newEngine Sample.LOD_LEVELS configFree false 1 Sample.rect 0)).

(** [Sample.atMax] panned 5000 px to the right and 20 px up. *)
Definition pannedAtMax : Engine :=
  with_xf (set_translate 5000 (-20)) Sample.atMax.

(** A tap of one finger at the centre, and two fingers [d] pixels apart
    around it. *)
Definition tap : TouchEvent :=
  {| touches := [Sample.centre]; touchDistance := 0 |}.

Definition twoFingers (d : Q) : TouchEvent :=
  {| touches := [ {| clientX := 400 - d / 2; clientY := 300 |};
                  {| clientX := 400 + d / 2; clientY := 300 |} ];
     touchDistance := d |}.

(** [Sample.loaded] with the monitor reporting critical pressure. *)
Definition loadedCritical : Engine :=
  with_memoryInfo (fun m => {| textureMemory := textureMemory m; pressure := critical |})
    Sample.loaded.

(** A table of three levels, and the load of [Sample.loading] on an engine
    that uses it. *)
Definition shortTable : list LODLevel :=
  [ Sample.level (1 # 4) (1 # 2); Sample.level (1 # 2) 1; Sample.level 1 2 ].

Definition shortFresh : Engine := newEngine shortTable Sample.config false 1 Sample.rect 0.

Definition shortLoaded : Engine :=
  default shortFresh (run shortTable Sample.config Sample.loading shortFresh).

(** [Sample.session], then a pinch whose two moves, to four times and
    then to a tenth of the distance, arm two swaps before the next frame,
    and the two frame callbacks. *)
Definition racingSession : list Event :=
  Sample.session
  ++ [ TouchStart (twoFingers 100) Sample.rect 40 40;
       TouchMove (twoFingers 400) Sample.rect 40;
       TouchMove (twoFingers 40) Sample.rect 40;
       SwapFrame; SwapFrame ].

Definition raced : Engine :=
  default Sample.fresh (run Sample.LOD_LEVELS Sample.config racingSession Sample.fresh).

(** [Sample.loading] event by event: the call is made, then the decoder
    has answered. *)
Definition called : Engine :=
  default Sample.fresh
    (run Sample.LOD_LEVELS Sample.config [ LoadImage "a.jpg" ] Sample.fresh).

Definition decoded : Engine :=
  default Sample.fresh
    (run Sample.LOD_LEVELS Sample.config
       [ LoadImage "a.jpg"; ImageDecoded (Some (8000, 6000)) ] Sample.fresh).

(** A load into a canvas of 80 x 60 that grows to 8000 x 6000 between the
    answer of the decoder and the settling of the initial texture. *)
Definition smallRect : DOMRect :=
  {| rect_left := 0; rect_top := 0; rect_width := 80; rect_height := 60 |}.

Definition largeRect : DOMRect :=
  {| rect_left := 0; rect_top := 0; rect_width := 8000; rect_height := 6000 |}.

Definition resizedWhileLoading : Engine :=
  let e0 := newEngine Sample.LOD_LEVELS Sample.config false 1 smallRect 0 in
  default e0
    (run Sample.LOD_LEVELS Sample.config
       [ LoadImage "a.jpg"; ImageDecoded (Some (8000, 6000)); Resize largeRect;
         TextureSettled 0 (Some (1000, 750)) None 0 ] e0).

(** A load that is interrupted: between the answer of the decoder and the
    settling of the initial texture a wheel tick asks for level 3 as well,
    and that request and the two preloads it is followed by settle
    first. *)
Definition interrupting : list Event :=
  [ LoadImage "a.jpg"; ImageDecoded (Some (8000, 6000)); Sample.wheelUp;
    TextureSettled 1 (Some (1000, 750)) None 10;
    TextureSettled 1 (Some (2000, 1500)) None 20;
    TextureSettled 1 (Some (500, 375)) None 20 ].

Definition interruptedBeforeSettling : Engine :=
  default Sample.fresh (run Sample.LOD_LEVELS Sample.config interrupting Sample.fresh).

(** Then the initial texture settles and the load resolves. *)
Definition interrupted : Engine :=
  default Sample.fresh
    (run Sample.LOD_LEVELS Sample.config
       (interrupting ++ [ TextureSettled 0 (Some (1000, 750)) None 30 ]) Sample.fresh).

(** [Sample.loading], a wheel tick that asks for level 2 a second time,
    and the first of the two requests settling. *)
Definition duplicating : list Event :=
  Sample.loading ++ [ Sample.wheelDown; TextureSettled 0 (Some (4000, 3000)) None 10 ].

Definition duplicated : Engine :=
  default Sample.fresh (run Sample.LOD_LEVELS Sample.config duplicating Sample.fresh).

(** Then the second request settles, both frame callbacks run and the
    memory monitor ticks. *)
Definition overwritten : Engine :=
  default duplicated
    (run Sample.LOD_LEVELS Sample.config
       [ TextureSettled 0 (Some (4000, 3000)) None 20; SwapFrame; SwapFrame;
         MemoryTick 100000 ] duplicated).

End Fixture.

(** ** Comparisons *)

Lemma Qltb_true (a b : Q) : Qltb a b = true <-> a < b.
Proof.
  unfold Qltb. rewrite negb_true_iff.
  split; intros H.
  - apply Qnot_le_lt. intros Hle. apply Qle_bool_iff in Hle. congruence.
  - destruct (Qle_bool b a) eqn:E; [|reflexivity].
    apply Qle_bool_iff in E. exfalso. apply (Qlt_not_le _ _ H E).
Qed.

Lemma Qltb_false (a b : Q) : Qltb a b = false <-> b <= a.
Proof.
  unfold Qltb. rewrite negb_false_iff. apply Qle_bool_iff.
Qed.

Lemma Qle_bool_false (a b : Q) : Qle_bool a b = false <-> b < a.
Proof.
  rewrite <- Qltb_true. unfold Qltb.
  destruct (Qle_bool a b); simpl; split; congruence.
Qed.

(** Case analysis on a comparison, leaving the order fact in the context. *)
Ltac case_Qltb a b :=
  let E := fresh "E" in
  destruct (Qltb a b) eqn:E;
  [apply Qltb_true in E | apply Qltb_false in E].

Ltac case_Qle a b :=
  let E := fresh "E" in
  destruct (Qle_bool a b) eqn:E;
  [apply Qle_bool_iff in E | apply Qle_bool_false in E].

Lemma Qmax_ge_r (a b : Q) : b <= Qmax a b.
Proof. apply Q.le_max_r. Qed.

Lemma Qmax_cases (a b : Q) (P : Q -> Prop) :
  (b <= a -> P a) -> (a <= b -> P b) -> P (Qmax a b).
Proof.
  intros Ha Hb. unfold Qmax, GenericMinMax.gmax.
  destruct (a ?= b) eqn:E.
  - apply Ha. apply Qeq_alt in E. rewrite E. apply Qle_refl.
  - apply Hb. apply Qlt_alt in E. apply Qlt_le_weak, E.
  - apply Ha. apply Qgt_alt in E. apply Qlt_le_weak, E.
Qed.

Lemma Qmin_cases (a b : Q) (P : Q -> Prop) :
  (a <= b -> P a) -> (b <= a -> P b) -> P (Qmin a b).
Proof.
  intros Ha Hb. unfold Qmin, GenericMinMax.gmin.
  destruct (a ?= b) eqn:E.
  - apply Ha. apply Qeq_alt in E. rewrite E. apply Qle_refl.
  - apply Ha. apply Qlt_alt in E. apply Qlt_le_weak, E.
  - apply Hb. apply Qgt_alt in E. apply Qlt_le_weak, E.
Qed.

(** ** LOD selection *)

Section Selection.

Variable LOD_LEVELS : list LODLevel.
Variable config : Config.

Lemma LOD_LEVELS_at_Some (l : Z) (lodLevel : LODLevel) :
  LOD_LEVELS_at LOD_LEVELS l = Some lodLevel ->
  (0 <= l < LOD_LEVELS_length LOD_LEVELS)%Z.
Proof.
  unfold LOD_LEVELS_at, LOD_LEVELS_length.
  destruct (l <? 0)%Z eqn:E; [discriminate|].
  intros H. apply lookup_lt_Some in H. lia.
Qed.

(** What the loop found, when it found a level. *)
Lemma firstFittingLOD_Some (levels : list LODLevel) (i l : Z) (r m : Q) :
  firstFittingLOD levels i r m = Some l ->
  (i <= l)%Z
  /\ (exists lodLevel, levels !! Z.to_nat (l - i) = Some lodLevel /\ fits lodLevel r m)
  /\ forall j lodLevel, (i <= j < l)%Z ->
       levels !! Z.to_nat (j - i) = Some lodLevel -> ~ fits lodLevel r m.
Proof.
  revert i. induction levels as [|lv rest IH]; intros i; simpl; [discriminate|].
  case_Qle r (maxViewportScale lv * m).
  - intros [= <-]. split; [lia|]. split.
    + exists lv. rewrite Z.sub_diag. split; [reflexivity | exact E].
    + intros j ? ?. lia.
  - intros H. apply IH in H as (Hle & (lv' & Hlv' & Hfit) & Hmin).
    split; [lia|]. split.
    + exists lv'. split; [|exact Hfit].
      replace (Z.to_nat (l - i)) with (S (Z.to_nat (l - (i + 1)))) by lia.
      exact Hlv'.
    + intros j lv'' Hj Hlook.
      destruct (decide (j = i)) as [->|Hne].
      * rewrite Z.sub_diag in Hlook. simpl in Hlook. injection Hlook as <-.
        unfold fits. apply Qlt_not_le, E.
      * apply (Hmin j lv''); [lia|].
        replace (Z.to_nat (j - i)) with (S (Z.to_nat (j - (i + 1)))) in Hlook by lia.
        exact Hlook.
Qed.

(** When the loop falls through, no level fits. *)
Lemma firstFittingLOD_None (levels : list LODLevel) (i : Z) (r m : Q) :
  firstFittingLOD levels i r m = None ->
  forall k lodLevel, levels !! k = Some lodLevel -> ~ fits lodLevel r m.
Proof.
  revert i. induction levels as [|lv rest IH]; intros i; simpl.
  - intros _ k lodLevel H. rewrite lookup_nil in H. discriminate.
  - case_Qle r (maxViewportScale lv * m); [discriminate|].
    intros H [|k] lodLevel Hk; simpl in Hk.
    + injection Hk as <-. unfold fits. apply Qlt_not_le, E.
    + apply (IH _ H k lodLevel Hk).
Qed.

Lemma firstFittingLOD_bound (levels : list LODLevel) (i l : Z) (r m : Q) :
  firstFittingLOD levels i r m = Some l ->
  (i <= l < i + Z.of_nat (length levels))%Z.
Proof.
  intros H. apply firstFittingLOD_Some in H as (Hle & (lv & Hlv & _) & _).
  apply lookup_lt_Some in Hlv. lia.
Qed.

(** A larger relative scale never stops the loop earlier. *)
Lemma firstFittingLOD_mono (levels : list LODLevel) (i : Z) (r1 r2 m : Q) :
  r1 <= r2 ->
  match firstFittingLOD levels i r1 m, firstFittingLOD levels i r2 m with
  | Some a, Some b => (a <= b)%Z
  | None, Some _ => False
  | _, None => True
  end.
Proof.
  intros Hr. revert i. induction levels as [|lv rest IH]; intros i; simpl; [exact I|].
  case_Qle r1 (maxViewportScale lv * m); case_Qle r2 (maxViewportScale lv * m).
  - lia.
  - destruct (firstFittingLOD rest (i + 1) r2 m) eqn:E2; [|exact I].
    apply firstFittingLOD_bound in E2. lia.
  - exfalso. apply (Qlt_irrefl r1).
    eapply Qle_lt_trans; [exact Hr|]. eapply Qle_lt_trans; [exact E0 | exact E].
  - apply IH.
Qed.

Lemma selectOptimalLOD_loaded_rule (e : Engine) :
  imagePresent e -> viewportPresent e ->
  imageLoaded (img e) = true ->
  selectionRule LOD_LEVELS (relativeScale e) (getMemoryPressureModifier e)
    (selectOptimalLOD LOD_LEVELS e).
Proof.
  intros _ _ Hl. unfold selectOptimalLOD, relativeScale. rewrite Hl. simpl.
  destruct (firstFittingLOD LOD_LEVELS 0 _ _) as [l|] eqn:E.
  - left. apply firstFittingLOD_Some in E as (Hle & (lv & Hlv & Hfit) & Hmin).
    rewrite Z.sub_0_r in Hlv. split.
    + exists lv. split; [|exact Hfit].
      unfold LOD_LEVELS_at. destruct (l <? 0)%Z eqn:El; [lia | exact Hlv].
    + intros j lv' Hj Hat.
      pose proof (LOD_LEVELS_at_Some _ _ Hat) as Hb.
      unfold LOD_LEVELS_at in Hat. destruct (j <? 0)%Z eqn:Ej; [discriminate|].
      apply (Hmin j lv'); [lia|]. rewrite Z.sub_0_r. exact Hat.
  - right. split; [|reflexivity].
    intros j lv Hat. unfold LOD_LEVELS_at in Hat.
    destruct (j <? 0)%Z; [discriminate|].
    eapply firstFittingLOD_None; eauto.
Qed.

Lemma selectOptimalLOD_mono (e1 e2 : Engine) :
  imagePresent e1 -> viewportPresent e1 ->
  imagePresent e2 -> viewportPresent e2 ->
  imageLoaded (img e1) = imageLoaded (img e2) ->
  pressure (memoryInfo e1) = pressure (memoryInfo e2) ->
  relativeScale e1 <= relativeScale e2 ->
  (selectOptimalLOD LOD_LEVELS e1 <= selectOptimalLOD LOD_LEVELS e2)%Z.
Proof.
  intros _ _ _ _ Hl Hp Hr. unfold selectOptimalLOD, getMemoryPressureModifier.
  rewrite Hl, Hp. destruct (imageLoaded (img e2)); simpl; [|lia].
  fold (relativeScale e1) (relativeScale e2).
  set (m := match pressure (memoryInfo e2) with
            | low => 1 | medium => 9 # 10 | high => 7 # 10 | critical => 5 # 10
            end).
  pose proof (firstFittingLOD_mono LOD_LEVELS 0 _ _ m Hr) as H.
  destruct (firstFittingLOD LOD_LEVELS 0 (relativeScale e1) m) as [a|] eqn:E1;
    destruct (firstFittingLOD LOD_LEVELS 0 (relativeScale e2) m) as [b|] eqn:E2;
    try (exact H || contradiction || lia).
  apply firstFittingLOD_bound in E1. unfold LOD_LEVELS_length. lia.
Qed.

(** C6 (as amended).  Once the image is loaded, [selectOptimalLOD] returns
    the smallest level [l] with [r <= maxViewportScale l * m], where
    [r = s / F] and [m] is the pressure modifier (1, 0.9, 0.7, 0.5 for low,
    medium, high, critical), and [LOD_LEVELS.length - 1] when no level
    qualifies; while the image is not loaded it returns level 3 whatever
    [r] is.  In both cases, for a fixed pressure, the selected level is
    monotone non-decreasing in [r].  ([r] is a number when an image and a
    viewport of positive size are present.) *)
Theorem selectOptimalLOD_rule_when_loaded :
  (forall e, imagePresent e -> viewportPresent e ->
     imageLoaded (img e) = true ->
     selectionRule LOD_LEVELS (relativeScale e) (getMemoryPressureModifier e)
       (selectOptimalLOD LOD_LEVELS e))
  /\ (forall e, imageLoaded (img e) = false -> selectOptimalLOD LOD_LEVELS e = 3%Z)
  /\ (forall e, getMemoryPressureModifier e ==
        match pressure (memoryInfo e) with
        | low => 1 | medium => 9 # 10 | high => 7 # 10 | critical => 1 # 2
        end)
  /\ (forall e1 e2,
        imagePresent e1 -> viewportPresent e1 ->
        imagePresent e2 -> viewportPresent e2 ->
        imageLoaded (img e1) = imageLoaded (img e2) ->
        pressure (memoryInfo e1) = pressure (memoryInfo e2) ->
        relativeScale e1 <= relativeScale e2 ->
        (selectOptimalLOD LOD_LEVELS e1 <= selectOptimalLOD LOD_LEVELS e2)%Z).
Proof.
  split; [exact selectOptimalLOD_loaded_rule|].
  split.
  { intros e H. unfold selectOptimalLOD. rewrite H. reflexivity. }
  split.
  { intros e. unfold getMemoryPressureModifier.
    destruct (pressure (memoryInfo e)); reflexivity. }
  exact selectOptimalLOD_mono.
Qed.

End Selection.

(** ** What each helper leaves alone *)

Section Frames.

Variable LOD_LEVELS : list LODLevel.
Variable config : Config.

Lemma getFitToScreenScale_img (e e' : Engine) :
  img e' = img e -> getFitToScreenScale e' = getFitToScreenScale e.
Proof. intros H. unfold getFitToScreenScale. rewrite H. reflexivity. Qed.

Lemma absoluteMinScale_img (e e' : Engine) :
  img e' = img e -> absoluteMinScale config e' = absoluteMinScale config e.
Proof.
  intros H. unfold absoluteMinScale. rewrite (getFitToScreenScale_img _ _ H).
  reflexivity.
Qed.

Lemma effectiveMaxScale_img (e e' : Engine) :
  img e' = img e -> effectiveMaxScale config e' = effectiveMaxScale config e.
Proof.
  intros H. unfold effectiveMaxScale. rewrite (getFitToScreenScale_img _ _ H).
  reflexivity.
Qed.

Lemma scaleInRange_img (e e' : Engine) (s : Q) :
  img e' = img e -> scaleInRange config e' s <-> scaleInRange config e s.
Proof.
  intros H. unfold scaleInRange.
  rewrite (absoluteMinScale_img _ _ H), (effectiveMaxScale_img _ _ H). tauto.
Qed.

(** [constrainImagePosition] writes the translation only. *)
Lemma constrainImagePosition_frame (e : Engine) :
  let e' := constrainImagePosition config e in
  buf e' = buf e /\ img e' = img e /\ ia e' = ia e /\ anim e' = anim e
  /\ lod e' = lod e /\ memoryInfo e' = memoryInfo e /\ rt e' = rt e
  /\ scale (xf e') = scale (xf e)
  /\ targetScale (xf e') = targetScale (xf e)
  /\ targetTranslateX (xf e') = targetTranslateX (xf e)
  /\ targetTranslateY (xf e') = targetTranslateY (xf e).
Proof.
  unfold constrainImagePosition.
  destruct (negb (limitToBounds config)); [simpl; tauto|].
  destruct (Qle_bool _ _); simpl; tauto.
Qed.

Lemma notifyZoomChange_frame (e : Engine) :
  let e' := notifyZoomChange e in
  buf e' = buf e /\ img e' = img e /\ xf e' = xf e /\ ia e' = ia e
  /\ anim e' = anim e /\ lod e' = lod e /\ memoryInfo e' = memoryInfo e
  /\ glLive (rt e') = glLive (rt e) /\ glNext (rt e') = glNext (rt e)
  /\ pendingTextures (rt e') = pendingTextures (rt e)
  /\ pendingSwaps (rt e') = pendingSwaps (rt e).
Proof. simpl. tauto. Qed.

Lemma swapBuffers_frame (t : WebGLTexture) (l : Z) (e : Engine) :
  let e' := swapBuffers t l e in
  img e' = img e /\ xf e' = xf e /\ ia e' = ia e /\ anim e' = anim e
  /\ lod e' = lod e /\ memoryInfo e' = memoryInfo e
  /\ glLive (rt e') = glLive (rt e) /\ glNext (rt e') = glNext (rt e)
  /\ frontTexture (buf e') = frontTexture (buf e).
Proof. simpl. tauto. Qed.

Lemma preloadAdjacentLODs_frame (l : Z) (e : Engine) :
  let e' := preloadAdjacentLODs LOD_LEVELS l e in
  buf e' = buf e /\ img e' = img e /\ xf e' = xf e /\ ia e' = ia e
  /\ anim e' = anim e /\ lod e' = lod e /\ memoryInfo e' = memoryInfo e
  /\ glLive (rt e') = glLive (rt e) /\ glNext (rt e') = glNext (rt e)
  /\ pendingSwaps (rt e') = pendingSwaps (rt e).
Proof. simpl. tauto. Qed.

(** [updateLODIfNeeded] touches the buffers and the event loop only. *)
Lemma updateLODIfNeeded_frame (e : Engine) :
  let e' := updateLODIfNeeded LOD_LEVELS e in
  img e' = img e /\ xf e' = xf e /\ ia e' = ia e /\ anim e' = anim e
  /\ lod e' = lod e /\ memoryInfo e' = memoryInfo e
  /\ glLive (rt e') = glLive (rt e) /\ glNext (rt e') = glNext (rt e)
  /\ frontTexture (buf e') = frontTexture (buf e).
Proof.
  unfold updateLODIfNeeded.
  destruct (_ =? _)%Z; [simpl; tauto|].
  destruct (lodTextures (lod e) !! _); simpl; tauto.
Qed.

(** The transform with which an in-range, unanimated [zoomAt] ends. *)
Lemma zoomAt_unanimated (x y k now : Q) (e : Engine) :
  scaleInRange config e (scale (xf e) * k) ->
  let e' := zoomAt LOD_LEVELS config x y k false now e in
  xf e' = xf (constrainImagePosition config (zoomedBeforeConstraint x y k e))
  /\ img e' = img e /\ anim e' = anim e /\ ia e' = ia e.
Proof.
  intros [Hlo Hhi]. unfold zoomAt.
  apply Qltb_false in Hlo, Hhi. rewrite Hlo, Hhi. simpl orb. cbv iota.
  change (false && smooth config) with false. cbv iota.
  match goal with
  | |- context [constrainImagePosition config ?a] =>
      change a with (zoomedBeforeConstraint x y k e)
  end.
  set (z := zoomedBeforeConstraint x y k e).
  pose proof (updateLODIfNeeded_frame (notifyZoomChange (constrainImagePosition config z)))
    as (Hi & Hx & Ha & Hn & _).
  pose proof (constrainImagePosition_frame z) as (_ & Hci & Hca & Hcn & _).
  cbv zeta in *. rewrite Hi, Hx, Ha, Hn. simpl.
  rewrite Hci, Hca, Hcn. subst z. simpl. tauto.
Qed.

(** A [zoomAt] whose new scale is out of range returns at once. *)
Lemma zoomAt_rejected (x y k : Q) (animated : bool) (now : Q) (e : Engine) :
  ~ scaleInRange config e (scale (xf e) * k) ->
  zoomAt LOD_LEVELS config x y k animated now e = e.
Proof.
  intros Hout. unfold zoomAt.
  case_Qltb (scale (xf e) * k) (absoluteMinScale config e); [reflexivity|].
  case_Qltb (effectiveMaxScale config e) (scale (xf e) * k); [reflexivity|].
  exfalso. apply Hout. split; assumption.
Qed.

End Frames.

(** ** Zoom about a point *)

Section Zoom.

Variable LOD_LEVELS : list LODLevel.
Variable config : Config.

Lemma clamp_zero (M t : Q) : 0 <= M -> t == 0 -> Qmax (- M) (Qmin M t) == 0.
Proof.
  intros HM Ht.
  apply Qmax_cases; intros H1; revert H1; apply Qmin_cases; intros; lra.
Qed.

Lemma zoomAt_fixity (e : Engine) (x y k now : Q) :
  imagePresent e ->
  ~ scale (xf e) * k == 0 ->
  scaleInRange config e (scale (xf e) * k) ->
  translateX (xf (constrainImagePosition config (zoomedBeforeConstraint x y k e)))
    == translateX (xf (zoomedBeforeConstraint x y k e)) ->
  translateY (xf (constrainImagePosition config (zoomedBeforeConstraint x y k e)))
    == translateY (xf (zoomedBeforeConstraint x y k e)) ->
  imagePointX x (zoomAt LOD_LEVELS config x y k false now e) == imagePointX x e
  /\ imagePointY y (zoomAt LOD_LEVELS config x y k false now e) == imagePointY y e.
Proof.
  intros _ Hnz Hin HX HY.
  pose proof (zoomAt_unanimated LOD_LEVELS config x y k now e Hin) as (Hxf & Himg & _).
  pose proof (constrainImagePosition_frame config (zoomedBeforeConstraint x y k e))
    as (_ & _ & _ & _ & _ & _ & _ & Hs & _).
  cbv zeta in *.
  unfold imagePointX at 1, imagePointY at 1. rewrite Hxf, Himg, Hs, HX, HY.
  assert (Hk : ~ k == 0) by (intros H0; apply Hnz; rewrite H0; ring).
  assert (Hs0 : ~ scale (xf e) == 0) by (intros H0; apply Hnz; rewrite H0; ring).
  simpl. split; field; split; assumption.
Qed.

(** The fit scale of an 800 x 600 viewport on an 8000 x 6000 image. *)
Lemma fit_800x600_8000x6000 (e : Engine) :
  canvasWidth (img e) == 800 -> canvasHeight (img e) == 600 ->
  imageWidth (img e) == 8000 -> imageHeight (img e) == 6000 ->
  getFitToScreenScale e == 1 # 10.
Proof.
  intros H1 H2 H3 H4. unfold getFitToScreenScale.
  apply Qmin_cases; intros _; [rewrite H1, H3 | rewrite H2, H4]; reflexivity.
Qed.

Lemma zoomAt_scenario_2 (e : Engine) (now : Q) :
  minScale config <= 10 ->
  canvasWidth (img e) == 800 -> canvasHeight (img e) == 600 ->
  imageWidth (img e) == 8000 -> imageHeight (img e) == 6000 ->
  scale (xf e) == 1 # 10 -> translateX (xf e) == 0 -> translateY (xf e) == 0 ->
  scale (xf (zoomAt LOD_LEVELS config 400 300 10 false now e)) == 1
  /\ translateX (xf (zoomAt LOD_LEVELS config 400 300 10 false now e)) == 0
  /\ translateY (xf (zoomAt LOD_LEVELS config 400 300 10 false now e)) == 0.
Proof.
  intros Hmin Hcw Hch Hiw Hih Hs Htx Hty.
  pose proof (fit_800x600_8000x6000 e Hcw Hch Hiw Hih) as HF.
  assert (Hin : scaleInRange config e (scale (xf e) * 10)).
  { unfold scaleInRange, absoluteMinScale, effectiveMaxScale.
    rewrite HF, Hs. split; [lra|].
    eapply Qle_trans; [|apply Qmax_ge_r]. compute; discriminate. }
  pose proof (zoomAt_unanimated LOD_LEVELS config 400 300 10 now e Hin) as (Hxf & _).
  cbv zeta in *. rewrite Hxf. clear Hxf.
  set (z := zoomedBeforeConstraint 400 300 10 e).
  assert (Hzs : scale (xf z) == 1) by (subst z; simpl; rewrite Hs; reflexivity).
  assert (Hzx : translateX (xf z) == 0).
  { subst z. simpl. unfold imagePointX. rewrite Hcw, Htx, Hs. reflexivity. }
  assert (Hzy : translateY (xf z) == 0).
  { subst z. simpl. unfold imagePointY. rewrite Hch, Hty, Hs. reflexivity. }
  assert (HzF : getFitToScreenScale z == 1 # 10) by (subst z; exact HF).
  unfold constrainImagePosition.
  destruct (negb (limitToBounds config)); [tauto|].
  case_Qle (scale (xf z)) (getFitToScreenScale z).
  { exfalso. rewrite Hzs, HzF in E. revert E. compute. tauto. }
  simpl. split; [exact Hzs|].
  split; apply clamp_zero; try assumption; apply Q.le_max_l.
Qed.

(** C3.  An unanimated [zoomAt x y k] whose new scale [s * k] is within
    the bounds and whose translation the position constraint leaves as
    computed shows the same image-space point under [(x, y)] before and
    after (exactly, numbers being rationals here; an image is present and
    the new scale is not zero, so that the point is defined).  From [s = 0.1], [tx = ty = 0], an
    800 x 600 viewport and an 8000 x 6000 image, [zoomAt 400 300 10] gives
    [s = 1], [tx = 0], [ty = 0], under the configuration of scenario 1 or
    any other whose [minScale] is at most 10. *)
Theorem zoomAt_keeps_point_under_cursor :
  (forall e x y k now,
     imagePresent e ->
     ~ scale (xf e) * k == 0 ->
     scaleInRange config e (scale (xf e) * k) ->
     translateX (xf (constrainImagePosition config (zoomedBeforeConstraint x y k e)))
       == translateX (xf (zoomedBeforeConstraint x y k e)) ->
     translateY (xf (constrainImagePosition config (zoomedBeforeConstraint x y k e)))
       == translateY (xf (zoomedBeforeConstraint x y k e)) ->
     imagePointX x (zoomAt LOD_LEVELS config x y k false now e) == imagePointX x e
     /\ imagePointY y (zoomAt LOD_LEVELS config x y k false now e) == imagePointY y e)
  /\ (forall e now,
        minScale config <= 10 ->
        canvasWidth (img e) == 800 -> canvasHeight (img e) == 600 ->
        imageWidth (img e) == 8000 -> imageHeight (img e) == 6000 ->
        scale (xf e) == 1 # 10 -> translateX (xf e) == 0 -> translateY (xf e) == 0 ->
        scale (xf (zoomAt LOD_LEVELS config 400 300 10 false now e)) == 1
        /\ translateX (xf (zoomAt LOD_LEVELS config 400 300 10 false now e)) == 0
        /\ translateY (xf (zoomAt LOD_LEVELS config 400 300 10 false now e)) == 0).
Proof.
  split.
  - intros e x y k now. apply zoomAt_fixity.
  - intros e now. apply zoomAt_scenario_2.
Qed.

(** C7.  With an image present, a zoom request whose resulting scale
    [s * k] falls outside [[F * minScale, max (F * maxScale) 1]] changes
    nothing: [zoomAt]
    returns the state it was given, whether animated or not, and so do
    [handleWheel], for the factor the wheel event selects, [zoomIn] and
    [zoomOut].  A pinch and a double activation in [zoom] mode, which
    record the gesture around the call, leave [s], [tx], [ty] and the
    targets as they are. *)
Theorem zoom_out_of_range_is_noop :
  (forall e x y k animated now,
     imagePresent e ->
     ~ scaleInRange config e (scale (xf e) * k) ->
     zoomAt LOD_LEVELS config x y k animated now e = e)
  /\ (forall e ev deltaY rect now,
        imagePresent e ->
        ~ scaleInRange config e
            (scale (xf e) * (if Qltb 0 deltaY then 1 - wheel_step config
                             else 1 + wheel_step config)) ->
        handleWheel LOD_LEVELS config ev deltaY rect now e = e)
  /\ (forall e animated now,
        imagePresent e ->
        ~ scaleInRange config e (scale (xf e) * (1 + wheel_step config)) ->
        zoomIn LOD_LEVELS config animated now e = e)
  /\ (forall e animated now,
        imagePresent e ->
        ~ scaleInRange config e (scale (xf e) * (1 - wheel_step config)) ->
        zoomOut LOD_LEVELS config animated now e = e)
  /\ (forall e ev touch1 touch2 rect now,
        imagePresent e ->
        touches ev = [touch1; touch2] ->
        ~ scaleInRange config e
            (scale (xf e) * (touchDistance ev / lastTouchDistance (ia e))) ->
        xf (handleTouchMove LOD_LEVELS config ev rect now e) = xf e)
  /\ (forall e x y now,
        imagePresent e ->
        doubleClick_mode config = zoom ->
        ~ scaleInRange config e (scale (xf e) * doubleClick_step config) ->
        xf (performDoubleClickAction LOD_LEVELS config x y now e) = xf e).
Proof.
  split; [|split; [|split; [|split; [|split]]]].
  - intros e x y k animated now _. apply zoomAt_rejected.
  - intros e ev deltaY rect now _ H. unfold handleWheel.
    destruct (isAnimating (anim e) || wheel_wheelDisabled config); [reflexivity|].
    apply zoomAt_rejected, H.
  - intros e animated now _ H. unfold zoomIn. apply zoomAt_rejected, H.
  - intros e animated now _ H. unfold zoomOut. apply zoomAt_rejected, H.
  - intros e ev touch1 touch2 rect now _ Ht H. unfold handleTouchMove. rewrite Ht.
    destruct (pinch_disabled config); [reflexivity|].
    destruct (Qltb 0 (lastTouchDistance (ia e))); [|reflexivity].
    cbv zeta. rewrite zoomAt_rejected by exact H. reflexivity.
  - intros e x y now _ Hmode H. unfold performDoubleClickAction. rewrite Hmode.
    cbv zeta. rewrite zoomAt_rejected; [reflexivity|].
    intros Hin. apply H.
    apply (scaleInRange_img config e (with_anim (set_isAnimating false) e));
      [reflexivity | exact Hin].
Qed.

End Zoom.

Lemma zoomAt_keeps_point_under_cursor_witness :
  (imagePointX 200 (zoomAt Sample.LOD_LEVELS Sample.config 200 150 2 false 0 Sample.loaded)
     == imagePointX 200 Sample.loaded
   /\ imagePointY 150 (zoomAt Sample.LOD_LEVELS Sample.config 200 150 2 false 0 Sample.loaded)
     == imagePointY 150 Sample.loaded)
  /\ scale (xf (zoomAt Sample.LOD_LEVELS Sample.config 400 300 10 false 0 Sample.loaded)) == 1.
Proof.
  split.
  - apply (proj1 (zoomAt_keeps_point_under_cursor Sample.LOD_LEVELS Sample.config)).
    + split; vm_compute; reflexivity.
    + vm_compute. discriminate.
    + split; vm_compute; discriminate.
    + vm_compute. reflexivity.
    + vm_compute. reflexivity.
  - apply (proj2 (zoomAt_keeps_point_under_cursor Sample.LOD_LEVELS Sample.config)
             Sample.loaded 0);
      try (vm_compute; reflexivity); vm_compute; discriminate.
Defined.

Lemma zoom_out_of_range_is_noop_witness :
  zoomAt Sample.LOD_LEVELS Sample.config 400 300 (1 # 100) false 0 Sample.loaded
    = Sample.loaded
  /\ handleWheel Sample.LOD_LEVELS Sample.config Sample.centre (-1) Sample.rect 0
       Sample.atMax = Sample.atMax.
Proof.
  split.
  - apply (proj1 (zoom_out_of_range_is_noop Sample.LOD_LEVELS Sample.config)).
    + split; vm_compute; reflexivity.
    + intros [H _]. revert H. vm_compute. tauto.
  - apply (proj1 (proj2 (zoom_out_of_range_is_noop Sample.LOD_LEVELS Sample.config))).
    + split; vm_compute; reflexivity.
    + intros [_ H]. revert H. vm_compute. tauto.
Defined.

(** ** Animation start and interruption *)

Section Animation.

Variable LOD_LEVELS : list LODLevel.
Variable config : Config.

(** [startAnimation] records the animation and the target and puts the
    current transform back. *)
Lemma startAnimation_result (ts tx ty : Q) (animationTime : option Q) (now : Q)
    (e : Engine) :
  let e' := startAnimation config ts tx ty animationTime now e in
  anim e' = {| isAnimating := true; animationStartTime := now;
               animationDuration :=
                 or_default animationTime (if smooth config then 300 else 0);
               startScale := scale (xf e);
               startTranslateX := translateX (xf e);
               startTranslateY := translateY (xf e) |}
  /\ scale (xf e') = scale (xf e) /\ translateX (xf e') = translateX (xf e)
  /\ translateY (xf e') = translateY (xf e)
  /\ targetScale (xf e') = ts
  /\ buf e' = buf e /\ img e' = img e /\ ia e' = ia e /\ lod e' = lod e
  /\ memoryInfo e' = memoryInfo e /\ rt e' = rt e.
Proof.
  unfold startAnimation.
  match goal with
  | |- context [constrainImagePosition config ?a] =>
      pose proof (constrainImagePosition_frame config a)
        as (Hb & Hi & Ha & Hn & Hl & Hm & Hr & Hs & Ht & _)
  end.
  cbv zeta in *. simpl in *.
  rewrite Hb, Hi, Ha, Hn, Hl, Hm, Hr, Ht. simpl. tauto.
Qed.

Lemma or_default_zero (q d : Q) : q == 0 -> or_default (Some q) d = d.
Proof.
  intros H. unfold or_default, truthy.
  apply Qeq_bool_iff in H. rewrite H. reflexivity.
Qed.

(** C10.  [startAnimation] called with an [animationTime] argument equal
    to [0] sets the duration to the default, 300 ms when [smooth] is set
    and 0 otherwise: the argument is tested for truthiness.  So does the
    double-activation toggle when [doubleClick.animationTime] is [0]. *)
Theorem startAnimation_zero_time_takes_default :
  (forall e ts tx ty now q,
     q == 0 ->
     animationDuration (anim (startAnimation config ts tx ty (Some q) now e))
       = (if smooth config then 300 else 0))
  /\ (forall e x y now q,
        doubleClick_mode config = toggle ->
        doubleClick_animationTime config = Some q ->
        q == 0 ->
        animationDuration
          (anim (performDoubleClickAction LOD_LEVELS config x y now e))
          = (if smooth config then 300 else 0)).
Proof.
  split.
  - intros e ts tx ty now q Hq.
    pose proof (startAnimation_result ts tx ty (Some q) now e) as (Ha & _).
    cbv zeta in Ha. rewrite Ha. simpl. apply or_default_zero, Hq.
  - intros e x y now q Hmode Htime Hq.
    unfold performDoubleClickAction. rewrite Hmode, Htime. cbv zeta.
    change (anim (with_ia ?f ?a)) with (anim a).
    match goal with
    | |- context [startAnimation config ?ts ?tx ?ty (Some q) now ?e0] =>
        pose proof (startAnimation_result ts tx ty (Some q) now e0) as (Ha & _)
    end.
    cbv zeta in Ha. rewrite Ha. simpl. apply or_default_zero, Hq.
Qed.

End Animation.

Lemma startAnimation_zero_time_takes_default_witness :
  animationDuration
    (anim (startAnimation Sample.config 1 0 0 (Some 0) 1000 Sample.loaded)) = 300
  /\ animationDuration
       (anim (performDoubleClickAction Sample.LOD_LEVELS Sample.config 400 300 1000
                Sample.loaded)) = 300.
Proof.
  split.
  - apply (proj1 (startAnimation_zero_time_takes_default Sample.LOD_LEVELS Sample.config)
             Sample.loaded 1 0 0 1000 0).
    reflexivity.
  - apply (proj2 (startAnimation_zero_time_takes_default Sample.LOD_LEVELS Sample.config)
             Sample.loaded 400 300 1000 0); reflexivity.
Defined.

Section Interruption.

Variable LOD_LEVELS : list LODLevel.
Variable config : Config.


End Interruption.



(** ** Load *)

Section Loading.

Variable LOD_LEVELS : list LODLevel.
Variable config : Config.

(** C9 (as amended).  When the decoder promise rejects, [loadImage]
    rejects too and installs nothing: the transform, the image size, the
    canvas size, the loaded flag, the buffers, the cache and every other
    field are as before, except [originalImageSrc], which already holds the
    requested url. *)
Theorem loadImage_decode_failure (url : string) (asyncOutcome syncOutcome : TextureOutcome)
    (now : Q) (e : Engine) :
  let e' := fst (loadImage LOD_LEVELS config url None asyncOutcome syncOutcome now e) in
  snd (loadImage LOD_LEVELS config url None asyncOutcome syncOutcome now e) = Rejected
  /\ buf e' = buf e /\ xf e' = xf e /\ ia e' = ia e /\ anim e' = anim e
  /\ lod e' = lod e /\ memoryInfo e' = memoryInfo e /\ rt e' = rt e
  /\ imageWidth (img e') = imageWidth (img e)
  /\ imageHeight (img e') = imageHeight (img e)
  /\ canvasWidth (img e') = canvasWidth (img e)
  /\ canvasHeight (img e') = canvasHeight (img e)
  /\ imageLoaded (img e') = imageLoaded (img e)
  /\ originalImageSrc (img e') = url.
Proof. simpl. tauto. Qed.

End Loading.

(** C9 as stated fails: after a failed load of ["b.jpg"] the engine that
    shows ["a.jpg"] retains ["b.jpg"] as its original-image url. *)
Lemma failed_load_replaces_url :
  originalImageSrc (img Sample.loaded) = "a.jpg"%string
  /\ snd (loadImage Sample.LOD_LEVELS Sample.config "b.jpg" None None None 5
            Sample.loaded) = Rejected
  /\ originalImageSrc
       (img (fst (loadImage Sample.LOD_LEVELS Sample.config "b.jpg" None None None 5
                    Sample.loaded)))
     <> originalImageSrc (img Sample.loaded).
Proof.
  split; [vm_compute; reflexivity|]. split; [reflexivity|].
  vm_compute. discriminate.
Qed.

(** ** Buffer swap *)

Section Swap.

Variable LOD_LEVELS : list LODLevel.
Variable config : Config.

(** C4 (as amended).  When the only armed swap is the one [swapBuffers]
    has just registered, its animation-frame callback sets the front
    texture to the back texture, [currentLOD] to the level it was armed
    with and clears the ready flag, in one callback: a draw before it binds
    the old front texture, a draw after it the new one.  The back slot is
    not reset: it keeps the installed texture. *)
Theorem armed_swap_installs_back (e : Engine) (newTexture : WebGLTexture) (newLOD : Z) :
  pendingSwaps (rt e) = [] ->
  let armed := swapBuffers newTexture newLOD e in
  let e' := runSwapCallback armed in
  (backTexture (buf armed) = Some newTexture
   /\ isBackBufferReady (buf armed) = true
   /\ drawnTexture armed = drawnTexture e)
  /\ frontTexture (buf e') = Some newTexture
  /\ currentLOD (lod e') = newLOD
  /\ isBackBufferReady (buf e') = false
  /\ backTexture (buf e') = Some newTexture
  /\ pendingSwaps (rt e') = []
  /\ drawnTexture e' = (if imageLoaded (img e) then Some newTexture else None).
Proof.
  intros Hnone. unfold runSwapCallback, swapBuffers. simpl. rewrite Hnone.
  simpl. unfold drawnTexture. simpl. tauto.
Qed.

End Swap.

Lemma armed_swap_installs_back_witness :
  frontTexture
    (buf (runSwapCallback (swapBuffers 7%nat 2%Z Sample.loaded))) = Some 7%nat
  /\ currentLOD (lod (runSwapCallback (swapBuffers 7%nat 2%Z Sample.loaded))) = 2%Z.
Proof.
  assert (Hnone : pendingSwaps (rt Sample.loaded) = []) by (vm_compute; reflexivity).
  pose proof (armed_swap_installs_back Sample.loaded 7%nat 2%Z Hnone)
    as (_ & Hf & Hl & _).
  split; [exact Hf | exact Hl].
Defined.

(** C4 as stated fails: after the swap callback the back texture is not
    null. *)
Lemma back_texture_not_null_after_swap :
  (fun e => (frontTexture (buf e), backTexture (buf e), currentLOD (lod e)))
    <$> (Sample.twoCached ≫= step Sample.LOD_LEVELS Sample.config SwapFrame)
  = Some (Some 1%nat, Some 1%nat, 2%Z)
  /\ (fun e => backTexture (buf e))
       <$> (Sample.twoCached ≫= step Sample.LOD_LEVELS Sample.config SwapFrame)
     <> Some None.
Proof.
  split; [vm_compute; reflexivity|]. vm_compute. discriminate.
Qed.

(** ** The texture cache *)

Section Cache.

Variable LOD_LEVELS : list LODLevel.
Variable config : Config.

Lemma sameCache_refl (e : Engine) : sameCache e e.
Proof. unfold sameCache. tauto. Qed.

Lemma sameCache_trans (e1 e2 e3 : Engine) :
  sameCache e1 e2 -> sameCache e2 e3 -> sameCache e1 e3.
Proof. unfold sameCache. intros (-> & -> & ->) (-> & -> & ->). tauto. Qed.

Lemma cacheInvariant_sameCache (e e' : Engine) :
  sameCache e e' -> cacheInvariant LOD_LEVELS e -> cacheInvariant LOD_LEVELS e'.
Proof.
  unfold sameCache, cacheInvariant, cacheKeysValid, cacheHandlesSound.
  intros (-> & -> & ->). tauto.
Qed.

(** *** Eviction *)

Lemma evict_lookup (keepEntry : Z * TextureInfo -> bool) (e : Engine) (l : Z) :
  lodTextures (lod (evict keepEntry e)) !! l
  = match lodTextures (lod e) !! l with
    | Some info => if keepEntry (l, info) then Some info else None
    | None => None
    end.
Proof.
  unfold evict. simpl. apply option_eq. intros x.
  rewrite map_lookup_filter_Some. simpl.
  destruct (lodTextures (lod e) !! l) as [info|]; [|split; [tauto | discriminate]].
  destruct (keepEntry (l, info)) eqn:Hk; split.
  - tauto.
  - intros [= <-]. rewrite Hk. tauto.
  - intros [[= <-] H]. congruence.
  - discriminate.
Qed.

Lemma evict_live (keepEntry : Z * TextureInfo -> bool) (e : Engine) (t : WebGLTexture) :
  t ∈ glLive (rt (evict keepEntry e))
  <-> t ∈ glLive (rt e)
      /\ ~ exists l info, lodTextures (lod e) !! l = Some info
                          /\ keepEntry (l, info) = false /\ texture info = t.
Proof.
  unfold evict. simpl. rewrite elem_of_difference.
  unfold texturesOf. rewrite elem_of_map_to_set.
  split; intros [Hl Hn]; (split; [exact Hl|]).
  - intros (l & info & Hlook & Hk & Ht). apply Hn. exists l, info.
    split; [|exact Ht]. apply map_lookup_filter_Some. split; [exact Hlook|].
    simpl. rewrite Hk. discriminate.
  - intros (l & info & Hlook & Ht). apply Hn. exists l, info.
    apply map_lookup_filter_Some in Hlook as [Hlook Hk]. simpl in Hk.
    split; [exact Hlook|]. split; [|exact Ht].
    destruct (keepEntry (l, info)); [contradiction | reflexivity].
Qed.

Lemma evict_frame (keepEntry : Z * TextureInfo -> bool) (e : Engine) :
  let e' := evict keepEntry e in
  buf e' = buf e /\ img e' = img e /\ xf e' = xf e /\ ia e' = ia e
  /\ anim e' = anim e /\ memoryInfo e' = memoryInfo e
  /\ currentLOD (lod e') = currentLOD (lod e)
  /\ glNext (rt e') = glNext (rt e)
  /\ pendingTextures (rt e') = pendingTextures (rt e)
  /\ pendingSwaps (rt e') = pendingSwaps (rt e).
Proof. simpl. tauto. Qed.

Lemma evict_cacheInvariant (keepEntry : Z * TextureInfo -> bool) (e : Engine) :
  cacheInvariant LOD_LEVELS e -> cacheInvariant LOD_LEVELS (evict keepEntry e).
Proof.
  intros [Hkeys [Hlive Hinj]].
  assert (Hsub : forall l info,
             lodTextures (lod (evict keepEntry e)) !! l = Some info ->
             lodTextures (lod e) !! l = Some info /\ keepEntry (l, info) = true).
  { intros l info. rewrite evict_lookup.
    destruct (lodTextures (lod e) !! l) as [i|]; [|discriminate].
    destruct (keepEntry (l, i)) eqn:Hk; [|discriminate].
    intros [= <-]. tauto. }
  split; [|split].
  - intros l info H. apply Hsub in H as [H _]. eapply Hkeys, H.
  - intros l info H. apply Hsub in H as [H Hk].
    destruct (Hlive l info H) as [Hin Hlt]. split; [|exact Hlt].
    apply evict_live. split; [exact Hin|].
    intros (l' & info' & Hl' & Hk' & Ht).
    assert (l' = l) by (eapply Hinj; eauto). subst l'.
    rewrite H in Hl'. injection Hl' as <-. congruence.
  - intros l1 l2 i1 i2 H1 H2 Ht.
    apply Hsub in H1 as [H1 _]. apply Hsub in H2 as [H2 _]. eapply Hinj; eauto.
Qed.

Lemma emergencyCleanup_lookup (e : Engine) (l : Z) :
  lodTextures (lod (emergencyCleanup e)) !! l
  = if keptByEmergencyCleanup (currentLOD (lod e)) l
    then lodTextures (lod e) !! l else None.
Proof.
  unfold emergencyCleanup. rewrite evict_lookup. simpl.
  unfold keptByEmergencyCleanup.
  destruct (lodTextures (lod e) !! l); [reflexivity|].
  destruct (_ || _); reflexivity.
Qed.

(** *** Creation *)

Lemma updateMemoryUsage_frame (e : Engine) :
  let e' := updateMemoryUsage e in
  buf e' = buf e /\ img e' = img e /\ xf e' = xf e /\ ia e' = ia e
  /\ anim e' = anim e /\ lod e' = lod e /\ rt e' = rt e
  /\ pressure (memoryInfo e') = pressure (memoryInfo e).
Proof. simpl. tauto. Qed.

Lemma checkMemoryPressure_frame (e : Engine) :
  let e' := checkMemoryPressure e in
  buf e' = buf e /\ img e' = img e /\ xf e' = xf e /\ ia e' = ia e
  /\ anim e' = anim e /\ lod e' = lod e /\ rt e' = rt e.
Proof. simpl. tauto. Qed.

(** [storeTexture] adds one entry under [lodLevel] with a fresh handle and
    removes nothing. *)
Lemma storeTexture_result (lodLevel : Z) (w h now : Q) (e : Engine) :
  let e' := fst (storeTexture lodLevel w h now e) in
  snd (storeTexture lodLevel w h now e) = glNext (rt e)
  /\ lodTextures (lod e')
     = <[ lodLevel := {| texture := glNext (rt e); width := w; height := h;
                         memory := w * h * 4; lastUsed := now |} ]>
         (lodTextures (lod e))
  /\ glLive (rt e') = glLive (rt e) ∪ {[ glNext (rt e) ]}
  /\ glNext (rt e') = S (glNext (rt e))
  /\ buf e' = buf e /\ img e' = img e /\ xf e' = xf e /\ ia e' = ia e
  /\ anim e' = anim e /\ currentLOD (lod e') = currentLOD (lod e)
  /\ pendingTextures (rt e') = pendingTextures (rt e)
  /\ pendingSwaps (rt e') = pendingSwaps (rt e)
  /\ pressure (memoryInfo e') = pressure (memoryInfo e).
Proof. simpl. tauto. Qed.

Lemma storeTexture_cacheInvariant (lodLevel : Z) (w h now : Q) (e : Engine) :
  (0 <= lodLevel < LOD_LEVELS_length LOD_LEVELS)%Z ->
  cacheInvariant LOD_LEVELS e ->
  cacheInvariant LOD_LEVELS (fst (storeTexture lodLevel w h now e)).
Proof.
  intros Hl [Hkeys [Hlive Hinj]].
  pose proof (storeTexture_result lodLevel w h now e) as (_ & Hm & Hg & Hn & _).
  cbv zeta in *.
  unfold cacheInvariant, cacheKeysValid, cacheHandlesSound.
  rewrite Hm, Hg, Hn. clear Hm Hg Hn.
  split; [|split].
  - intros l info H. apply lookup_insert_Some in H as [[E _]|[_ H]].
    + rewrite <- E. exact Hl.
    + eapply Hkeys, H.
  - intros l info H. apply lookup_insert_Some in H as [[_ I1]|[_ H]].
    + rewrite <- I1. simpl. split; [|lia].
      apply elem_of_union_r, elem_of_singleton_2. reflexivity.
    + destruct (Hlive l info H) as [Hin Hlt]. split; [|lia].
      apply elem_of_union_l, Hin.
  - intros l1 l2 i1 i2 H1 H2 Ht.
    apply lookup_insert_Some in H1 as [[E1 I1]|[Hn1 H1]];
      apply lookup_insert_Some in H2 as [[E2 I2]|[Hn2 H2]].
    + congruence.
    + rewrite <- I1 in Ht. simpl in Ht. destruct (Hlive _ _ H2). lia.
    + rewrite <- I2 in Ht. simpl in Ht. destruct (Hlive _ _ H1). lia.
    + eapply Hinj; eauto.
Qed.

Lemma createLODTextureAsync_cacheInvariant (lodLevel : Z) (outcome : TextureOutcome)
    (now : Q) (e : Engine) :
  cacheInvariant LOD_LEVELS e ->
  cacheInvariant LOD_LEVELS (fst (createLODTextureAsync LOD_LEVELS lodLevel outcome now e)).
Proof.
  intros H. unfold createLODTextureAsync.
  destruct (lodLevel <? 0)%Z eqn:E1; [exact H|].
  destruct (LOD_LEVELS_length LOD_LEVELS <=? lodLevel)%Z eqn:E2; [exact H|].
  cbn [orb]. destruct outcome as [[w h]|]; [|exact H].
  pose proof (storeTexture_cacheInvariant lodLevel w h now e) as Hs.
  destruct (storeTexture lodLevel w h now e) as [e' t] eqn:Es.
  cbn [fst] in *. apply Hs; [lia | exact H].
Qed.

Lemma createTextureMainThread_cacheInvariant (lodLevel : Z) (outcome : TextureOutcome)
    (now : Q) (e e' : Engine) (r : option WebGLTexture) :
  createTextureMainThread LOD_LEVELS lodLevel outcome now e = Some (e', r) ->
  cacheInvariant LOD_LEVELS e -> cacheInvariant LOD_LEVELS e'.
Proof.
  unfold createTextureMainThread.
  destruct (LOD_LEVELS_at LOD_LEVELS lodLevel) as [lodConfig|] eqn:Hat; [|discriminate].
  apply LOD_LEVELS_at_Some in Hat.
  destruct outcome as [[w h]|].
  - pose proof (storeTexture_cacheInvariant lodLevel w h now e Hat) as Hs.
    destruct (storeTexture lodLevel w h now e) as [e1 t] eqn:Es.
    cbn [fst] in *. intros [= <- <-]. exact Hs.
  - intros [= <- <-]. tauto.
Qed.

End Cache.

(** *** Handlers that leave the cache alone *)

Create HintDb samecache.

Section CacheFrames.

Variable LOD_LEVELS : list LODLevel.
Variable config : Config.

Ltac by_frame :=
  unfold sameCache; simpl; intros (-> & -> & ->); tauto.

Lemma sameCache_with_buf e0 f e : sameCache e0 e -> sameCache e0 (with_buf f e).
Proof. by_frame. Qed.
Lemma sameCache_with_img e0 f e : sameCache e0 e -> sameCache e0 (with_img f e).
Proof. by_frame. Qed.
Lemma sameCache_with_xf e0 f e : sameCache e0 e -> sameCache e0 (with_xf f e).
Proof. by_frame. Qed.
Lemma sameCache_with_ia e0 f e : sameCache e0 e -> sameCache e0 (with_ia f e).
Proof. by_frame. Qed.
Lemma sameCache_with_anim e0 f e : sameCache e0 e -> sameCache e0 (with_anim f e).
Proof. by_frame. Qed.
Lemma sameCache_with_memoryInfo e0 f e :
  sameCache e0 e -> sameCache e0 (with_memoryInfo f e).
Proof. by_frame. Qed.
Lemma sameCache_set_currentLOD e0 l e :
  sameCache e0 e -> sameCache e0 (with_lod (set_currentLOD l) e).
Proof. by_frame. Qed.
Lemma sameCache_set_pendingTextures e0 l e :
  sameCache e0 e -> sameCache e0 (with_rt (set_pendingTextures l) e).
Proof. by_frame. Qed.
Lemma sameCache_set_pendingSwaps e0 l e :
  sameCache e0 e -> sameCache e0 (with_rt (set_pendingSwaps l) e).
Proof. by_frame. Qed.

Lemma sameCache_constrainImagePosition e0 e :
  sameCache e0 e -> sameCache e0 (constrainImagePosition config e).
Proof.
  intros H. eapply sameCache_trans; [exact H|].
  pose proof (constrainImagePosition_frame config e) as (_ & _ & _ & _ & Hl & _ & Hr & _).
  cbv zeta in *. unfold sameCache. rewrite Hl, Hr. tauto.
Qed.

Lemma sameCache_notifyZoomChange e0 e :
  sameCache e0 e -> sameCache e0 (notifyZoomChange e).
Proof. by_frame. Qed.

Lemma sameCache_swapBuffers e0 t l e :
  sameCache e0 e -> sameCache e0 (swapBuffers t l e).
Proof. by_frame. Qed.

Lemma sameCache_preloadAdjacentLODs e0 l e :
  sameCache e0 e -> sameCache e0 (preloadAdjacentLODs LOD_LEVELS l e).
Proof. by_frame. Qed.

Lemma sameCache_updateLODIfNeeded e0 e :
  sameCache e0 e -> sameCache e0 (updateLODIfNeeded LOD_LEVELS e).
Proof.
  intros H. eapply sameCache_trans; [exact H|].
  pose proof (updateLODIfNeeded_frame LOD_LEVELS e) as (_ & _ & _ & _ & Hl & _ & Hg & Hn & _).
  cbv zeta in *. unfold sameCache. rewrite Hl, Hg, Hn. tauto.
Qed.

Lemma sameCache_updateMemoryUsage e0 e :
  sameCache e0 e -> sameCache e0 (updateMemoryUsage e).
Proof. by_frame. Qed.

Lemma sameCache_checkMemoryPressure e0 e :
  sameCache e0 e -> sameCache e0 (checkMemoryPressure e).
Proof. by_frame. Qed.

Hint Resolve sameCache_refl sameCache_with_buf sameCache_with_img sameCache_with_xf
  sameCache_with_ia sameCache_with_anim sameCache_with_memoryInfo
  sameCache_set_currentLOD sameCache_set_pendingTextures sameCache_set_pendingSwaps
  sameCache_constrainImagePosition sameCache_notifyZoomChange sameCache_swapBuffers
  sameCache_preloadAdjacentLODs sameCache_updateLODIfNeeded
  sameCache_updateMemoryUsage sameCache_checkMemoryPressure : samecache.

(** Unfolds nothing: splits the conditionals of the goal and chains the
    frame lemmas. *)
Ltac same_cache :=
  cbv zeta;
  repeat match goal with
         | |- sameCache _ (if ?b then _ else _) => destruct b
         | |- sameCache _ (match ?x with _ => _ end) => destruct x
         | |- context [if ?b then _ else _] => destruct b
         end;
  auto 12 with samecache.

Lemma sameCache_constrainScaleAndPosition e0 e :
  sameCache e0 e -> sameCache e0 (constrainScaleAndPosition config e).
Proof. intros H. unfold constrainScaleAndPosition. same_cache. Qed.

Lemma sameCache_startAnimation e0 ts tx ty t now e :
  sameCache e0 e -> sameCache e0 (startAnimation config ts tx ty t now e).
Proof. intros H. unfold startAnimation. same_cache. Qed.

Hint Resolve sameCache_constrainScaleAndPosition sameCache_startAnimation : samecache.

Lemma sameCache_zoomAt e0 x y k animated now e :
  sameCache e0 e -> sameCache e0 (zoomAt LOD_LEVELS config x y k animated now e).
Proof. intros H. unfold zoomAt. same_cache. Qed.

Hint Resolve sameCache_zoomAt : samecache.

Lemma sameCache_performDoubleClickAction e0 x y now e :
  sameCache e0 e ->
  sameCache e0 (performDoubleClickAction LOD_LEVELS config x y now e).
Proof. intros H. unfold performDoubleClickAction. same_cache. Qed.

Hint Resolve sameCache_performDoubleClickAction : samecache.

Lemma sameCache_handleTouchDoubleTap e0 x y rect now e :
  sameCache e0 e ->
  sameCache e0 (handleTouchDoubleTap LOD_LEVELS config x y rect now e).
Proof. intros H. unfold handleTouchDoubleTap. same_cache. Qed.

Hint Resolve sameCache_handleTouchDoubleTap : samecache.

Lemma sameCache_renderFrame e0 e : sameCache e0 e -> sameCache e0 (renderFrame e).
Proof.
  intros H. unfold renderFrame. destruct (drawnTexture e); [|exact H].
  revert H. by_frame.
Qed.

Hint Resolve sameCache_renderFrame : samecache.

Lemma sameCache_updateAnimation currentTime e e' :
  updateAnimation LOD_LEVELS config currentTime e = Some e' -> sameCache e e'.
Proof.
  unfold updateAnimation.
  destruct (animationProgress _ _) as [progress|]; [|discriminate].
  intros [= <-]. same_cache.
Qed.

Lemma sameCache_runSwapCallback e0 e :
  sameCache e0 e -> sameCache e0 (runSwapCallback e).
Proof. intros H. unfold runSwapCallback, swapCallback. same_cache. Qed.

(** The events other than the settling of a texture request and the
    memory monitor leave the cache and the GL context as they are. *)
Lemma step_sameCache (ev : Event) (e e' : Engine) :
  step LOD_LEVELS config ev e = Some e' ->
  match ev with
  | TextureSettled _ _ _ _ | MemoryTick _ => True
  | _ => sameCache e e'
  end.
Proof.
  destruct ev; simpl; try (intros _; exact I); try (intros [= <-]).
  - unfold handleMouseDown. same_cache.
  - unfold handleMouseMove. same_cache.
  - unfold handleMouseUp. same_cache.
  - unfold handleWheel. same_cache.
  - unfold handleDoubleClick. same_cache.
  - unfold handleTouchStart. same_cache.
  - unfold handleTouchMove. same_cache.
  - unfold handleTouchEnd. same_cache.
  - unfold zoomIn. same_cache.
  - unfold zoomOut. same_cache.
  - unfold resetView. same_cache.
  - unfold resizeCanvas. same_cache.
  - unfold render. destruct (isAnimating (anim e)).
    + destruct (updateAnimation _ _ _ e) as [e1|] eqn:E; [|discriminate].
      intros [= <-]. apply sameCache_renderFrame.
      eapply sameCache_updateAnimation, E.
    + intros [= <-]. same_cache.
  - apply sameCache_runSwapCallback, sameCache_refl.
  - unfold sameCache. simpl. tauto.
  - destruct (pendingDecodes (rt e)) as [|n]; [discriminate|].
    destruct decoded as [[w h]|]; intros [= <-].
    + unfold loadImage_decoded, fitImageToScreen, sameCache.
      destruct (centerOnInit config); simpl; tauto.
    + unfold sameCache. simpl. tauto.
Qed.

End CacheFrames.

(** *** The cache in every reachable state *)

Section CacheInvariant.

Variable LOD_LEVELS : list LODLevel.
Variable config : Config.

Lemma cacheKeysValid_size (e : Engine) :
  cacheKeysValid LOD_LEVELS e ->
  (size (lodTextures (lod e)) <= length LOD_LEVELS)%nat.
Proof.
  intros Hkeys.
  set (levels := Z.of_nat <$> seq 0 (length LOD_LEVELS)).
  assert (Hnd : NoDup levels).
  { apply (NoDup_fmap_2 _), NoDup_seq. }
  assert (Hsub : dom (lodTextures (lod e)) ⊆ list_to_set (C := gset Z) levels).
  { intros l Hl. apply elem_of_dom in Hl as [info Hl].
    apply Hkeys in Hl. unfold LOD_LEVELS_length in Hl.
    apply elem_of_list_to_set, list_elem_of_fmap.
    exists (Z.to_nat l). split; [lia|]. apply elem_of_seq. lia. }
  apply subseteq_size in Hsub.
  rewrite size_dom, size_list_to_set in Hsub by exact Hnd.
  subst levels. rewrite length_fmap, length_seq in Hsub. exact Hsub.
Qed.

Lemma updateMemoryInfo_cacheInvariant (now : Q) (e : Engine) :
  cacheInvariant LOD_LEVELS e -> cacheInvariant LOD_LEVELS (updateMemoryInfo now e).
Proof.
  intros H. unfold updateMemoryInfo.
  assert (H1 : cacheInvariant LOD_LEVELS (checkMemoryPressure (updateMemoryUsage e))).
  { eapply cacheInvariant_sameCache; [|exact H].
    apply sameCache_checkMemoryPressure, sameCache_updateMemoryUsage, sameCache_refl. }
  cbv zeta.
  destruct (pressure (memoryInfo (checkMemoryPressure (updateMemoryUsage e)))).
  - exact H1.
  - exact H1.
  - unfold cleanupOldTextures. cbv zeta. apply evict_cacheInvariant. exact H1.
  - unfold emergencyCleanup. cbv zeta. apply evict_cacheInvariant. exact H1.
Qed.

Lemma createInitialTexture_resume_cacheInvariant (optimalLOD : Z)
    (asyncOutcome syncOutcome : TextureOutcome) (now : Q) (e e' : Engine) :
  createInitialTexture_resume LOD_LEVELS optimalLOD asyncOutcome syncOutcome now e
    = Some e' ->
  cacheInvariant LOD_LEVELS e -> cacheInvariant LOD_LEVELS e'.
Proof.
  unfold createInitialTexture_resume. intros Hc H.
  pose proof (createLODTextureAsync_cacheInvariant LOD_LEVELS optimalLOD
                asyncOutcome now e H) as H1.
  destruct (createLODTextureAsync LOD_LEVELS _ asyncOutcome now e) as [e1 [t|]];
    cbn [fst] in H1.
  - injection Hc as <-. eapply cacheInvariant_sameCache; [|exact H1].
    apply sameCache_with_buf, sameCache_set_currentLOD, sameCache_refl.
  - destruct (createTextureMainThread LOD_LEVELS _ syncOutcome now e1)
      as [[e2 [t|]]|] eqn:Em; try discriminate.
    injection Hc as <-.
    eapply cacheInvariant_sameCache;
      [|eapply createTextureMainThread_cacheInvariant; [exact Em | exact H1]].
    apply sameCache_with_buf, sameCache_set_currentLOD, sameCache_refl.
Qed.

Lemma loadImage_resume_cacheInvariant (optimalLOD : Z)
    (asyncOutcome syncOutcome : TextureOutcome) (now : Q) (e : Engine) :
  cacheInvariant LOD_LEVELS e ->
  cacheInvariant LOD_LEVELS
    (fst (loadImage_resume LOD_LEVELS optimalLOD asyncOutcome syncOutcome now e)).
Proof.
  intros H. unfold loadImage_resume.
  destruct (createInitialTexture_resume LOD_LEVELS optimalLOD asyncOutcome
              syncOutcome now e) as [e3|] eqn:Ec; cbn [fst]; [|exact H].
  cbv zeta. eapply cacheInvariant_sameCache;
    [|eapply createInitialTexture_resume_cacheInvariant; [exact Ec | exact H]].
  apply sameCache_notifyZoomChange, sameCache_updateLODIfNeeded,
    sameCache_with_img, sameCache_refl.
Qed.

Lemma settleTexture_cacheInvariant (req : TextureRequest)
    (outcome fallback : TextureOutcome) (now : Q) (e : Engine) :
  cacheInvariant LOD_LEVELS e ->
  cacheInvariant LOD_LEVELS (settleTexture LOD_LEVELS req outcome fallback now e).
Proof.
  intros H. unfold settleTexture. destruct req as [l|l|l].
  - apply loadImage_resume_cacheInvariant, H.
  - pose proof (createLODTextureAsync_cacheInvariant LOD_LEVELS l outcome now e H) as Hc.
    destruct (createLODTextureAsync LOD_LEVELS l outcome now e) as [e1 [t|]];
      cbn [fst] in Hc; [|exact Hc].
    eapply cacheInvariant_sameCache; [|exact Hc].
    apply sameCache_preloadAdjacentLODs, sameCache_swapBuffers, sameCache_refl.
  - apply createLODTextureAsync_cacheInvariant, H.
Qed.

Lemma step_cacheInvariant (ev : Event) (e e' : Engine) :
  step LOD_LEVELS config ev e = Some e' ->
  cacheInvariant LOD_LEVELS e -> cacheInvariant LOD_LEVELS e'.
Proof.
  intros Hstep H.
  pose proof (step_sameCache LOD_LEVELS config ev e e' Hstep) as Hs.
  destruct ev; try (eapply cacheInvariant_sameCache; [exact Hs | exact H]);
    simpl in Hstep.
  - destruct (pendingTextures (rt e) !! i) as [req|]; [|discriminate].
    injection Hstep as <-. apply settleTexture_cacheInvariant.
    eapply cacheInvariant_sameCache; [|exact H].
    apply sameCache_set_pendingTextures, sameCache_refl.
  - injection Hstep as <-. apply updateMemoryInfo_cacheInvariant, H.
Qed.

Lemma updateMemoryInfo_empty (now : Q) (e : Engine) :
  lodTextures (lod e) = ∅ -> lodTextures (lod (updateMemoryInfo now e)) = ∅.
Proof.
  intros He. unfold updateMemoryInfo. cbv zeta.
  set (e1 := checkMemoryPressure (updateMemoryUsage e)).
  assert (H1 : lodTextures (lod e1) = ∅) by exact He.
  destruct (pressure (memoryInfo e1)).
  - exact H1.
  - exact H1.
  - apply map_eq. intros l. unfold cleanupOldTextures. rewrite evict_lookup, H1.
    rewrite !lookup_empty. reflexivity.
  - apply map_eq. intros l. rewrite emergencyCleanup_lookup, H1.
    rewrite !lookup_empty. destruct (keptByEmergencyCleanup _ _); reflexivity.
Qed.

Lemma resizeCanvas_sameCache (rect : DOMRect) (e : Engine) :
  sameCache e (resizeCanvas LOD_LEVELS config rect e).
Proof.
  pose proof (step_sameCache LOD_LEVELS config (Resize rect) e _ eq_refl) as H.
  exact H.
Qed.

Lemma newEngine_cache (isMobile : bool) (devicePixelRatio : Q) (rect : DOMRect)
    (dateNow : Q) :
  lodTextures (lod (newEngine LOD_LEVELS config isMobile devicePixelRatio rect dateNow)) = ∅.
Proof.
  unfold newEngine. apply updateMemoryInfo_empty.
  destruct (resizeCanvas_sameCache rect
              (fieldInitialisers (calculateMemoryLimits isMobile devicePixelRatio)))
    as (Hc & _).
  rewrite Hc. reflexivity.
Qed.

Lemma newEngine_pendingTextures (isMobile : bool) (devicePixelRatio : Q)
    (rect : DOMRect) (dateNow : Q) :
  pendingTextures
    (rt (newEngine LOD_LEVELS config isMobile devicePixelRatio rect dateNow)) = [].
Proof.
  unfold newEngine, updateMemoryInfo. cbv zeta.
  destruct (pressure (memoryInfo _)); reflexivity.
Qed.

Lemma newEngine_cacheInvariant (isMobile : bool) (devicePixelRatio : Q) (rect : DOMRect)
    (dateNow : Q) :
  cacheInvariant LOD_LEVELS
    (newEngine LOD_LEVELS config isMobile devicePixelRatio rect dateNow).
Proof.
  pose proof (newEngine_cache isMobile devicePixelRatio rect dateNow) as Hc.
  unfold cacheInvariant, cacheKeysValid, cacheHandlesSound. rewrite Hc.
  split; [|split]; intros *; rewrite lookup_empty; discriminate.
Qed.

Lemma reachable_cacheInvariant (ok : Event -> Engine -> Prop) (e0 e : Engine) :
  cacheInvariant LOD_LEVELS e0 ->
  reachable LOD_LEVELS config ok e0 e -> cacheInvariant LOD_LEVELS e.
Proof.
  intros H0 Hr. induction Hr as [|e ev e' _ IH _ Hstep]; [exact H0|].
  eapply step_cacheInvariant; [exact Hstep | exact IH].
Qed.

End CacheInvariant.

Section CacheClaims.

Variable LOD_LEVELS : list LODLevel.
Variable config : Config.

Lemma run_reachable (evs : list Event) (e0 e e' : Engine) :
  reachable LOD_LEVELS config anyEvent e0 e ->
  run LOD_LEVELS config evs e = Some e' ->
  reachable LOD_LEVELS config anyEvent e0 e'.
Proof.
  revert e. induction evs as [|ev evs IH]; intros e Hr; simpl.
  - intros [= <-]. exact Hr.
  - destruct (step LOD_LEVELS config ev e) as [e1|] eqn:Hs; [|discriminate].
    apply IH. eapply reachable_step; [exact Hr | exact I | exact Hs].
Qed.

(** What [createLODTextureAsync] can end with. *)
Lemma createLODTextureAsync_cases (lodLevel : Z) (outcome : TextureOutcome) (now : Q)
    (e : Engine) :
  createLODTextureAsync LOD_LEVELS lodLevel outcome now e = (e, None)
  \/ exists w h,
       createLODTextureAsync LOD_LEVELS lodLevel outcome now e
       = (fst (storeTexture lodLevel w h now e), Some (glNext (rt e))).
Proof.
  unfold createLODTextureAsync.
  destruct (_ || _); [left; reflexivity|].
  destruct outcome as [[w h]|]; [|left; reflexivity].
  right. exists w, h. reflexivity.
Qed.

Lemma createLODTextureAsync_keeps (lodLevel : Z) (outcome : TextureOutcome) (now : Q)
    (e : Engine) :
  let e' := fst (createLODTextureAsync LOD_LEVELS lodLevel outcome now e) in
  (forall l, l <> lodLevel -> lodTextures (lod e') !! l = lodTextures (lod e) !! l)
  /\ glLive (rt e) ⊆ glLive (rt e').
Proof.
  destruct (createLODTextureAsync_cases lodLevel outcome now e) as [H|(w & h & H)];
    rewrite H; cbn [fst].
  - split; [reflexivity|]. intros t Ht. exact Ht.
  - pose proof (storeTexture_result lodLevel w h now e) as (_ & Hm & Hg & _).
    cbv zeta in *. rewrite Hm, Hg. split.
    + intros l Hl. apply lookup_insert_ne. congruence.
    + intros t Ht. apply elem_of_union_l, Ht.
Qed.

Lemma createInitialTexture_resume_first (l : Z)
    (asyncOutcome syncOutcome : TextureOutcome) (now : Q) (e e' : Engine) :
  lodTextures (lod e) = ∅ ->
  createInitialTexture_resume LOD_LEVELS l asyncOutcome syncOutcome now e = Some e' ->
  size (lodTextures (lod e')) = 1%nat.
Proof.
  intros He. unfold createInitialTexture_resume.
  destruct (createLODTextureAsync_cases l asyncOutcome now e) as [H|(w & h & H)];
    rewrite H.
  - unfold createTextureMainThread.
    destruct (LOD_LEVELS_at LOD_LEVELS l); [|discriminate].
    destruct syncOutcome as [[w h]|]; [|discriminate].
    pose proof (storeTexture_result l w h now e) as (_ & Hm & _).
    destruct (storeTexture l w h now e) as [e2 t]. cbn [fst] in Hm.
    intros [= <-]. cbn [lod with_buf with_lod lodTextures set_currentLOD].
    rewrite Hm, He, insert_empty. apply map_size_singleton.
  - pose proof (storeTexture_result l w h now e) as (_ & Hm & _).
    destruct (storeTexture l w h now e) as [e2 t]. cbn [fst] in *.
    intros [= <-]. cbn [lod with_buf with_lod lodTextures set_currentLOD].
    rewrite Hm, He, insert_empty. apply map_size_singleton.
Qed.

Lemma loadImage_first (url : string) (decoded : option (Q * Q))
    (asyncOutcome syncOutcome : TextureOutcome) (now : Q) (e : Engine) :
  lodTextures (lod e) = ∅ ->
  snd (loadImage LOD_LEVELS config url decoded asyncOutcome syncOutcome now e) = Resolved ->
  size (lodTextures
          (lod (fst (loadImage LOD_LEVELS config url decoded asyncOutcome syncOutcome
                       now e)))) = 1%nat.
Proof.
  intros He. unfold loadImage. cbv zeta.
  destruct decoded as [[w h]|]; [|discriminate].
  set (e2 := loadImage_decoded config w h (loadImage_call url e)).
  assert (Ha : lodTextures (lod e2) = ∅).
  { subst e2. unfold loadImage_decoded, fitImageToScreen.
    destruct (centerOnInit config); exact He. }
  unfold loadImage_resume.
  destruct (createInitialTexture_resume LOD_LEVELS (selectOptimalLOD LOD_LEVELS e2)
              asyncOutcome syncOutcome now e2) as [e3|] eqn:Ec; [|discriminate].
  intros _. cbn [fst].
  pose proof (createInitialTexture_resume_first _ _ _ _ _ _ Ha Ec) as H1.
  match goal with
  | |- context [updateLODIfNeeded LOD_LEVELS ?a] =>
      pose proof (updateLODIfNeeded_frame LOD_LEVELS a) as (_ & _ & _ & _ & Hl & _)
  end.
  cbv zeta in Hl. simpl. rewrite Hl. exact H1.
Qed.

Lemma delete_last {A} (l : list A) (x : A) : delete (length l) (l ++ [x]) = l.
Proof. induction l as [|y l IH]; [reflexivity|]. simpl. f_equal. exact IH. Qed.

Lemma loadImage_decoded_rt (w h : Q) (e : Engine) :
  rt (loadImage_decoded config w h e) = rt e.
Proof.
  unfold loadImage_decoded, fitImageToScreen. destruct (centerOnInit config); reflexivity.
Qed.

Lemma step_ImageDecoded_after_call (decoded : option (Q * Q)) (e : Engine) :
  step LOD_LEVELS config (ImageDecoded decoded)
    (with_rt (fun r => set_pendingDecodes (S (pendingDecodes r)) r) e)
  = Some match decoded with
         | None => e
         | Some (w, h) =>
             with_rt (fun r => set_pendingTextures
                                 (pendingTextures r
                                  ++ [ReqInitial (selectOptimalLOD LOD_LEVELS
                                                    (loadImage_decoded config w h e))]) r)
               (loadImage_decoded config w h e)
         end.
Proof.
  destruct e as [b i x a n l m r]. destruct r as [gl gn pd pt ps zc rc].
  destruct decoded as [[w h]|]; reflexivity.
Qed.

Lemma step_TextureSettled_last (req : TextureRequest) (outcome fallback : TextureOutcome)
    (now : Q) (e : Engine) :
  step LOD_LEVELS config
    (TextureSettled (length (pendingTextures (rt e))) outcome fallback now)
    (with_rt (fun r => set_pendingTextures (pendingTextures r ++ [req]) r) e)
  = Some (settleTexture LOD_LEVELS req outcome fallback now e).
Proof.
  destruct e as [b i x a n l m r]. destruct r as [gl gn pd pt ps zc rc].
  unfold step. cbn [rt with_rt pendingTextures set_pendingTextures].
  rewrite list_lookup_middle by reflexivity.
  cbn [rt with_rt pendingTextures set_pendingTextures glLive glNext pendingDecodes
       pendingSwaps zoomChanges renderCalls].
  do 2 f_equal. unfold with_rt, set_pendingTextures. simpl.
  rewrite delete_last. reflexivity.
Qed.

(** A load run without interruption is three events: the call, the answer
    of the decoder and the settling of the initial texture. *)
Lemma loadImage_as_events (url : string) (decoded : option (Q * Q))
    (asyncOutcome syncOutcome : TextureOutcome) (now : Q) (e : Engine) :
  run LOD_LEVELS config
    (LoadImage url :: ImageDecoded decoded
     :: match decoded with
        | Some _ => [TextureSettled (length (pendingTextures (rt e)))
                       asyncOutcome syncOutcome now]
        | None => []
        end) e
  = Some (fst (loadImage LOD_LEVELS config url decoded asyncOutcome syncOutcome now e)).
Proof.
  unfold loadImage. cbv zeta.
  change (run LOD_LEVELS config (LoadImage url :: ?evs) e)
    with (match step LOD_LEVELS config (LoadImage url) e with
          | Some e' => run LOD_LEVELS config evs e' | None => None end).
  change (step LOD_LEVELS config (LoadImage url) e)
    with (Some (with_rt (fun r => set_pendingDecodes (S (pendingDecodes r)) r)
                  (loadImage_call url e))).
  cbv iota beta.
  set (e0 := loadImage_call url e).
  change (run LOD_LEVELS config (ImageDecoded decoded :: ?evs) ?x)
    with (match step LOD_LEVELS config (ImageDecoded decoded) x with
          | Some e' => run LOD_LEVELS config evs e' | None => None end).
  rewrite step_ImageDecoded_after_call.
  destruct decoded as [[w h]|]; [|reflexivity].
  set (e2 := loadImage_decoded config w h e0).
  assert (Hrt : rt e2 = rt e) by (subst e2; rewrite loadImage_decoded_rt; reflexivity).
  rewrite <- Hrt.
  change (run LOD_LEVELS config [?ev] ?x)
    with (match step LOD_LEVELS config ev x with
          | Some e' => Some e' | None => None end).
  rewrite step_TextureSettled_last. reflexivity.
Qed.

(** *** What removes entries *)

Lemma cacheGrows_refl (e : Engine) : cacheGrows e e.
Proof. split; [tauto|]. intros t Ht. exact Ht. Qed.

Lemma cacheGrows_trans (e1 e2 e3 : Engine) :
  cacheGrows e1 e2 -> cacheGrows e2 e3 -> cacheGrows e1 e3.
Proof.
  intros [H1 G1] [H2 G2]. split.
  - intros l Hl. apply H2, H1, Hl.
  - intros t Ht. apply G2, G1, Ht.
Qed.

Lemma cacheGrows_sameCache (e e' : Engine) : sameCache e e' -> cacheGrows e e'.
Proof.
  unfold sameCache. intros (Hc & Hg & _). split.
  - intros l. rewrite Hc. tauto.
  - rewrite Hg. intros t Ht. exact Ht.
Qed.

Lemma storeTexture_cacheGrows (lodLevel : Z) (w h now : Q) (e : Engine) :
  cacheGrows e (fst (storeTexture lodLevel w h now e))
  /\ is_Some (lodTextures (lod (fst (storeTexture lodLevel w h now e))) !! lodLevel).
Proof.
  pose proof (storeTexture_result lodLevel w h now e) as (_ & Hm & Hg & _).
  cbv zeta in *. unfold cacheGrows. rewrite Hm, Hg. split; [split|].
  - intros l Hl. destruct (decide (l = lodLevel)) as [->|Hne].
    + rewrite lookup_insert_eq. eexists. reflexivity.
    + rewrite lookup_insert_ne by congruence. exact Hl.
  - intros t Ht. apply elem_of_union_l, Ht.
  - rewrite lookup_insert_eq. eexists. reflexivity.
Qed.

Lemma createLODTextureAsync_cacheGrows (lodLevel : Z) (outcome : TextureOutcome)
    (now : Q) (e : Engine) :
  let r := createLODTextureAsync LOD_LEVELS lodLevel outcome now e in
  cacheGrows e (fst r)
  /\ (snd r <> None -> is_Some (lodTextures (lod (fst r)) !! lodLevel)).
Proof.
  destruct (createLODTextureAsync_cases lodLevel outcome now e) as [H|(w & h & H)];
    cbv zeta; rewrite H; cbn [fst snd].
  - split; [apply cacheGrows_refl|]. intros Hn. destruct Hn. reflexivity.
  - destruct (storeTexture_cacheGrows lodLevel w h now e) as [Hg Hs].
    split; [exact Hg|]. intros _. exact Hs.
Qed.

Lemma createTextureMainThread_cacheGrows (lodLevel : Z) (outcome : TextureOutcome)
    (now : Q) (e e' : Engine) (r : option WebGLTexture) :
  createTextureMainThread LOD_LEVELS lodLevel outcome now e = Some (e', r) ->
  cacheGrows e e'
  /\ (r <> None -> is_Some (lodTextures (lod e') !! lodLevel)).
Proof.
  unfold createTextureMainThread.
  destruct (LOD_LEVELS_at LOD_LEVELS lodLevel); [|discriminate].
  destruct outcome as [[w h]|].
  - destruct (storeTexture_cacheGrows lodLevel w h now e) as [Hg Hs].
    destruct (storeTexture lodLevel w h now e) as [e2 t]. cbn [fst] in *.
    intros [= <- <-]. split; [exact Hg|]. intros _. exact Hs.
  - intros [= <- <-]. split; [apply cacheGrows_refl|].
    intros Hn. destruct Hn. reflexivity.
Qed.

Lemma createInitialTexture_resume_cacheGrows (l : Z)
    (asyncOutcome syncOutcome : TextureOutcome) (now : Q) (e e' : Engine) :
  createInitialTexture_resume LOD_LEVELS l asyncOutcome syncOutcome now e = Some e' ->
  cacheGrows e e' /\ is_Some (lodTextures (lod e') !! l).
Proof.
  unfold createInitialTexture_resume.
  pose proof (createLODTextureAsync_cacheGrows l asyncOutcome now e) as Ha.
  cbv zeta in Ha.
  destruct (createLODTextureAsync LOD_LEVELS l asyncOutcome now e) as [e1 [t|]];
    cbn [fst snd] in Ha; destruct Ha as [Hg Hs].
  - intros [= <-]. split; [|apply Hs; discriminate].
    eapply cacheGrows_trans; [exact Hg|]. apply cacheGrows_sameCache.
    apply sameCache_with_buf, sameCache_set_currentLOD, sameCache_refl.
  - destruct (createTextureMainThread LOD_LEVELS l syncOutcome now e1)
      as [[e2 [t|]]|] eqn:Em; try discriminate.
    intros [= <-].
    destruct (createTextureMainThread_cacheGrows _ _ _ _ _ _ Em) as [Hg2 Hs2].
    split; [|apply Hs2; discriminate].
    eapply cacheGrows_trans; [exact Hg|].
    eapply cacheGrows_trans; [exact Hg2|]. apply cacheGrows_sameCache.
    apply sameCache_with_buf, sameCache_set_currentLOD, sameCache_refl.
Qed.

(** A load that resolves has cached the texture of its initial level. *)
Lemma loadImage_resume_cacheGrows (l : Z)
    (asyncOutcome syncOutcome : TextureOutcome) (now : Q) (e : Engine) :
  let r := loadImage_resume LOD_LEVELS l asyncOutcome syncOutcome now e in
  cacheGrows e (fst r)
  /\ (snd r = Resolved ->
      imageLoaded (img (fst r)) = true
      /\ is_Some (lodTextures (lod (fst r)) !! l)).
Proof.
  cbv zeta. unfold loadImage_resume.
  destruct (createInitialTexture_resume LOD_LEVELS l asyncOutcome syncOutcome now e)
    as [e3|] eqn:Ec; cbn [fst snd]; [|split; [apply cacheGrows_refl|discriminate]].
  destruct (createInitialTexture_resume_cacheGrows _ _ _ _ _ _ Ec) as [Hg Hs].
  match goal with
  | |- context [updateLODIfNeeded LOD_LEVELS ?a] =>
      pose proof (updateLODIfNeeded_frame LOD_LEVELS a) as (Hi & _ & _ & _ & Hl & _);
      assert (Hsame : sameCache e3 (notifyZoomChange (updateLODIfNeeded LOD_LEVELS a)))
        by (apply sameCache_notifyZoomChange, sameCache_updateLODIfNeeded,
              sameCache_with_img, sameCache_refl)
  end.
  cbv zeta in Hi, Hl. split.
  - eapply cacheGrows_trans; [exact Hg|]. apply cacheGrows_sameCache, Hsame.
  - intros _. cbn [notifyZoomChange with_rt img lod]. rewrite Hi, Hl. split.
    + reflexivity.
    + exact Hs.
Qed.

Lemma settleTexture_cacheGrows (req : TextureRequest)
    (outcome fallback : TextureOutcome) (now : Q) (e : Engine) :
  cacheGrows e (settleTexture LOD_LEVELS req outcome fallback now e).
Proof.
  unfold settleTexture. destruct req as [l|l|l].
  - apply loadImage_resume_cacheGrows.
  - pose proof (createLODTextureAsync_cacheGrows l outcome now e) as Hc.
    cbv zeta in Hc.
    destruct (createLODTextureAsync LOD_LEVELS l outcome now e) as [e1 [t|]];
      cbn [fst snd] in Hc; destruct Hc as [Hg _]; [|exact Hg].
    eapply cacheGrows_trans; [exact Hg|]. apply cacheGrows_sameCache.
    apply sameCache_preloadAdjacentLODs, sameCache_swapBuffers, sameCache_refl.
  - apply createLODTextureAsync_cacheGrows.
Qed.

(** Every event but the tick of the memory monitor keeps what is cached
    and what is live. *)
Lemma step_cacheGrows (ev : Event) (e e' : Engine) :
  (forall dateNow, ev <> MemoryTick dateNow) ->
  step LOD_LEVELS config ev e = Some e' -> cacheGrows e e'.
Proof.
  intros Hev Hstep.
  pose proof (step_sameCache LOD_LEVELS config ev e e' Hstep) as Hs.
  destruct ev; try (apply cacheGrows_sameCache; exact Hs); simpl in Hstep.
  - destruct (pendingTextures (rt e) !! i); [|discriminate].
    injection Hstep as <-.
    eapply cacheGrows_trans; [|apply settleTexture_cacheGrows].
    apply cacheGrows_sameCache, sameCache_set_pendingTextures, sameCache_refl.
  - destruct (Hev dateNow). reflexivity.
Qed.

(** C1 (as amended).  The LOD cache holds at most one texture per level:
    in every state reachable from a new engine its keys are indices of
    [LOD_LEVELS], so it holds at most [LOD_LEVELS.length] textures.
    Creating the texture of a level deletes nothing: every entry of another
    level stays in the cache and every live texture stays live.  A load
    that resolves has cached the texture of its initial level, so the
    cache holds at least one texture right after an image is loaded; it
    holds exactly one when the load is the first of a new engine and no
    other event came between its call and the settling of its promise.  Of
    the events of a running engine only the tick of the memory monitor
    takes a level out of the cache or deletes a texture that was live
    before it. *)
Theorem cache_holds_one_texture_per_level :
  (forall isMobile devicePixelRatio rect dateNow e,
     reachable LOD_LEVELS config anyEvent
       (newEngine LOD_LEVELS config isMobile devicePixelRatio rect dateNow) e ->
     cacheKeysValid LOD_LEVELS e
     /\ (size (lodTextures (lod e)) <= length LOD_LEVELS)%nat)
  /\ (forall lodLevel outcome now e,
        let e' := fst (createLODTextureAsync LOD_LEVELS lodLevel outcome now e) in
        (forall l, l <> lodLevel ->
           lodTextures (lod e') !! l = lodTextures (lod e) !! l)
        /\ glLive (rt e) ⊆ glLive (rt e'))
  /\ (forall optimalLOD asyncOutcome syncOutcome now e,
        let r := loadImage_resume LOD_LEVELS optimalLOD asyncOutcome syncOutcome now e in
        snd r = Resolved ->
        imageLoaded (img (fst r)) = true
        /\ is_Some (lodTextures (lod (fst r)) !! optimalLOD)
        /\ (1 <= size (lodTextures (lod (fst r))))%nat)
  /\ (forall isMobile devicePixelRatio rect dateNow url decoded asyncOutcome
             syncOutcome now,
        let e0 := newEngine LOD_LEVELS config isMobile devicePixelRatio rect dateNow in
        snd (loadImage LOD_LEVELS config url decoded asyncOutcome syncOutcome now e0)
          = Resolved ->
        run LOD_LEVELS config
          (LoadImage url :: ImageDecoded decoded
           :: match decoded with
              | Some _ => [TextureSettled 0 asyncOutcome syncOutcome now]
              | None => []
              end) e0
        = Some (fst (loadImage LOD_LEVELS config url decoded asyncOutcome syncOutcome
                       now e0))
        /\ size (lodTextures
                   (lod (fst (loadImage LOD_LEVELS config url decoded asyncOutcome
                                syncOutcome now e0)))) = 1%nat)
  /\ (forall ev e e',
        (forall dateNow, ev <> MemoryTick dateNow) ->
        step LOD_LEVELS config ev e = Some e' ->
        (forall l, is_Some (lodTextures (lod e) !! l) ->
                   is_Some (lodTextures (lod e') !! l))
        /\ glLive (rt e) ⊆ glLive (rt e')).
Proof.
  split; [|split; [|split; [|split]]].
  - intros isMobile devicePixelRatio rect dateNow e Hr.
    assert (Hinv : cacheInvariant LOD_LEVELS e).
    { eapply reachable_cacheInvariant; [|exact Hr]. apply newEngine_cacheInvariant. }
    destruct Hinv as [Hkeys _]. split; [exact Hkeys|].
    apply cacheKeysValid_size, Hkeys.
  - intros lodLevel outcome now e. apply createLODTextureAsync_keeps.
  - intros optimalLOD asyncOutcome syncOutcome now e r Hres.
    destruct (loadImage_resume_cacheGrows optimalLOD asyncOutcome syncOutcome now e)
      as [_ H].
    destruct (H Hres) as [Hl [info Hs]].
    split; [exact Hl|]. split; [eexists; exact Hs|].
    destruct (decide (size (lodTextures (lod (fst r))) = 0%nat)) as [Hz|Hz]; [|lia].
    apply map_size_empty_iff in Hz. subst r. rewrite Hz, lookup_empty in Hs.
    discriminate.
  - intros isMobile devicePixelRatio rect dateNow url decoded asyncOutcome
      syncOutcome now e0 Hres.
    split; [|apply loadImage_first; [apply newEngine_cache | exact Hres]].
    rewrite <- (loadImage_as_events url decoded asyncOutcome syncOutcome now e0).
    subst e0. rewrite newEngine_pendingTextures. reflexivity.
  - intros ev e e' Hev Hstep. exact (step_cacheGrows ev e e' Hev Hstep).
Qed.

(** C5 (as amended).  When the monitor finds the pressure critical it runs
    [emergencyCleanup], which evicts, and deletes, every cached texture
    except those of [currentLOD], [currentLOD - 1] and [currentLOD + 1].
    The entry of the current level is never evicted and nothing is
    requested again; the buffers are untouched, so the draw binds the same
    front texture, and the texture of the current level is still cached
    and live. *)
Theorem emergencyCleanup_keeps_current_and_neighbours (e : Engine) :
  let c := currentLOD (lod e) in
  let e' := emergencyCleanup e in
  (forall l, lodTextures (lod e') !! l
             = if keptByEmergencyCleanup c l then lodTextures (lod e) !! l else None)
  /\ (forall t, t ∈ glLive (rt e')
                <-> t ∈ glLive (rt e)
                    /\ ~ exists l info, lodTextures (lod e) !! l = Some info
                                        /\ keptByEmergencyCleanup c l = false
                                        /\ texture info = t)
  /\ buf e' = buf e
  /\ currentLOD (lod e') = c
  /\ pendingTextures (rt e') = pendingTextures (rt e)
  /\ drawnTexture e' = drawnTexture e
  /\ (forall info,
        cacheHandlesSound e ->
        lodTextures (lod e) !! c = Some info ->
        lodTextures (lod e') !! c = Some info /\ texture info ∈ glLive (rt e'))
  /\ (forall now e0,
        pressure (memoryInfo (checkMemoryPressure (updateMemoryUsage e0))) = critical ->
        updateMemoryInfo now e0
        = emergencyCleanup (checkMemoryPressure (updateMemoryUsage e0))).
Proof.
  cbv zeta.
  assert (Hlook : forall l,
             lodTextures (lod (emergencyCleanup e)) !! l
             = if keptByEmergencyCleanup (currentLOD (lod e)) l
               then lodTextures (lod e) !! l else None)
    by apply emergencyCleanup_lookup.
  assert (Hlive : forall t,
             t ∈ glLive (rt (emergencyCleanup e))
             <-> t ∈ glLive (rt e)
                 /\ ~ exists l info, lodTextures (lod e) !! l = Some info
                        /\ keptByEmergencyCleanup (currentLOD (lod e)) l = false
                        /\ texture info = t).
  { intros t. unfold emergencyCleanup. cbv zeta. rewrite evict_live. reflexivity. }
  assert (Hkept : keptByEmergencyCleanup (currentLOD (lod e)) (currentLOD (lod e)) = true).
  { unfold keptByEmergencyCleanup. rewrite Z.eqb_refl. reflexivity. }
  split; [exact Hlook|]. split; [exact Hlive|].
  split; [reflexivity|]. split; [reflexivity|]. split; [reflexivity|].
  split; [reflexivity|].
  split.
  - intros info [Hsound Hinj] Hc. split.
    + rewrite Hlook, Hkept. exact Hc.
    + apply Hlive. split; [apply (Hsound _ _ Hc)|].
      intros (l & info' & Hl & Hk & Ht).
      assert (l = currentLOD (lod e)) by (eapply Hinj; eauto). subst l.
      congruence.
  - intros now e0 Hp. unfold updateMemoryInfo. cbv zeta. rewrite Hp. reflexivity.
Qed.

End CacheClaims.

(** *** The claims on the sample session *)

Lemma Sample_loaded_imagePresent : imagePresent Sample.loaded.
Proof. split; vm_compute; reflexivity. Qed.

Lemma Sample_loaded_viewportPresent : viewportPresent Sample.loaded.
Proof. split; vm_compute; reflexivity. Qed.

Lemma Sample_loaded_reachable :
  reachable Sample.LOD_LEVELS Sample.config anyEvent Sample.fresh Sample.loaded.
Proof.
  apply (run_reachable _ _ Sample.loading _ Sample.fresh);
    [apply reachable_start|].
  vm_compute. reflexivity.
Qed.

Lemma Sample_twoCached_reachable :
  reachable Sample.LOD_LEVELS Sample.config anyEvent Sample.fresh Sample.twoCachedEngine.
Proof.
  apply (run_reachable _ _ Sample.settleLevel2 _ Sample.loaded);
    [exact Sample_loaded_reachable|].
  vm_compute. reflexivity.
Qed.

Lemma Sample_fourCached_reachable :
  reachable Sample.LOD_LEVELS Sample.config anyEvent Sample.fresh Sample.fourCachedEngine.
Proof.
  apply (run_reachable _ _ Sample.session _ Sample.fresh);
    [apply reachable_start|].
  vm_compute. reflexivity.
Qed.

Lemma cache_holds_one_texture_per_level_witness :
  (size (lodTextures (lod Sample.fourCachedEngine)) <= length Sample.LOD_LEVELS)%nat
  /\ lodTextures
       (lod (fst (createLODTextureAsync Sample.LOD_LEVELS 2 Sample.big 10 Sample.loaded)))
       !! 3%Z
     = lodTextures (lod Sample.loaded) !! 3%Z
  /\ size (lodTextures (lod Sample.loaded)) = 1%nat
  /\ is_Some (lodTextures (lod Fixture.interrupted) !! 3%Z)
  /\ glLive (rt Sample.loaded) ⊆ glLive (rt Sample.twoCachedEngine).
Proof.
  pose proof (cache_holds_one_texture_per_level Sample.LOD_LEVELS Sample.config)
    as (Ha & Hb & Hc & Hd & He).
  split; [|split; [|split; [|split]]].
  - apply (Ha false 1 Sample.rect 0). exact Sample_fourCached_reachable.
  - apply (proj1 (Hb 2%Z Sample.big 10 Sample.loaded)). discriminate.
  - apply (Hd false 1 Sample.rect 0 "a.jpg"%string (Some (8000, 6000))
             (Some (1000, 750)) None 0).
    vm_compute. reflexivity.
  - assert (E : Fixture.interrupted
                = fst (loadImage_resume Sample.LOD_LEVELS 3 (Some (1000, 750)) None 30
                         (with_rt (fun r => set_pendingTextures
                                              (delete 0%nat (pendingTextures r)) r)
                            Fixture.interruptedBeforeSettling)))
      by (vm_compute; reflexivity).
    rewrite E.
    apply (Hc 3%Z (Some (1000, 750)) None 30).
    vm_compute. reflexivity.
  - apply (He (TextureSettled 0 (Some (4000, 3000)) None 10) Sample.loaded
              Sample.twoCachedEngine).
    + discriminate.
    + vm_compute. reflexivity.
Defined.

(** A load that other events interrupt can resolve with more than one
    texture cached: here with three. *)
Lemma interrupted_load_caches_three :
  imageLoaded (img Fixture.interruptedBeforeSettling) = false
  /\ imageLoaded (img Fixture.interrupted) = true
  /\ size (lodTextures (lod Fixture.interrupted)) = 3%nat.
Proof. repeat split; vm_compute; reflexivity. Qed.

(** C1 as stated fails: once the request for level 2 has settled, the
    loaded engine caches two textures, and the texture of level 3 was not
    deleted when that of level 2 was created. *)
Lemma cache_holds_two_textures :
  reachable Sample.LOD_LEVELS Sample.config anyEvent Sample.fresh Sample.twoCachedEngine
  /\ imageLoaded (img Sample.twoCachedEngine) = true
  /\ ~ (size (lodTextures (lod Sample.twoCachedEngine)) <= 1)%nat
  /\ (texture <$> lodTextures (lod Sample.twoCachedEngine) !! 3%Z,
      texture <$> lodTextures (lod Sample.twoCachedEngine) !! 2%Z)
     = (Some 0%nat, Some 1%nat)
  /\ bool_decide (0%nat ∈ glLive (rt Sample.twoCachedEngine)) = true.
Proof.
  split; [exact Sample_twoCached_reachable|].
  split; [vm_compute; reflexivity|].
  split.
  { assert (H : size (lodTextures (lod Sample.twoCachedEngine)) = 2%nat)
      by (vm_compute; reflexivity).
    rewrite H. lia. }
  split; vm_compute; reflexivity.
Qed.

Lemma emergencyCleanup_keeps_current_and_neighbours_witness :
  texture <$> lodTextures (lod (emergencyCleanup Sample.fourCachedEngine)) !! 2%Z
    = Some 1%nat
  /\ 1%nat ∈ glLive (rt (emergencyCleanup Sample.fourCachedEngine)).
Proof.
  pose proof (emergencyCleanup_keeps_current_and_neighbours Sample.fourCachedEngine)
    as (_ & _ & _ & _ & _ & _ & H & _).
  assert (Hsound : cacheHandlesSound Sample.fourCachedEngine).
  { eapply (reachable_cacheInvariant Sample.LOD_LEVELS Sample.config anyEvent Sample.fresh).
    - apply newEngine_cacheInvariant.
    - exact Sample_fourCached_reachable. }
  destruct (H {| texture := 1%nat; width := 5000; height := 4100;
                 memory := 82000000; lastUsed := 10 |} Hsound) as [Hl Hg].
  - vm_compute. reflexivity.
  - split; [|exact Hg].
    change (currentLOD (lod Sample.fourCachedEngine)) with 2%Z in Hl.
    rewrite Hl. reflexivity.
Defined.

(** C5 as stated fails: in the sample session the monitor finds critical
    pressure with level 2 current, and the cleanup keeps the textures of
    levels 1 and 3 besides that of level 2; only level 4 is evicted, and
    nothing is requested. *)
Lemma emergencyCleanup_keeps_neighbours :
  (fun e =>
     let e' := updateMemoryInfo 40 e in
     (pressure (memoryInfo e'), currentLOD (lod e'),
      texture <$> lodTextures (lod e') !! 1%Z,
      texture <$> lodTextures (lod e') !! 2%Z,
      texture <$> lodTextures (lod e') !! 3%Z,
      texture <$> lodTextures (lod e') !! 4%Z,
      pendingTextures (rt e')))
    <$> Sample.fourCached
  = Some (critical, 2%Z, Some 2%nat, Some 1%nat, Some 0%nat, None, [])
  /\ lodTextures (lod (emergencyCleanup Sample.fourCachedEngine)) !! 3%Z <> None.
Proof.
  split; [vm_compute; reflexivity|].
  vm_compute. discriminate.
Qed.

Lemma selectOptimalLOD_rule_when_loaded_witness :
  selectionRule Sample.LOD_LEVELS (relativeScale Sample.loaded)
    (getMemoryPressureModifier Sample.loaded)
    (selectOptimalLOD Sample.LOD_LEVELS Sample.loaded)
  /\ selectOptimalLOD Sample.LOD_LEVELS Sample.decodedOnly = 3%Z
  /\ (selectOptimalLOD Sample.LOD_LEVELS Sample.loaded
      <= selectOptimalLOD Sample.LOD_LEVELS Sample.atMax)%Z.
Proof.
  pose proof (selectOptimalLOD_rule_when_loaded Sample.LOD_LEVELS)
    as (Hrule & Hdefault & _ & Hmono).
  split; [|split].
  - apply Hrule.
    + split; vm_compute; reflexivity.
    + split; vm_compute; reflexivity.
    + vm_compute. reflexivity.
  - apply Hdefault. vm_compute. reflexivity.
  - apply Hmono.
    + split; vm_compute; reflexivity.
    + split; vm_compute; reflexivity.
    + split; vm_compute; reflexivity.
    + split; vm_compute; reflexivity.
    + vm_compute. reflexivity.
    + vm_compute. reflexivity.
    + vm_compute. discriminate.
Defined.

(** C6 as stated fails: while [loadImage] creates the initial texture the
    image is not yet marked loaded and level 3 is selected, although at
    relative scale 1 level 2 is the smallest that fits. *)
Lemma selectOptimalLOD_before_loaded :
  imagePresent Sample.decodedOnly
  /\ viewportPresent Sample.decodedOnly
  /\ relativeScale Sample.decodedOnly == 1
  /\ selectOptimalLOD Sample.LOD_LEVELS Sample.decodedOnly = 3%Z
  /\ ~ selectionRule Sample.LOD_LEVELS (relativeScale Sample.decodedOnly)
         (getMemoryPressureModifier Sample.decodedOnly)
         (selectOptimalLOD Sample.LOD_LEVELS Sample.decodedOnly).
Proof.
  split; [split; vm_compute; reflexivity|].
  split; [split; vm_compute; reflexivity|].
  split; [vm_compute; reflexivity|].
  split; [vm_compute; reflexivity|].
  assert (Hfit : fits (Sample.level (1 # 2) 1) (relativeScale Sample.decodedOnly)
                   (getMemoryPressureModifier Sample.decodedOnly)).
  { unfold fits. vm_compute. discriminate. }
  intros [[_ Hmin]|[Hnone _]].
  - apply (Hmin 2%Z (Sample.level (1 # 2) 1)); [|reflexivity|exact Hfit].
    vm_compute. reflexivity.
  - apply (Hnone 2%Z (Sample.level (1 # 2) 1)); [reflexivity | exact Hfit].
Qed.

(** ** The scale bounds *)

Section ScaleArithmetic.

Lemma lerp_between (lo hi a b t : Q) :
  lo <= a <= hi -> lo <= b <= hi -> 0 <= t <= 1 ->
  lo <= a + (b - a) * t <= hi.
Proof.
  intros [Ha1 Ha2] [Hb1 Hb2] [Ht1 Ht2].
  assert (H1 : 0 <= (a - lo) * (1 - t)) by (apply Qmult_le_0_compat; lra).
  assert (H2 : 0 <= (b - lo) * t) by (apply Qmult_le_0_compat; lra).
  assert (H3 : 0 <= (hi - a) * (1 - t)) by (apply Qmult_le_0_compat; lra).
  assert (H4 : 0 <= (hi - b) * t) by (apply Qmult_le_0_compat; lra).
  split; lra.
Qed.

Lemma easeOutQuart_between (p : Q) : 0 <= p <= 1 -> 0 <= easeOutQuart p <= 1.
Proof.
  intros [H0 H1]. unfold easeOutQuart.
  set (u := 1 - p).
  assert (Hu : 0 <= u <= 1) by (subst u; lra).
  assert (Hpow : u ^ 4 == (u * u) * (u * u)) by (simpl; ring).
  rewrite Hpow.
  assert (H2 : 0 <= u * u) by (apply Qmult_le_0_compat; lra).
  assert (H3 : u * u <= 1).
  { assert (0 <= (1 - u) * u) by (apply Qmult_le_0_compat; lra). lra. }
  assert (H4 : 0 <= (u * u) * (u * u)) by (apply Qmult_le_0_compat; assumption).
  assert (H5 : 0 <= (1 - u * u) * (u * u)) by (apply Qmult_le_0_compat; lra).
  split; lra.
Qed.

Lemma animationProgress_between (elapsed duration p : Q) :
  0 <= elapsed -> 0 <= duration ->
  animationProgress elapsed duration = Some p -> 0 <= p <= 1.
Proof.
  intros He Hd. unfold animationProgress.
  destruct (Qeq_bool duration 0) eqn:E.
  - destruct (Qltb 0 elapsed); [|discriminate]. intros [= <-]. lra.
  - intros [= <-].
    assert (Hne : ~ duration == 0).
    { intros H. apply Qeq_bool_iff in H. congruence. }
    assert (Hpos : 0 < duration).
    { destruct (Qlt_le_dec 0 duration) as [H|H]; [exact H|].
      exfalso. apply Hne. lra. }
    assert (Hq : 0 <= elapsed / duration).
    { apply Qle_shift_div_l; [exact Hpos | lra]. }
    apply Qmin_cases; intros; lra.
Qed.

Lemma Qmult_le_l_nonneg (a b c : Q) : a <= b -> 0 <= c -> c * a <= c * b.
Proof.
  intros Hab Hc.
  assert (H : 0 <= c * (b - a)) by (apply Qmult_le_0_compat; lra).
  lra.
Qed.

Lemma clamp_between (lo hi v : Q) : lo <= hi -> lo <= Qmax lo (Qmin hi v) <= hi.
Proof.
  intros H. apply Qmax_cases; intros H1; revert H1; apply Qmin_cases; intros; lra.
Qed.

End ScaleArithmetic.

Create HintDb scaleinv.

Section ScaleInvariant.

Variable LOD_LEVELS : list LODLevel.
Variable config : Config.

(** The upper bound is never below 1. *)
Lemma effectiveMaxScale_ge_1 (e : Engine) : 1 <= effectiveMaxScale config e.
Proof. unfold effectiveMaxScale. apply Qmax_ge_r. Qed.

Lemma getFitToScreenScale_nonneg (e : Engine) :
  0 < imageWidth (img e) -> 0 < imageHeight (img e) ->
  0 <= canvasWidth (img e) -> 0 <= canvasHeight (img e) ->
  0 <= getFitToScreenScale e.
Proof.
  intros Hw Hh Hcw Hch. unfold getFitToScreenScale.
  apply Qmin_cases; intros _; apply Qle_shift_div_l; try assumption; lra.
Qed.

Lemma sameScale_refl (e : Engine) : sameScale e e.
Proof. unfold sameScale. tauto. Qed.

Lemma sameScale_trans (e1 e2 e3 : Engine) :
  sameScale e1 e2 -> sameScale e2 e3 -> sameScale e1 e3.
Proof. unfold sameScale. intros (-> & -> & -> & ->) (-> & -> & -> & ->). tauto. Qed.

(** The workhorse: a state with the same image satisfies the invariant
    when its scale and the ends of its animation are within the bounds. *)
Lemma scaleInvariant_update (e e' : Engine) :
  scaleInvariant config e ->
  img e' = img e ->
  scaleInRange config e (scale (xf e')) ->
  (isAnimating (anim e') = true ->
   scaleInRange config e (startScale (anim e'))
   /\ scaleInRange config e (targetScale (xf e'))
   /\ 0 <= animationDuration (anim e')) ->
  scaleInvariant config e'.
Proof.
  intros (Hd & _ & _) Hi Hs Ha. unfold scaleInvariant.
  rewrite !(scaleInRange_img config e e' _ Hi), Hi. tauto.
Qed.

Lemma scaleInvariant_sameScale (e e' : Engine) :
  sameScale e e' -> scaleInvariant config e -> scaleInvariant config e'.
Proof.
  intros (Hi & Hs & Ht & Ha) H. apply (scaleInvariant_update e e' H Hi).
  - rewrite Hs. apply H.
  - rewrite Ha, Ht. apply H.
Qed.

Ltac by_scale_frame :=
  unfold sameScale; simpl; intros (-> & -> & -> & ->); tauto.

Lemma sameScale_with_buf e0 f e : sameScale e0 e -> sameScale e0 (with_buf f e).
Proof. by_scale_frame. Qed.
Lemma sameScale_with_ia e0 f e : sameScale e0 e -> sameScale e0 (with_ia f e).
Proof. by_scale_frame. Qed.
Lemma sameScale_with_lod e0 f e : sameScale e0 e -> sameScale e0 (with_lod f e).
Proof. by_scale_frame. Qed.
Lemma sameScale_with_memoryInfo e0 f e :
  sameScale e0 e -> sameScale e0 (with_memoryInfo f e).
Proof. by_scale_frame. Qed.
Lemma sameScale_with_rt e0 f e : sameScale e0 e -> sameScale e0 (with_rt f e).
Proof. by_scale_frame. Qed.
Lemma sameScale_set_translate e0 x y e :
  sameScale e0 e -> sameScale e0 (with_xf (set_translate x y) e).
Proof. by_scale_frame. Qed.
Lemma sameScale_set_translate_fun e0 (g h : TransformState -> Q) e :
  sameScale e0 e -> sameScale e0 (with_xf (fun t => set_translate (g t) (h t) t) e).
Proof. by_scale_frame. Qed.

Lemma sameScale_constrainImagePosition e0 e :
  sameScale e0 e -> sameScale e0 (constrainImagePosition config e).
Proof.
  intros H. eapply sameScale_trans; [exact H|].
  pose proof (constrainImagePosition_frame config e)
    as (_ & Hi & _ & Ha & _ & _ & _ & Hs & Ht & _).
  cbv zeta in *. unfold sameScale. rewrite Hi, Ha, Hs, Ht. tauto.
Qed.

Lemma sameScale_notifyZoomChange e0 e :
  sameScale e0 e -> sameScale e0 (notifyZoomChange e).
Proof. by_scale_frame. Qed.

Lemma sameScale_swapBuffers e0 t l e :
  sameScale e0 e -> sameScale e0 (swapBuffers t l e).
Proof. by_scale_frame. Qed.

Lemma sameScale_preloadAdjacentLODs e0 l e :
  sameScale e0 e -> sameScale e0 (preloadAdjacentLODs LOD_LEVELS l e).
Proof. by_scale_frame. Qed.

Lemma sameScale_updateLODIfNeeded e0 e :
  sameScale e0 e -> sameScale e0 (updateLODIfNeeded LOD_LEVELS e).
Proof.
  intros H. eapply sameScale_trans; [exact H|].
  pose proof (updateLODIfNeeded_frame LOD_LEVELS e) as (Hi & Hx & _ & Ha & _).
  cbv zeta in *. unfold sameScale. rewrite Hi, Hx, Ha. tauto.
Qed.

Lemma sameScale_updateMemoryUsage e0 e :
  sameScale e0 e -> sameScale e0 (updateMemoryUsage e).
Proof. by_scale_frame. Qed.

Lemma sameScale_checkMemoryPressure e0 e :
  sameScale e0 e -> sameScale e0 (checkMemoryPressure e).
Proof. by_scale_frame. Qed.

Lemma sameScale_evict e0 keepEntry e :
  sameScale e0 e -> sameScale e0 (evict keepEntry e).
Proof. by_scale_frame. Qed.

Lemma sameScale_storeTexture e0 l w h now e :
  sameScale e0 e -> sameScale e0 (fst (storeTexture l w h now e)).
Proof. by_scale_frame. Qed.

Lemma sameScale_renderFrame e0 e : sameScale e0 e -> sameScale e0 (renderFrame e).
Proof.
  intros H. unfold renderFrame. destruct (drawnTexture e); [|exact H].
  apply sameScale_with_rt, H.
Qed.

Hint Resolve sameScale_refl sameScale_with_buf sameScale_with_ia sameScale_with_lod
  sameScale_with_memoryInfo sameScale_with_rt sameScale_set_translate
  sameScale_set_translate_fun
  sameScale_constrainImagePosition sameScale_notifyZoomChange sameScale_swapBuffers
  sameScale_preloadAdjacentLODs sameScale_updateLODIfNeeded
  sameScale_updateMemoryUsage sameScale_checkMemoryPressure sameScale_evict
  sameScale_storeTexture sameScale_renderFrame : scaleinv.

Ltac same_scale :=
  cbv zeta;
  repeat match goal with
         | |- sameScale _ (if ?b then _ else _) => destruct b
         | |- sameScale _ (match ?x with _ => _ end) => destruct x
         | |- context [if ?b then _ else _] => destruct b
         end;
  auto 12 with scaleinv.

Lemma sameScale_createLODTextureAsync e0 l outcome now e :
  sameScale e0 e ->
  sameScale e0 (fst (createLODTextureAsync LOD_LEVELS l outcome now e)).
Proof.
  intros H.
  destruct (createLODTextureAsync_cases LOD_LEVELS l outcome now e) as [Hc|(w & h & Hc)];
    rewrite Hc; cbn [fst]; auto with scaleinv.
Qed.

Lemma sameScale_createInitialTexture_resume (l : Z)
    (asyncOutcome syncOutcome : TextureOutcome) (now : Q) (e e' : Engine) :
  createInitialTexture_resume LOD_LEVELS l asyncOutcome syncOutcome now e = Some e' ->
  sameScale e e'.
Proof.
  unfold createInitialTexture_resume.
  destruct (createLODTextureAsync_cases LOD_LEVELS l asyncOutcome now e)
    as [Hc|(w & h & Hc)]; rewrite Hc.
  - unfold createTextureMainThread.
    destruct (LOD_LEVELS_at LOD_LEVELS l); [|discriminate].
    destruct syncOutcome as [[w h]|]; [|discriminate].
    pose proof (sameScale_storeTexture e l w h now e (sameScale_refl e)) as Hs.
    destruct (storeTexture l w h now e) as [e2 t]. cbn [fst] in Hs.
    intros [= <-]. apply sameScale_with_buf, sameScale_with_lod, Hs.
  - pose proof (sameScale_storeTexture e l w h now e (sameScale_refl e)) as Hs.
    destruct (storeTexture l w h now e) as [e2 t]. cbn [fst] in Hs.
    intros [= <-]. apply sameScale_with_buf, sameScale_with_lod, Hs.
Qed.

(** The flag [imageLoaded] is no part of the invariant. *)
Lemma scaleInvariant_loaded (e : Engine) :
  scaleInvariant config e ->
  scaleInvariant config
    (with_img (fun i =>
       {| originalImageSrc := originalImageSrc i;
          imageWidth := imageWidth i; imageHeight := imageHeight i;
          canvasWidth := canvasWidth i; canvasHeight := canvasHeight i;
          imageLoaded := true |}) e).
Proof.
  unfold scaleInvariant, scaleInRange, absoluteMinScale, effectiveMaxScale,
    getFitToScreenScale.
  simpl. tauto.
Qed.

(** The end of a load changes neither the image size nor the scale. *)
Lemma scaleInvariant_loadImage_resume (l : Z)
    (asyncOutcome syncOutcome : TextureOutcome) (now : Q) (e : Engine) :
  scaleInvariant config e ->
  scaleInvariant config
    (fst (loadImage_resume LOD_LEVELS l asyncOutcome syncOutcome now e)).
Proof.
  intros H. unfold loadImage_resume.
  destruct (createInitialTexture_resume LOD_LEVELS l asyncOutcome syncOutcome now e)
    as [e3|] eqn:Ec; cbn [fst]; [|exact H].
  apply sameScale_createInitialTexture_resume in Ec.
  eapply scaleInvariant_sameScale;
    [apply sameScale_notifyZoomChange, sameScale_updateLODIfNeeded, sameScale_refl|].
  apply scaleInvariant_loaded.
  eapply scaleInvariant_sameScale; [exact Ec | exact H].
Qed.

Lemma scaleInvariant_settleTexture req outcome fallback now e :
  scaleInvariant config e ->
  scaleInvariant config (settleTexture LOD_LEVELS req outcome fallback now e).
Proof.
  intros H. unfold settleTexture. destruct req as [l|l|l].
  - apply scaleInvariant_loadImage_resume, H.
  - eapply scaleInvariant_sameScale; [|exact H].
    pose proof (sameScale_createLODTextureAsync e l outcome now e (sameScale_refl e))
      as Hc.
    destruct (createLODTextureAsync LOD_LEVELS l outcome now e) as [e1 [t|]];
      cbn [fst] in Hc; auto with scaleinv.
  - eapply scaleInvariant_sameScale; [|exact H].
    apply sameScale_createLODTextureAsync, sameScale_refl.
Qed.

Lemma sameScale_updateMemoryInfo e0 now e :
  sameScale e0 e -> sameScale e0 (updateMemoryInfo now e).
Proof.
  intros H. unfold updateMemoryInfo, emergencyCleanup, cleanupOldTextures.
  cbv zeta.
  destruct (pressure (memoryInfo (checkMemoryPressure (updateMemoryUsage e))));
    auto with scaleinv.
Qed.

Lemma sameScale_runSwapCallback e0 e :
  sameScale e0 e -> sameScale e0 (runSwapCallback e).
Proof.
  intros H. unfold runSwapCallback, swapCallback.
  destruct (pendingSwaps (rt e)) as [|l rest]; [exact H|].
  destruct (isBackBufferReady _); auto with scaleinv.
Qed.

(** *** The invariant through the operations on the scale *)

Section Ordered.

Hypothesis Hcfg : configOrdered config.

Lemma bounds_ordered (e : Engine) :
  scaleInvariant config e ->
  absoluteMinScale config e <= effectiveMaxScale config e.
Proof.
  intros ((Hw & Hh & Hcw & Hch) & _).
  pose proof (getFitToScreenScale_nonneg e Hw Hh Hcw Hch) as HF.
  destruct Hcfg as (Hmin & Hmax & _).
  unfold absoluteMinScale, effectiveMaxScale.
  eapply Qle_trans; [|apply Q.le_max_l].
  apply Qmult_le_l_nonneg; [lra | exact HF].
Qed.

Lemma initialScale_in_range (e e0 : Engine) :
  scaleInvariant config e0 -> img e = img e0 ->
  scaleInRange config e0 (getFitToScreenScale e * initialScale config).
Proof.
  intros ((Hw & Hh & Hcw & Hch) & _) Hi.
  rewrite (getFitToScreenScale_img e0 e Hi).
  pose proof (getFitToScreenScale_nonneg e0 Hw Hh Hcw Hch) as HF.
  destruct Hcfg as (Hmin & Hmax & _).
  unfold scaleInRange, absoluteMinScale, effectiveMaxScale. split.
  - apply Qmult_le_l_nonneg; [exact Hmin | exact HF].
  - eapply Qle_trans; [|apply Q.le_max_l].
    apply Qmult_le_l_nonneg; [exact Hmax | exact HF].
Qed.

Lemma duration_nonneg (t : option Q) :
  (t = None \/ t = doubleClick_animationTime config) ->
  0 <= or_default t (if smooth config then 300 else 0).
Proof.
  assert (Hd : 0 <= (if smooth config then 300 else 0)).
  { destruct (smooth config); compute; discriminate. }
  intros [->| ->]; [exact Hd|].
  destruct Hcfg as (_ & _ & Ht).
  unfold or_default, truthy.
  destruct (doubleClick_animationTime config) as [q|]; [|exact Hd].
  destruct (negb (Qeq_bool q 0)); [exact Ht | exact Hd].
Qed.

Lemma scaleInvariant_cancel (e : Engine) :
  scaleInvariant config e ->
  scaleInvariant config (with_anim (set_isAnimating false) e).
Proof.
  intros H. apply (scaleInvariant_update e _ H); simpl.
  - reflexivity.
  - apply H.
  - discriminate.
Qed.

Lemma scaleInvariant_startAnimation (ts tx ty : Q) (t : option Q) (now : Q) (e : Engine) :
  scaleInvariant config e ->
  scaleInRange config e ts ->
  (t = None \/ t = doubleClick_animationTime config) ->
  scaleInvariant config (startAnimation config ts tx ty t now e).
Proof.
  intros H Hts Ht.
  pose proof (startAnimation_result config ts tx ty t now e)
    as (Ha & Hs & _ & _ & Htg & _ & Hi & _).
  cbv zeta in *. apply (scaleInvariant_update e _ H Hi).
  - rewrite Hs. apply H.
  - intros _. rewrite Ha, Htg. simpl.
    split; [apply H|]. split; [exact Hts|]. apply duration_nonneg, Ht.
Qed.

Lemma scaleInvariant_zoomAt (x y k : Q) (animated : bool) (now : Q) (e : Engine) :
  scaleInvariant config e ->
  scaleInvariant config (zoomAt LOD_LEVELS config x y k animated now e).
Proof.
  intros H.
  destruct (Qltb (scale (xf e) * k) (absoluteMinScale config e)) eqn:E1.
  { unfold zoomAt. rewrite E1. exact H. }
  destruct (Qltb (effectiveMaxScale config e) (scale (xf e) * k)) eqn:E2.
  { unfold zoomAt. rewrite E1, E2. exact H. }
  assert (Hin : scaleInRange config e (scale (xf e) * k)).
  { split; apply Qltb_false; assumption. }
  destruct (animated && smooth config) eqn:Ea.
  - unfold zoomAt. rewrite E1, E2, Ea. cbn [orb]. cbv zeta.
    apply scaleInvariant_startAnimation; [exact H | exact Hin | left; reflexivity].
  - assert (Hz : zoomAt LOD_LEVELS config x y k animated now e
                 = zoomAt LOD_LEVELS config x y k false now e).
    { unfold zoomAt. rewrite Ea. reflexivity. }
    rewrite Hz.
    pose proof (zoomAt_unanimated LOD_LEVELS config x y k now e Hin)
      as (Hx & Hi & Ha & _).
    pose proof (constrainImagePosition_frame config (zoomedBeforeConstraint x y k e))
      as (_ & _ & _ & _ & _ & _ & _ & Hs & Ht & _).
    cbv zeta in *. apply (scaleInvariant_update e _ H Hi).
    + rewrite Hx, Hs. exact Hin.
    + rewrite Ha, Hx, Ht. apply H.
Qed.

Lemma scaleInvariant_performDoubleClickAction (x y now : Q) (e : Engine) :
  scaleInvariant config e ->
  scaleInvariant config (performDoubleClickAction LOD_LEVELS config x y now e).
Proof.
  intros H. apply scaleInvariant_cancel in H.
  unfold performDoubleClickAction. cbv zeta.
  set (e0 := with_anim (set_isAnimating false) e) in *.
  destruct (doubleClick_mode config).
  - eapply scaleInvariant_sameScale; [apply sameScale_with_ia, sameScale_refl|].
    apply scaleInvariant_startAnimation; [exact H | | right; reflexivity].
    pose proof (bounds_ordered e0 H) as Hb.
    destruct (isOriginalSize (ia e0)); apply clamp_between, Hb.
  - apply scaleInvariant_zoomAt, H.
Qed.

Lemma scaleInvariant_updateAnimation (currentTime : Q) (e e' : Engine) :
  scaleInvariant config e ->
  isAnimating (anim e) = true ->
  animationStartTime (anim e) <= currentTime ->
  updateAnimation LOD_LEVELS config currentTime e = Some e' ->
  scaleInvariant config e'.
Proof.
  intros H Hanim Htime. unfold updateAnimation.
  destruct (animationProgress _ _) as [p|] eqn:Ep; [|discriminate].
  destruct (proj2 (proj2 H) Hanim) as (Hstart & Htarget & Hdur).
  apply animationProgress_between in Ep; [|lra|exact Hdur].
  assert (He : 0 <= (if smooth config then easeOutQuart p else p) <= 1).
  { destruct (smooth config); [apply easeOutQuart_between|]; exact Ep. }
  intros [= <-]. cbv zeta.
  eapply scaleInvariant_sameScale; [apply sameScale_notifyZoomChange, sameScale_refl|].
  destruct (Qle_bool 1 p).
  - eapply scaleInvariant_sameScale;
      [apply sameScale_updateLODIfNeeded, sameScale_refl|].
    apply (scaleInvariant_update e _ H); simpl.
    + reflexivity.
    + exact Htarget.
    + discriminate.
  - apply (scaleInvariant_update e _ H); simpl.
    + reflexivity.
    + apply lerp_between; assumption.
    + intros _. tauto.
Qed.

Lemma scaleInvariant_constrainScaleAndPosition (e : Engine) :
  0 < imageWidth (img e) -> 0 < imageHeight (img e) ->
  0 <= canvasWidth (img e) -> 0 <= canvasHeight (img e) ->
  isAnimating (anim e) = false ->
  scaleInvariant config (constrainScaleAndPosition config e).
Proof.
  intros Hw Hh Hcw Hch Hanim.
  pose proof (getFitToScreenScale_nonneg e Hw Hh Hcw Hch) as HF.
  assert (Hb : absoluteMinScale config e <= effectiveMaxScale config e).
  { destruct Hcfg as (Hmin & Hmax & _).
    unfold absoluteMinScale, effectiveMaxScale.
    eapply Qle_trans; [|apply Q.le_max_l].
    apply Qmult_le_l_nonneg; [lra | exact HF]. }
  unfold constrainScaleAndPosition. cbv zeta.
  match goal with
  | |- scaleInvariant config (constrainImagePosition config ?a) =>
      assert (Ha : scaleInvariant config a);
      [| eapply scaleInvariant_sameScale;
         [apply sameScale_constrainImagePosition, sameScale_refl | exact Ha] ]
  end.
  unfold scaleInvariant, scaleInRange.
  case_Qltb (scale (xf e)) (absoluteMinScale config e);
    [|case_Qltb (effectiveMaxScale config e) (scale (xf e))];
    simpl; rewrite Hanim;
    (split; [tauto|]); (split; [|discriminate]); split;
    try assumption; try apply Qle_refl.
Qed.

Lemma scaleInvariant_resizeCanvas (rect : DOMRect) (e : Engine) :
  scaleInvariant config e ->
  imageLoaded (img e) = true ->
  isAnimating (anim e) = false ->
  0 <= rect_width rect -> 0 <= rect_height rect ->
  scaleInvariant config (resizeCanvas LOD_LEVELS config rect e).
Proof.
  intros ((Hw & Hh & _ & _) & _) Hl Hanim Hrw Hrh.
  unfold resizeCanvas. cbv zeta.
  set (e1 := with_img _ e).
  assert (Hl1 : imageLoaded (img e1) = true) by exact Hl.
  rewrite Hl1.
  eapply scaleInvariant_sameScale;
    [apply sameScale_notifyZoomChange, sameScale_updateLODIfNeeded, sameScale_refl|].
  apply (scaleInvariant_constrainScaleAndPosition e1); try assumption.
Qed.

Lemma scaleInvariant_with_ia (f : InteractionState -> InteractionState) (e : Engine) :
  scaleInvariant config e -> scaleInvariant config (with_ia f e).
Proof. apply scaleInvariant_sameScale, sameScale_with_ia, sameScale_refl. Qed.

Lemma scaleInvariant_drag (x y : Q) (e : Engine) :
  scaleInvariant config e ->
  scaleInvariant config
    (constrainImagePosition config
       (with_ia (set_lastMouse x y)
          (with_xf (fun t => set_translate (translateX t + (x - lastMouseX (ia e)))
                               (translateY t + (y - lastMouseY (ia e))) t) e))).
Proof.
  apply scaleInvariant_sameScale, sameScale_constrainImagePosition.
  unfold sameScale. simpl. tauto.
Qed.

Lemma scaleInvariant_render (currentTime : Q) (e e' : Engine) :
  scaleInvariant config e ->
  animationStartTime (anim e) <= currentTime ->
  render LOD_LEVELS config currentTime e = Some e' ->
  scaleInvariant config e'.
Proof.
  intros H Htime. unfold render.
  destruct (isAnimating (anim e)) eqn:Hanim.
  - destruct (updateAnimation LOD_LEVELS config currentTime e) as [e1|] eqn:E;
      [|discriminate].
    intros [= <-].
    eapply scaleInvariant_sameScale; [apply sameScale_renderFrame, sameScale_refl|].
    eapply scaleInvariant_updateAnimation; eauto.
  - intros [= <-].
    eapply scaleInvariant_sameScale; [apply sameScale_renderFrame, sameScale_refl|].
    exact H.
Qed.

(** The answer of the decoder installs [F * initialScale], which is within
    the bounds of the new image. *)
Lemma scaleInvariant_loadImage_decoded (W H : Q) (e : Engine) :
  0 < W -> 0 < H ->
  0 <= canvasWidth (img e) -> 0 <= canvasHeight (img e) ->
  isAnimating (anim e) = false ->
  scaleInvariant config (loadImage_decoded config W H e).
Proof.
  intros HW HH Hcw Hch Hanim.
  destruct Hcfg as (Hmin & Hmax & _).
  set (F := Qmin (canvasWidth (img e) / W) (canvasHeight (img e) / H)).
  assert (HF : 0 <= F).
  { subst F. apply Qmin_cases; intros _; apply Qle_shift_div_l; try assumption; lra. }
  assert (Hin : F * minScale config <= F * initialScale config
                /\ F * initialScale config <= Qmax (F * maxScale config) 1).
  { split.
    - apply Qmult_le_l_nonneg; assumption.
    - eapply Qle_trans; [|apply Q.le_max_l]. apply Qmult_le_l_nonneg; assumption. }
  unfold loadImage_decoded, fitImageToScreen. cbv zeta.
  destruct (centerOnInit config);
    unfold scaleInvariant, scaleInRange, absoluteMinScale, effectiveMaxScale,
      getFitToScreenScale; simpl; rewrite Hanim; fold F;
    (split; [tauto|]); (split; [exact Hin|discriminate]).
Qed.

(** Every event of a session keeps the invariant. *)
Lemma step_scaleInvariant (ev : Event) (e e' : Engine) :
  scaleInvariant config e ->
  sessionEvent ev e ->
  step LOD_LEVELS config ev e = Some e' ->
  scaleInvariant config e'.
Proof.
  intros H Hok Hstep. destruct ev; simpl in Hstep, Hok;
    try (injection Hstep as <-).
  - (* MouseDown *)
    unfold handleMouseDown. destruct (_ || _); [exact H|].
    apply scaleInvariant_with_ia, scaleInvariant_cancel, H.
  - (* MouseMove *)
    unfold handleMouseMove. destruct (_ || _); [exact H|].
    apply scaleInvariant_drag, H.
  - (* MouseUp *)
    apply scaleInvariant_with_ia, H.
  - (* Wheel *)
    unfold handleWheel. destruct (_ || _); [exact H|].
    apply scaleInvariant_zoomAt, H.
  - (* DoubleClick *)
    unfold handleDoubleClick. destruct (doubleClick_disabled config); [exact H|].
    destruct (Qltb _ _); [exact H|].
    apply scaleInvariant_performDoubleClickAction, scaleInvariant_with_ia, H.
  - (* TouchStart *)
    unfold handleTouchStart. destruct (isAnimating (anim e)); [exact H|].
    destruct (touches ev) as [|touch1 [|touch2 [|touch3 rest]]]; try exact H.
    + destruct (panning_disabled config); [exact H|].
      destruct (_ && _); [|apply scaleInvariant_with_ia, H].
      apply scaleInvariant_with_ia. unfold handleTouchDoubleTap.
      destruct (doubleClick_disabled config); [exact H|].
      apply scaleInvariant_performDoubleClickAction, H.
    + destruct (pinch_disabled config); [exact H|].
      apply scaleInvariant_with_ia, H.
  - (* TouchMove *)
    unfold handleTouchMove.
    destruct (touches ev) as [|touch1 [|touch2 [|touch3 rest]]]; try exact H.
    + destruct (_ && _); [|exact H]. apply scaleInvariant_drag, H.
    + destruct (pinch_disabled config); [exact H|].
      apply scaleInvariant_with_ia.
      destruct (Qltb 0 (lastTouchDistance (ia e))); [|exact H].
      apply scaleInvariant_zoomAt, H.
  - (* TouchEnd *)
    apply scaleInvariant_with_ia, H.
  - (* ZoomIn *)
    apply scaleInvariant_zoomAt, H.
  - (* ZoomOut *)
    apply scaleInvariant_zoomAt, H.
  - (* ResetView *)
    unfold resetView. cbv zeta.
    apply scaleInvariant_startAnimation; [exact H | | left; reflexivity].
    apply (initialScale_in_range e e H). reflexivity.
  - (* Resize *)
    destruct Hok as (Hl & Hanim & Hrw & Hrh).
    apply scaleInvariant_resizeCanvas; assumption.
  - (* AnimationFrame *)
    eapply scaleInvariant_render; eauto.
  - (* SwapFrame *)
    eapply scaleInvariant_sameScale; [apply sameScale_runSwapCallback, sameScale_refl|].
    exact H.
  - (* TextureSettled *)
    destruct (pendingTextures (rt e) !! i) as [req|]; [|discriminate].
    injection Hstep as <-.
    apply scaleInvariant_settleTexture.
    eapply scaleInvariant_sameScale; [apply sameScale_with_rt, sameScale_refl|].
    exact H.
  - (* MemoryTick *)
    eapply scaleInvariant_sameScale; [apply sameScale_updateMemoryInfo, sameScale_refl|].
    exact H.
  - (* LoadImage *)
    revert H.
    unfold scaleInvariant, scaleInRange, absoluteMinScale, effectiveMaxScale,
      getFitToScreenScale.
    simpl. tauto.
  - (* ImageDecoded *)
    destruct (pendingDecodes (rt e)) as [|n]; [discriminate|].
    destruct decoded as [[W H']|]; injection Hstep as <-;
      (eapply scaleInvariant_sameScale; [apply sameScale_with_rt, sameScale_refl|]).
    + destruct Hok as (Hanim & HW & HH). destruct H as ((_ & _ & Hcw & Hch) & _).
      apply scaleInvariant_loadImage_decoded; assumption.
    + exact H.
Qed.

Lemma reachable_scaleInvariant (e0 e : Engine) :
  scaleInvariant config e0 ->
  reachable LOD_LEVELS config sessionEvent e0 e ->
  scaleInvariant config e.
Proof.
  intros H0 Hr. induction Hr as [|e ev e' _ IH Hok Hstep]; [exact H0|].
  eapply step_scaleInvariant; eauto.
Qed.

(** *** The state a successful load ends in *)

Lemma loadImage_resolved (url : string) (W H : Q)
    (asyncOutcome syncOutcome : TextureOutcome) (now : Q) (e0 e1 : Engine) :
  loadImage LOD_LEVELS config url (Some (W, H)) asyncOutcome syncOutcome now e0
    = (e1, Resolved) ->
  img e1 = {| originalImageSrc := url; imageWidth := W; imageHeight := H;
              canvasWidth := canvasWidth (img e0);
              canvasHeight := canvasHeight (img e0); imageLoaded := true |}
  /\ scale (xf e1)
     = Qmin (canvasWidth (img e0) / W) (canvasHeight (img e0) / H)
       * initialScale config
  /\ anim e1 = anim e0.
Proof.
  unfold loadImage. cbv zeta.
  set (e2 := loadImage_decoded config W H (loadImage_call url e0)).
  set (l := selectOptimalLOD LOD_LEVELS e2).
  unfold loadImage_resume.
  destruct (createInitialTexture_resume LOD_LEVELS l asyncOutcome syncOutcome now e2)
    as [e3|] eqn:Ec; [|discriminate].
  apply sameScale_createInitialTexture_resume in Ec as (Hi & Hs & _ & Ha).
  intros [= <-].
  match goal with
  | |- context [updateLODIfNeeded LOD_LEVELS ?a] =>
      pose proof (updateLODIfNeeded_frame LOD_LEVELS a) as (Hui & Hux & _ & Hua & _)
  end.
  cbv zeta in *. simpl. rewrite Hui, Hux, Hua. simpl. rewrite Hi, Hs, Ha.
  subst e2. unfold loadImage_decoded, loadImage_call. cbv zeta.
  destruct (centerOnInit config); simpl; tauto.
Qed.

Lemma loadImage_scaleInvariant (url : string) (W H : Q)
    (asyncOutcome syncOutcome : TextureOutcome) (now : Q) (e0 e1 : Engine) :
  0 < W -> 0 < H ->
  0 <= canvasWidth (img e0) -> 0 <= canvasHeight (img e0) ->
  isAnimating (anim e0) = false ->
  loadImage LOD_LEVELS config url (Some (W, H)) asyncOutcome syncOutcome now e0
    = (e1, Resolved) ->
  scaleInvariant config e1.
Proof.
  intros HW HH Hcw Hch Hanim Hload.
  apply loadImage_resolved in Hload as (Hi & Hs & Ha).
  destruct Hcfg as (Hmin & Hmax & _).
  unfold scaleInvariant, scaleInRange, absoluteMinScale, effectiveMaxScale,
    getFitToScreenScale.
  rewrite Hi, Hs, Ha, Hanim. simpl.
  set (F := Qmin (canvasWidth (img e0) / W) (canvasHeight (img e0) / H)).
  assert (HF : 0 <= F).
  { subst F. apply Qmin_cases; intros _; apply Qle_shift_div_l; try assumption; lra. }
  split; [tauto|]. split; [|discriminate]. split.
  - apply Qmult_le_l_nonneg; assumption.
  - eapply Qle_trans; [|apply Q.le_max_l]. apply Qmult_le_l_nonneg; assumption.
Qed.

End Ordered.

(** C2 (as amended).  The upper bound [max (F * maxScale) 1] is never
    below 1.  [startAnimation] stores the target scale it is given: only
    the target translation is constrained before the ease starts, so a
    target scale is within the bounds when its caller passes one that is,
    as [zoomAt] and the double activation do.  [loadImage] and [resetView]
    use [F * initialScale] as it is.  When the configuration is ordered,
    [minScale <= initialScale <= maxScale], and the double-click animation
    time is not negative, the scale lies in
    [[F * minScale, max (F * maxScale) 1]], and so does the target scale
    of an animation in flight, from the moment the decoder delivers an
    image of positive size, into a canvas whose size is not negative and
    while no animation is in flight, in every state reached from there by
    input events, texture and memory events, further loads whose images
    arrive in the same way, frames stamped no earlier than the start of
    the running animation, and resizes while an image is loaded and no
    animation is in flight.  A resize before the image is loaded, between
    its decoding and the settling of its initial texture for one, records
    the new size and leaves the scale as it is. *)
Theorem scale_stays_within_bounds :
  (forall e, 1 <= effectiveMaxScale config e)
  /\ (forall e ts tx ty t now,
        targetScale (xf (startAnimation config ts tx ty t now e)) = ts)
  /\ (forall W H e,
        scale (xf (loadImage_decoded config W H e))
        = Qmin (canvasWidth (img e) / W) (canvasHeight (img e) / H)
          * initialScale config)
  /\ (forall now e,
        targetScale (xf (resetView config now e))
        = getFitToScreenScale e * initialScale config)
  /\ (configOrdered config ->
      forall W H e0 e1 e,
        0 < W -> 0 < H ->
        0 <= canvasWidth (img e0) -> 0 <= canvasHeight (img e0) ->
        isAnimating (anim e0) = false ->
        step LOD_LEVELS config (ImageDecoded (Some (W, H))) e0 = Some e1 ->
        reachable LOD_LEVELS config sessionEvent e1 e ->
        scaleInRange config e (scale (xf e))
        /\ (isAnimating (anim e) = true ->
            scaleInRange config e (targetScale (xf e))))
  /\ (forall rect e,
        imageLoaded (img e) = false ->
        let e' := resizeCanvas LOD_LEVELS config rect e in
        xf e' = xf e
        /\ canvasWidth (img e') = rect_width rect
        /\ canvasHeight (img e') = rect_height rect
        /\ imageLoaded (img e') = false).
Proof.
  split; [exact effectiveMaxScale_ge_1|]. split; [|split; [|split; [|split]]].
  - intros e ts tx ty t now.
    pose proof (startAnimation_result config ts tx ty t now e) as (_ & _ & _ & _ & H & _).
    exact H.
  - intros W H e. unfold loadImage_decoded, fitImageToScreen, getFitToScreenScale.
    destruct (centerOnInit config); reflexivity.
  - intros now e. unfold resetView. cbv zeta.
    match goal with
    | |- context [startAnimation config ?a ?b ?c ?d ?n ?x] =>
        pose proof (startAnimation_result config a b c d n x) as (_ & _ & _ & _ & H & _)
    end.
    exact H.
  - intros Hcfg W H e0 e1 e HW HH Hcw Hch Hanim Hdec Hreach.
    assert (Hinv : scaleInvariant config e).
    { apply (reachable_scaleInvariant Hcfg e1 e); [|exact Hreach].
      simpl in Hdec.
      destruct (pendingDecodes (rt e0)) as [|n]; [discriminate|].
      injection Hdec as <-.
      eapply scaleInvariant_sameScale; [apply sameScale_with_rt, sameScale_refl|].
      apply (scaleInvariant_loadImage_decoded Hcfg); assumption. }
    destruct Hinv as (_ & Hs & Ha). split; [exact Hs|].
    intros Hrun. apply Ha, Hrun.
  - intros rect e Hl e'. subst e'. unfold resizeCanvas. cbv zeta.
    cbn [with_img img imageLoaded]. rewrite Hl. simpl. rewrite Hl. tauto.
Qed.

End ScaleInvariant.

Lemma scale_stays_within_bounds_witness :
  scaleInRange Sample.config Sample.animating (scale (xf Sample.animating))
  /\ scaleInRange Sample.config Sample.animating (targetScale (xf Sample.animating)).
Proof.
  assert (Hcfg : configOrdered Sample.config).
  { split; [|split]; vm_compute; discriminate. }
  assert (Hreach : reachable Sample.LOD_LEVELS Sample.config sessionEvent
                     Fixture.decoded Sample.animating).
  { eapply (reachable_step _ _ _ _ Sample.loaded
              (DoubleClick Sample.centre Sample.rect 1000 1000)).
    - eapply (reachable_step _ _ _ _ Fixture.decoded
                (TextureSettled 0 (Some (1000, 750)) None 0)).
      + apply reachable_start.
      + exact I.
      + vm_compute. reflexivity.
    - exact I.
    - vm_compute. reflexivity. }
  destruct (proj1 (proj2 (proj2 (proj2 (proj2
              (scale_stays_within_bounds Sample.LOD_LEVELS Sample.config)))))
              Hcfg 8000 6000 Fixture.called Fixture.decoded Sample.animating)
    as [Hs Ht];
    try (vm_compute; reflexivity); try (vm_compute; discriminate).
  - exact Hreach.
  - split; [exact Hs|]. apply Ht. vm_compute. reflexivity.
Defined.

(** C2 as stated fails: with [initialScale] below [minScale] the scale the
    load installs is below [F * minScale], and so is the target of the
    animation that [resetView] starts. *)
Lemma initial_scale_below_minimum :
  imageLoaded (img Sample.loadedSmall) = true
  /\ scale (xf Sample.loadedSmall) < absoluteMinScale Sample.configSmallInitial Sample.loadedSmall
  /\ ~ scaleInRange Sample.configSmallInitial Sample.loadedSmall
         (scale (xf Sample.loadedSmall))
  /\ scaleInRange Sample.configSmallInitial Sample.zoomedSmall
       (scale (xf Sample.zoomedSmall))
  /\ isAnimating (anim Sample.resetSmall) = true
  /\ ~ scaleInRange Sample.configSmallInitial Sample.resetSmall
         (targetScale (xf Sample.resetSmall)).
Proof.
  split; [vm_compute; reflexivity|].
  split; [vm_compute; reflexivity|].
  split; [intros [H _]; revert H; vm_compute; tauto|].
  split; [split; vm_compute; discriminate|].
  split; [vm_compute; reflexivity|].
  intros [H _]; revert H; vm_compute; tauto.
Qed.

(** A resize between the decoding and the settling of the initial texture
    is not clamped: the load resolves with the scale fitted to the canvas
    as it was, below the lower bound for the canvas as it is. *)
Lemma resize_before_loaded_escapes_bounds :
  imageLoaded (img Fixture.resizedWhileLoading) = true
  /\ scale (xf Fixture.resizedWhileLoading) == 1 # 100
  /\ absoluteMinScale Sample.config Fixture.resizedWhileLoading == 1 # 10
  /\ ~ scaleInRange Sample.config Fixture.resizedWhileLoading
         (scale (xf Fixture.resizedWhileLoading)).
Proof.
  split; [vm_compute; reflexivity|].
  split; [vm_compute; reflexivity|].
  split; [vm_compute; reflexivity|].
  intros [H _]; revert H; vm_compute; tauto.
Qed.

(** * Further properties

    Properties of the methods beyond the ten claims, each read off the
    source. *)

(** ** Position constraint *)

Section PositionConstraint.

Variable config : Config.

Lemma clamp_idem (M t : Q) :
  0 <= M -> Qmax (- M) (Qmin M (Qmax (- M) (Qmin M t))) == Qmax (- M) (Qmin M t).
Proof.
  intros HM.
  destruct (Q.min_spec M t) as [[? ->]|[? ->]];
    destruct (Q.max_spec (- M) M) as [[? Hm]|[? Hm]];
    destruct (Q.max_spec (- M) t) as [[? Ht]|[? Ht]];
    rewrite ?Hm, ?Ht;
    repeat match goal with
           | |- context [Qmin ?a ?b] =>
               destruct (Q.min_spec a b) as [[? ->]|[? ->]]
           | |- context [Qmax ?a ?b] =>
               destruct (Q.max_spec a b) as [[? ->]|[? ->]]
           end; lra.
Qed.

Lemma clamp_inside (M t : Q) : - M <= t <= M -> Qmax (- M) (Qmin M t) == t.
Proof.
  intros [H1 H2].
  destruct (Q.min_spec M t) as [[? ->]|[? ->]];
    match goal with
    | |- context [Qmax ?a ?b] => destruct (Q.max_spec a b) as [[? ->]|[? ->]]
    end; lra.
Qed.

(** The largest translation [constrainImagePosition] admits along an axis
    on which the image measures [imageSize] pixels and the canvas
    [canvasSize]. *)
Lemma constrainImagePosition_cases (e : Engine) :
  limitToBounds config = true ->
  let e' := constrainImagePosition config e in
  (scale (xf e) <= getFitToScreenScale e ->
   translateX (xf e') = 0 /\ translateY (xf e') = 0)
  /\ (getFitToScreenScale e < scale (xf e) ->
      translateX (xf e')
      = Qmax (- Qmax 0 ((imageWidth (img e) * scale (xf e) - canvasWidth (img e)) / 2))
          (Qmin (Qmax 0 ((imageWidth (img e) * scale (xf e) - canvasWidth (img e)) / 2))
             (translateX (xf e)))
      /\ translateY (xf e')
         = Qmax (- Qmax 0 ((imageHeight (img e) * scale (xf e) - canvasHeight (img e)) / 2))
             (Qmin (Qmax 0 ((imageHeight (img e) * scale (xf e) - canvasHeight (img e)) / 2))
                (translateY (xf e)))).
Proof.
  intros Hlim. unfold constrainImagePosition. rewrite Hlim. cbn [negb]. cbv zeta.
  destruct (Qle_bool (scale (xf e)) (getFitToScreenScale e)) eqn:Hle.
  - split; [intros _; simpl; tauto|].
    intros Hlt. apply Qle_bool_iff in Hle. lra.
  - split; [|intros _; simpl; tauto].
    intros Hle'. apply Qle_bool_iff in Hle'. congruence.
Qed.

End PositionConstraint.

Section PositionClaims.

Variable config : Config.

(** X1.  With [limitToBounds], [constrainImagePosition] centres an image
    shown at or below its fit scale; above it, it clamps each translation
    into [[-m, m]], where [m] is half of what the scaled image exceeds the
    canvas by on that axis (0 when it does not), and leaves a translation
    that is within these bounds as it is.  It never changes the scale, and
    applying it twice is applying it once. *)
Theorem constrainImagePosition_bounds (e : Engine) :
  limitToBounds config = true ->
  let e' := constrainImagePosition config e in
  let maxTranslateX :=
    Qmax 0 ((imageWidth (img e) * scale (xf e) - canvasWidth (img e)) / 2) in
  let maxTranslateY :=
    Qmax 0 ((imageHeight (img e) * scale (xf e) - canvasHeight (img e)) / 2) in
  (scale (xf e) <= getFitToScreenScale e ->
   translateX (xf e') = 0 /\ translateY (xf e') = 0)
  /\ (getFitToScreenScale e < scale (xf e) ->
      (- maxTranslateX <= translateX (xf e') <= maxTranslateX
       /\ - maxTranslateY <= translateY (xf e') <= maxTranslateY)
      /\ (- maxTranslateX <= translateX (xf e) <= maxTranslateX ->
          translateX (xf e') == translateX (xf e))
      /\ (- maxTranslateY <= translateY (xf e) <= maxTranslateY ->
          translateY (xf e') == translateY (xf e)))
  /\ scale (xf e') = scale (xf e)
  /\ translateX (xf (constrainImagePosition config e')) == translateX (xf e')
  /\ translateY (xf (constrainImagePosition config e')) == translateY (xf e').
Proof.
  intros Hlim e' mx my.
  pose proof (constrainImagePosition_cases config e Hlim) as [Hfit Hbig].
  pose proof (constrainImagePosition_frame config e) as Hframe.
  cbv zeta in Hframe.
  destruct Hframe as (_ & Himg & _ & _ & _ & _ & _ & Hscale & _).
  fold e' in Hfit, Hbig, Himg, Hscale.
  assert (Hmx : 0 <= mx) by apply Q.le_max_l.
  assert (Hmy : 0 <= my) by apply Q.le_max_l.
  split; [exact Hfit|]. split; [|split; [exact Hscale|]].
  - intros Hlt. destruct (Hbig Hlt) as [-> ->]. fold mx my.
    split; [split|split].
    + apply clamp_between. lra.
    + apply clamp_between. lra.
    + apply clamp_inside.
    + apply clamp_inside.
  - pose proof (constrainImagePosition_cases config e' Hlim) as [Hfit' Hbig'].
    cbv zeta in Hfit', Hbig'.
    rewrite (getFitToScreenScale_img e e' Himg), ?Himg, ?Hscale in Hfit'.
    rewrite (getFitToScreenScale_img e e' Himg), ?Himg, ?Hscale in Hbig'.
    destruct (Qlt_le_dec (getFitToScreenScale e) (scale (xf e))) as [Hlt|Hle].
    + destruct (Hbig' Hlt) as [-> ->]. destruct (Hbig Hlt) as [-> ->].
      fold mx my. split; apply clamp_idem; assumption.
    + destruct (Hfit' Hle) as [-> ->]. destruct (Hfit Hle) as [-> ->].
      split; reflexivity.
Qed.

End PositionClaims.

Lemma constrainImagePosition_bounds_witness :
  translateX (xf (constrainImagePosition Sample.config Fixture.pannedAtMax))
  <= Qmax 0 ((imageWidth (img Fixture.pannedAtMax) * scale (xf Fixture.pannedAtMax)
              - canvasWidth (img Fixture.pannedAtMax)) / 2)
  /\ translateY (xf (constrainImagePosition Sample.config Fixture.pannedAtMax))
     == translateY (xf Fixture.pannedAtMax).
Proof.
  pose proof (constrainImagePosition_bounds Sample.config Fixture.pannedAtMax) as H.
  destruct H as (_ & Hbig & _); [reflexivity|].
  destruct Hbig as ((Hx & _) & _ & Hy); [vm_compute; reflexivity|].
  split; [apply Hx|]. apply Hy. split; vm_compute; discriminate.
Defined.

(** ** Dragging *)

Section Dragging.

Variable LOD_LEVELS : list LODLevel.
Variable config : Config.

Lemma run_app (evs1 evs2 : list Event) (e : Engine) :
  run LOD_LEVELS config (evs1 ++ evs2) e
  = match run LOD_LEVELS config evs1 e with
    | Some e' => run LOD_LEVELS config evs2 e'
    | None => None
    end.
Proof.
  revert e. induction evs1 as [|ev evs1 IH]; intros e; [reflexivity|].
  simpl. destruct (step LOD_LEVELS config ev e); [apply IH|reflexivity].
Qed.

Lemma last_cons_default {A} (x : A) (l : list A) (d d' : A) :
  List.last (x :: l) d = List.last (x :: l) d'.
Proof.
  revert x. induction l as [|y l IH]; intros x; [reflexivity|].
  change (List.last (y :: l) d = List.last (y :: l) d'). apply IH.
Qed.

Lemma handleMouseMove_dragging (p : Point) (e : Engine) :
  limitToBounds config = false ->
  panning_disabled config = false ->
  isDragging (ia e) = true ->
  let e' := handleMouseMove config p e in
  translateX (xf e') = translateX (xf e) + (clientX p - lastMouseX (ia e))
  /\ translateY (xf e') = translateY (xf e) + (clientY p - lastMouseY (ia e))
  /\ scale (xf e') = scale (xf e)
  /\ isDragging (ia e') = true
  /\ lastMouseX (ia e') = clientX p /\ lastMouseY (ia e') = clientY p.
Proof.
  intros Hlim Hpan Hdrag. unfold handleMouseMove, constrainImagePosition.
  rewrite Hlim, Hpan, Hdrag. simpl. tauto.
Qed.

Lemma mouseMoves_dragging (ps : list Point) (e : Engine) :
  limitToBounds config = false ->
  panning_disabled config = false ->
  isDragging (ia e) = true ->
  exists e',
    run LOD_LEVELS config (map MouseMove ps) e = Some e'
    /\ translateX (xf e') - lastMouseX (ia e') == translateX (xf e) - lastMouseX (ia e)
    /\ translateY (xf e') - lastMouseY (ia e') == translateY (xf e) - lastMouseY (ia e)
    /\ scale (xf e') = scale (xf e)
    /\ isDragging (ia e') = true
    /\ lastMouseX (ia e')
       = clientX (List.last ps {| clientX := lastMouseX (ia e); clientY := lastMouseY (ia e) |})
    /\ lastMouseY (ia e')
       = clientY (List.last ps {| clientX := lastMouseX (ia e); clientY := lastMouseY (ia e) |}).
Proof.
  intros Hlim Hpan. revert e. induction ps as [|p ps IH]; intros e Hdrag.
  - exists e. simpl. repeat split; try reflexivity. exact Hdrag.
  - pose proof (handleMouseMove_dragging p e Hlim Hpan Hdrag) as H.
    cbv zeta in H. destruct H as (Hx & Hy & Hs & Hd & Hlx & Hly).
    destruct (IH _ Hd) as (e' & Hrun & Hx' & Hy' & Hs' & Hd' & Hlx' & Hly').
    exists e'. cbn [map run step]. rewrite Hrun.
    rewrite Hx, Hlx in Hx'. rewrite Hy, Hly in Hy'. rewrite Hs in Hs'.
    rewrite Hlx, Hly in Hlx', Hly'.
    split; [reflexivity|]. split; [rewrite Hx'; ring|]. split; [rewrite Hy'; ring|].
    split; [exact Hs'|]. split; [exact Hd'|].
    rewrite Hlx', Hly'. destruct ps as [|p' ps]; [split; reflexivity|].
    change (List.last (p :: p' :: ps) ?d) with (List.last (p' :: ps) d).
    rewrite (last_cons_default p' ps _
               {| clientX := lastMouseX (ia e); clientY := lastMouseY (ia e) |}).
    split; reflexivity.
Qed.

Lemma mouseMoves_released (ps : list Point) (e : Engine) :
  isDragging (ia e) = false ->
  run LOD_LEVELS config (map MouseMove ps) e = Some e.
Proof.
  intros Hdrag. induction ps as [|p ps IH]; [reflexivity|].
  cbn [map run step]. unfold handleMouseMove. rewrite Hdrag. cbn [negb orb].
  exact IH.
Qed.

(** X2.  Without [limitToBounds], a drag moves the image by exactly what
    the pointer moved between the press and the last move, whatever the
    path in between, and leaves the scale alone; once the button is
    released, moves change nothing. *)
Theorem drag_follows_pointer (p0 : Point) (ps : list Point) (e : Engine) :
  limitToBounds config = false ->
  panning_disabled config = false ->
  isAnimating (anim e) = false ->
  (exists e',
     run LOD_LEVELS config (MouseDown p0 :: map MouseMove ps) e = Some e'
     /\ translateX (xf e') == translateX (xf e) + (clientX (List.last ps p0) - clientX p0)
     /\ translateY (xf e') == translateY (xf e) + (clientY (List.last ps p0) - clientY p0)
     /\ scale (xf e') = scale (xf e))
  /\ (forall qs e1,
        run LOD_LEVELS config (MouseDown p0 :: map MouseMove ps ++ [MouseUp]) e
          = Some e1 ->
        run LOD_LEVELS config (map MouseMove qs) e1 = Some e1).
Proof.
  intros Hlim Hpan Hanim.
  set (e1 := handleMouseDown config p0 e).
  assert (Hdown : step LOD_LEVELS config (MouseDown p0) e = Some e1) by reflexivity.
  assert (H1 : xf e1 = xf e /\ isDragging (ia e1) = true
               /\ lastMouseX (ia e1) = clientX p0 /\ lastMouseY (ia e1) = clientY p0).
  { subst e1. unfold handleMouseDown. rewrite Hanim, Hpan. simpl. tauto. }
  destruct H1 as (Hxf & Hdrag & Hlx & Hly).
  destruct (mouseMoves_dragging ps e1 Hlim Hpan Hdrag)
    as (e' & Hrun & Hx & Hy & Hs & Hd & Hlx' & Hly').
  rewrite Hlx, Hly in Hlx', Hly'. rewrite Hxf in Hx, Hy, Hs. rewrite Hlx in Hx.
  rewrite Hly in Hy.
  assert (Hp0 : {| clientX := clientX p0; clientY := clientY p0 |} = p0)
    by (destruct p0; reflexivity).
  rewrite Hp0 in Hlx', Hly'. rewrite Hlx' in Hx. rewrite Hly' in Hy.
  split.
  - exists e'. cbn [run]. rewrite Hdown.
    split; [exact Hrun|]. split; [|split; [|exact Hs]].
    + lra.
    + lra.
  - intros qs e2. cbn [run]. rewrite Hdown, run_app, Hrun. cbn [run step].
    intros [= <-]. apply mouseMoves_released. reflexivity.
Qed.

End Dragging.

Lemma drag_follows_pointer_witness :
  exists e',
    run Sample.LOD_LEVELS Fixture.configFree
      (MouseDown Sample.centre
       :: map MouseMove [ {| clientX := 10; clientY := 700 |};
                          {| clientX := 430; clientY := 280 |} ]) Fixture.loadedFree
    = Some e'
    /\ translateX (xf e') == translateX (xf Fixture.loadedFree) + (430 - 400).
Proof.
  destruct (proj1 (drag_follows_pointer Sample.LOD_LEVELS Fixture.configFree Sample.centre
                     [ {| clientX := 10; clientY := 700 |};
                       {| clientX := 430; clientY := 280 |} ] Fixture.loadedFree
                     eq_refl eq_refl ltac:(vm_compute; reflexivity)))
    as (e' & Hrun & Hx & _).
  exists e'. split; [exact Hrun|exact Hx].
Defined.

(** ** Double activation *)

Section DoubleActivation.

Variable LOD_LEVELS : list LODLevel.
Variable config : Config.

Lemma zoomAt_ia_anim (x y k : Q) (animated : bool) (now : Q) (e : Engine) :
  ia (zoomAt LOD_LEVELS config x y k animated now e) = ia e
  /\ img (zoomAt LOD_LEVELS config x y k animated now e) = img e.
Proof.
  unfold zoomAt. cbv zeta.
  destruct (_ || _); [tauto|].
  destruct (animated && smooth config).
  - match goal with
    | |- context [startAnimation config ?a ?b ?c ?d ?n ?s] =>
        pose proof (startAnimation_result config a b c d n s) as H
    end.
    cbv zeta in H. tauto.
  - match goal with
    | |- context [updateLODIfNeeded LOD_LEVELS ?a] =>
        pose proof (updateLODIfNeeded_frame LOD_LEVELS a) as (Hi & _ & Hia & _)
    end.
    cbv zeta in Hi, Hia. rewrite Hi, Hia.
    match goal with
    | |- context [constrainImagePosition config ?a] =>
        pose proof (constrainImagePosition_frame config a) as (_ & Hi' & Hia' & _)
    end.
    cbv zeta in Hi', Hia'. cbn [notifyZoomChange with_rt ia img].
    rewrite Hi', Hia'. simpl. tauto.
Qed.

Lemma performDoubleClickAction_ia (x y now : Q) (e : Engine) :
  ia (performDoubleClickAction LOD_LEVELS config x y now e)
  = match doubleClick_mode config with
    | toggle => set_isOriginalSize (negb (isOriginalSize (ia e))) (ia e)
    | zoom => ia e
    end.
Proof.
  unfold performDoubleClickAction. cbv zeta. destruct (doubleClick_mode config).
  - match goal with
    | |- context [startAnimation config ?a ?b ?c ?d ?n ?s] =>
        pose proof (startAnimation_result config a b c d n s) as H
    end.
    cbv zeta in H. destruct H as (_ & _ & _ & _ & _ & _ & _ & Hia & _).
    cbn [with_ia ia]. rewrite Hia. reflexivity.
  - exact (proj1 (zoomAt_ia_anim x y (doubleClick_step config) false now
                    (with_anim (set_isAnimating false) e))).
Qed.

(** X3.  An accepted double click is recorded with its time, and a double
    click less than 300 ms after it is ignored altogether; one that comes
    300 ms after it or later is accepted in turn. *)
Theorem handleDoubleClick_debounce (p1 p2 : Point) (rect1 rect2 : DOMRect)
    (t1 t2 now1 now2 : Q) (e : Engine) :
  doubleClick_disabled config = false ->
  300 <= t1 - lastDoubleClickTime (ia e) ->
  let e1 := handleDoubleClick LOD_LEVELS config p1 rect1 t1 now1 e in
  let e2 := handleDoubleClick LOD_LEVELS config p2 rect2 t2 now2 e1 in
  lastDoubleClickTime (ia e1) = t1
  /\ (t2 - t1 < 300 -> e2 = e1)
  /\ (300 <= t2 - t1 ->
      e2 = performDoubleClickAction LOD_LEVELS config
             (clientX p2 - rect_left rect2) (clientY p2 - rect_top rect2) now2
             (with_ia (set_lastDoubleClickTime t2) e1)).
Proof.
  intros Hen Hfirst e1 e2.
  assert (H1 : lastDoubleClickTime (ia e1) = t1).
  { subst e1. unfold handleDoubleClick. rewrite Hen.
    apply Qltb_false in Hfirst. rewrite Hfirst. cbv zeta.
    rewrite performDoubleClickAction_ia. destruct (doubleClick_mode config); reflexivity. }
  split; [exact H1|].
  subst e2. unfold handleDoubleClick. rewrite Hen, H1. split.
  - intros Hlt. apply Qltb_true in Hlt. rewrite Hlt. reflexivity.
  - intros Hge. apply Qltb_false in Hge. rewrite Hge. reflexivity.
Qed.

Lemma toggle_target_original (lo hi : Q) : 1 <= hi -> Qmax lo (Qmin hi 1) == Qmax lo 1.
Proof.
  intros H. destruct (Q.min_spec hi 1) as [[? Hm]|[? Hm]]; rewrite Hm.
  - lra.
  - reflexivity.
Qed.

Lemma toggle_target_fit (F lo hi : Q) :
  0 <= F -> lo <= 1 -> 1 <= hi ->
  Qmax (F * lo) (Qmin (Qmax (F * hi) 1) F) == F.
Proof.
  intros HF Hlo Hhi.
  assert (H1 : F * lo <= F) by nra.
  assert (H2 : F <= F * hi) by nra.
  destruct (Q.max_spec (F * hi) 1) as [[? Hm]|[? Hm]]; rewrite Hm;
    match goal with
    | |- context [Qmin ?a ?b] => destruct (Q.min_spec a b) as [[? Hn]|[? Hn]]; rewrite Hn
    end;
    match goal with
    | |- context [Qmax ?a ?b] => destruct (Q.max_spec a b) as [[? Hk]|[? Hk]]; rewrite Hk
    end; lra.
Qed.

(** X4.  In toggle mode, with an image present, a double activation
    alternates between two targets.  From the fitted view it animates to
    the original size, scale 1, whatever [maxScale] is (to [F * minScale]
    when that is above 1), and marks the view as original size; from the
    original size it animates back to the fit scale [F], when
    [minScale <= 1 <= maxScale].  Two in a row restore the mark. *)
Theorem doubleClick_toggle_alternates (x y now : Q) (e : Engine) :
  doubleClick_mode config = toggle ->
  imagePresent e ->
  let e1 := performDoubleClickAction LOD_LEVELS config x y now e in
  (isOriginalSize (ia e) = false ->
   targetScale (xf e1) == Qmax (absoluteMinScale config e) 1
   /\ isOriginalSize (ia e1) = true)
  /\ (isOriginalSize (ia e) = true ->
      0 <= getFitToScreenScale e -> minScale config <= 1 -> 1 <= maxScale config ->
      targetScale (xf e1) == getFitToScreenScale e
      /\ isOriginalSize (ia e1) = false)
  /\ (forall x' y' now',
        isOriginalSize
          (ia (performDoubleClickAction LOD_LEVELS config x' y' now' e1))
        = isOriginalSize (ia e)).
Proof.
  intros Hmode _ e1.
  assert (Hia : forall x y now e,
            isOriginalSize (ia (performDoubleClickAction LOD_LEVELS config x y now e))
            = negb (isOriginalSize (ia e))).
  { intros. rewrite performDoubleClickAction_ia, Hmode. reflexivity. }
  assert (Ht : targetScale (xf e1)
               = if isOriginalSize (ia e)
                 then Qmax (absoluteMinScale config e)
                        (Qmin (effectiveMaxScale config e) (getFitToScreenScale e))
                 else Qmax (absoluteMinScale config e)
                        (Qmin (effectiveMaxScale config e) 1)).
  { subst e1. unfold performDoubleClickAction. rewrite Hmode. cbv zeta.
    cbn [with_ia xf].
    match goal with
    | |- context [startAnimation config ?a ?b ?c ?d ?n ?s] =>
        pose proof (startAnimation_result config a b c d n s) as H
    end.
    cbv zeta in H. destruct H as (_ & _ & _ & _ & H & _). rewrite H. reflexivity. }
  split; [|split].
  - intros Horig. rewrite Ht, Horig. subst e1. rewrite Hia, Horig.
    split; [|reflexivity].
    apply toggle_target_original, effectiveMaxScale_ge_1.
  - intros Horig HF Hmin Hmax. rewrite Ht, Horig. subst e1. rewrite Hia, Horig.
    split; [|reflexivity].
    unfold absoluteMinScale, effectiveMaxScale. cbv zeta.
    apply toggle_target_fit; assumption.
  - intros x' y' now'. subst e1. rewrite !Hia. apply negb_involutive.
Qed.

End DoubleActivation.

Lemma handleDoubleClick_debounce_witness :
  handleDoubleClick Sample.LOD_LEVELS Sample.config Sample.centre Sample.rect 1200 1200
    Sample.animating
  = Sample.animating.
Proof.
  apply (proj1 (proj2 (handleDoubleClick_debounce Sample.LOD_LEVELS Sample.config
                         Sample.centre Sample.centre Sample.rect Sample.rect
                         1000 1200 1000 1200 Sample.loaded eq_refl
                         ltac:(vm_compute; discriminate)))).
  vm_compute. reflexivity.
Defined.

Lemma doubleClick_toggle_alternates_witness :
  targetScale
    (xf (performDoubleClickAction Sample.LOD_LEVELS Sample.config 400 300 1000
           Sample.loaded))
  == Qmax (absoluteMinScale Sample.config Sample.loaded) 1
  /\ isOriginalSize
       (ia (performDoubleClickAction Sample.LOD_LEVELS Sample.config 400 300 1000
              Sample.loaded)) = true.
Proof.
  apply (proj1 (doubleClick_toggle_alternates Sample.LOD_LEVELS Sample.config 400 300 1000
                  Sample.loaded eq_refl Sample_loaded_imagePresent)).
  vm_compute. reflexivity.
Defined.

(** ** Touch *)

Section Touch.

Variable LOD_LEVELS : list LODLevel.
Variable config : Config.

Lemma zoomAt_unanimated_scale (x y k now : Q) (e : Engine) :
  scaleInRange config e (scale (xf e) * k) ->
  scale (xf (zoomAt LOD_LEVELS config x y k false now e)) = scale (xf e) * k.
Proof.
  intros Hin.
  pose proof (zoomAt_unanimated LOD_LEVELS config x y k now e Hin) as H.
  cbv zeta in H. destruct H as (-> & _).
  pose proof (constrainImagePosition_frame config (zoomedBeforeConstraint x y k e)) as H.
  cbv zeta in H. destruct H as (_ & _ & _ & _ & _ & _ & _ & -> & _). reflexivity.
Qed.

(** X5.  Two taps of one finger less than 300 ms and less than 50 px
    apart are a double tap: the second runs the double activation at its
    position and resets the tap timer, so that a third tap starts afresh.
    With panning disabled a touch of one finger is ignored altogether, the
    double tap included. *)
Theorem touch_double_tap :
  (forall ev1 ev2 p1 p2 rect1 rect2 t1 t2 now1 now2 e,
     isAnimating (anim e) = false ->
     panning_disabled config = false ->
     doubleClick_disabled config = false ->
     touches ev1 = [p1] -> touches ev2 = [p2] ->
     300 <= t1 - lastTouchTime (ia e) ->
     t2 - t1 < 300 ->
     Qabs (clientX p2 - clientX p1) < 50 ->
     Qabs (clientY p2 - clientY p1) < 50 ->
     let e1 := handleTouchEnd
                 (handleTouchStart LOD_LEVELS config ev1 rect1 t1 now1 e) in
     let e2 := handleTouchStart LOD_LEVELS config ev2 rect2 t2 now2 e1 in
     xf e1 = xf e
     /\ e2 = with_ia (set_lastTouchTime 0)
               (performDoubleClickAction LOD_LEVELS config
                  (clientX p2 - rect_left rect2) (clientY p2 - rect_top rect2) now2 e1)
     /\ lastTouchTime (ia e2) = 0)
  /\ (forall ev p rect t now e,
        panning_disabled config = true ->
        touches ev = [p] ->
        handleTouchStart LOD_LEVELS config ev rect t now e = e).
Proof.
  split.
  - intros ev1 ev2 p1 p2 rect1 rect2 t1 t2 now1 now2 e Hanim Hpan Hdc Hev1 Hev2
      Hfirst Hquick Hx Hy e1 e2.
    assert (H1 : e1 = with_ia (fun i =>
                        set_lastTouchDistance 0
                          (set_isDragging false
                             (set_lastTouch (clientX p1) (clientY p1)
                                (set_lastTouchTime t1
                                   (set_lastMouse (clientX p1) (clientY p1)
                                      (set_isDragging true i)))))) e).
    { subst e1. unfold handleTouchStart. rewrite Hanim, Hev1, Hpan, Hdc.
      apply Qltb_false in Hfirst. rewrite Hfirst. cbn [negb andb].
      unfold handleTouchEnd. destruct e. reflexivity. }
    assert (H2 : e2 = with_ia (set_lastTouchTime 0)
                        (performDoubleClickAction LOD_LEVELS config
                           (clientX p2 - rect_left rect2) (clientY p2 - rect_top rect2)
                           now2 e1)).
    { subst e2. unfold handleTouchStart, handleTouchDoubleTap.
      replace (isAnimating (anim e1)) with false by (rewrite H1; symmetry; exact Hanim).
      rewrite Hev2, Hpan, Hdc.
      replace (lastTouchTime (ia e1)) with t1 by (rewrite H1; reflexivity).
      replace (lastTouchX (ia e1)) with (clientX p1) by (rewrite H1; reflexivity).
      replace (lastTouchY (ia e1)) with (clientY p1) by (rewrite H1; reflexivity).
      apply Qltb_true in Hquick, Hx, Hy. rewrite Hquick, Hx, Hy. reflexivity. }
    split; [rewrite H1; reflexivity|]. split; [exact H2|].
    rewrite H2. reflexivity.
  - intros ev p rect t now e Hpan Hev. unfold handleTouchStart.
    rewrite Hev, Hpan. destruct (isAnimating (anim e)); reflexivity.
Qed.

Lemma handleTouchMove_pinch (ev : TouchEvent) (a b : Point) (rect : DOMRect)
    (now : Q) (e : Engine) :
  touches ev = [a; b] ->
  pinch_disabled config = false ->
  0 < lastTouchDistance (ia e) ->
  scaleInRange config e (scale (xf e) * (touchDistance ev / lastTouchDistance (ia e))) ->
  let e' := handleTouchMove LOD_LEVELS config ev rect now e in
  scale (xf e') = scale (xf e) * (touchDistance ev / lastTouchDistance (ia e))
  /\ lastTouchDistance (ia e') = touchDistance ev
  /\ img e' = img e.
Proof.
  intros Hev Hpinch Hlast Hin. unfold handleTouchMove. rewrite Hev, Hpinch.
  apply Qltb_true in Hlast. rewrite Hlast. cbv zeta. cbn [with_ia xf ia img].
  rewrite zoomAt_unanimated_scale by exact Hin.
  split; [reflexivity|]. split; [reflexivity|].
  apply zoomAt_ia_anim.
Qed.

(** X6.  With an image present, a pinch scales the image by the ratio of
    the distance between the two fingers to their distance at the previous
    event, so the scale after any number of moves is the scale at the
    start times the ratio of the last distance to the first: here for two
    moves that stay within the bounds.  After the fingers were lifted the
    first move of two fingers only records their distance. *)
Theorem pinch_scales_by_distance_ratio :
  (forall ev0 ev1 ev2 a0 b0 a1 b1 a2 b2 rect t now e,
     imagePresent e ->
     isAnimating (anim e) = false ->
     pinch_disabled config = false ->
     touches ev0 = [a0; b0] -> touches ev1 = [a1; b1] -> touches ev2 = [a2; b2] ->
     0 < touchDistance ev0 -> 0 < touchDistance ev1 ->
     scaleInRange config e (scale (xf e) * (touchDistance ev1 / touchDistance ev0)) ->
     scaleInRange config e
       (scale (xf e) * (touchDistance ev1 / touchDistance ev0)
        * (touchDistance ev2 / touchDistance ev1)) ->
     let e0 := handleTouchStart LOD_LEVELS config ev0 rect t now e in
     let e2 := handleTouchMove LOD_LEVELS config ev2 rect now
                 (handleTouchMove LOD_LEVELS config ev1 rect now e0) in
     scale (xf e2) == scale (xf e) * (touchDistance ev2 / touchDistance ev0)
     /\ lastTouchDistance (ia e2) = touchDistance ev2)
  /\ (forall ev a b rect now e,
        touches ev = [a; b] ->
        pinch_disabled config = false ->
        let e' := handleTouchMove LOD_LEVELS config ev rect now (handleTouchEnd e) in
        xf e' = xf e /\ lastTouchDistance (ia e') = touchDistance ev).
Proof.
  split.
  - intros ev0 ev1 ev2 a0 b0 a1 b1 a2 b2 rect t now e _ Hanim Hpinch Hev0 Hev1 Hev2
      Hd0 Hd1 Hin1 Hin2 e0 e2.
    assert (H0 : e0 = with_ia (fun i => set_lastTouchDistance (touchDistance ev0)
                                          (set_isDragging false i)) e).
    { subst e0. unfold handleTouchStart. rewrite Hanim, Hev0, Hpinch. reflexivity. }
    pose proof (handleTouchMove_pinch ev1 a1 b1 rect now e0 Hev1 Hpinch) as H1.
    rewrite H0 in H1. cbn [with_ia ia xf set_lastTouchDistance lastTouchDistance] in H1.
    rewrite <- H0 in H1. cbv zeta in H1.
    assert (Hi0 : img e0 = img e) by (rewrite H0; reflexivity).
    destruct (H1 Hd0 (proj2 (scaleInRange_img config e e0 _ Hi0) Hin1))
      as (Hs1 & Hl1 & Hi1). clear H1.
    pose proof (handleTouchMove_pinch ev2 a2 b2 rect now
                  (handleTouchMove LOD_LEVELS config ev1 rect now e0) Hev2 Hpinch) as H2.
    cbv zeta in H2. rewrite Hl1, Hs1 in H2.
    destruct H2 as (Hs2 & Hl2 & _); [exact Hd1| |].
    + apply (scaleInRange_img config e); [congruence|exact Hin2].
    + subst e2. split; [|exact Hl2]. rewrite Hs2. field. split; lra.
  - intros ev a b rect now e Hev Hpinch. unfold handleTouchMove, handleTouchEnd.
    rewrite Hev, Hpinch. cbn [with_ia ia set_lastTouchDistance lastTouchDistance].
    replace (Qltb 0 0) with false by reflexivity. split; reflexivity.
Qed.

End Touch.

Lemma touch_double_tap_witness :
  lastTouchTime
    (ia (handleTouchStart Sample.LOD_LEVELS Sample.config Fixture.tap Sample.rect 1100 1100
           (handleTouchEnd
              (handleTouchStart Sample.LOD_LEVELS Sample.config Fixture.tap Sample.rect
                 1000 1000 Sample.loaded)))) = 0.
Proof.
  apply (proj1 (touch_double_tap Sample.LOD_LEVELS Sample.config)
           Fixture.tap Fixture.tap Sample.centre Sample.centre Sample.rect Sample.rect
           1000 1100 1000 1100 Sample.loaded);
    try reflexivity; vm_compute; try reflexivity; discriminate.
Defined.

Lemma pinch_scales_by_distance_ratio_witness :
  scale
    (xf (handleTouchMove Sample.LOD_LEVELS Sample.config (Fixture.twoFingers 200)
           Sample.rect 0
           (handleTouchMove Sample.LOD_LEVELS Sample.config (Fixture.twoFingers 150)
              Sample.rect 0
              (handleTouchStart Sample.LOD_LEVELS Sample.config (Fixture.twoFingers 100)
                 Sample.rect 0 0 Sample.loaded))))
  == scale (xf Sample.loaded)
     * (touchDistance (Fixture.twoFingers 200) / touchDistance (Fixture.twoFingers 100)).
Proof.
  eapply (proj1 (pinch_scales_by_distance_ratio Sample.LOD_LEVELS Sample.config)
            (Fixture.twoFingers 100) (Fixture.twoFingers 150) (Fixture.twoFingers 200));
    try exact Sample_loaded_imagePresent;
    try reflexivity; try (vm_compute; reflexivity);
    split; vm_compute; discriminate.
Defined.

(** ** Zooms in sequence *)

Section ZoomSequence.

Variable LOD_LEVELS : list LODLevel.
Variable config : Config.

Lemma constrainImagePosition_unlimited (e : Engine) :
  limitToBounds config = false -> constrainImagePosition config e = e.
Proof. intros H. unfold constrainImagePosition. rewrite H. reflexivity. Qed.

Lemma zoomAt_unlimited (x y k now : Q) (e : Engine) :
  limitToBounds config = false ->
  scaleInRange config e (scale (xf e) * k) ->
  let e' := zoomAt LOD_LEVELS config x y k false now e in
  scale (xf e') = scale (xf e) * k
  /\ translateX (xf e')
     = x - canvasWidth (img e) / 2
       - (x - canvasWidth (img e) / 2 - translateX (xf e)) / scale (xf e)
         * (scale (xf e) * k)
  /\ translateY (xf e')
     = y - canvasHeight (img e) / 2
       - (y - canvasHeight (img e) / 2 - translateY (xf e)) / scale (xf e)
         * (scale (xf e) * k)
  /\ img e' = img e /\ anim e' = anim e.
Proof.
  intros Hlim Hin.
  pose proof (zoomAt_unanimated LOD_LEVELS config x y k now e Hin) as H.
  cbv zeta in H. destruct H as (Hxf & Hi & Ha & _).
  rewrite constrainImagePosition_unlimited in Hxf by exact Hlim.
  cbv zeta. rewrite Hxf, Hi, Ha. simpl. tauto.
Qed.

Lemma scaleInRange_Qeq (e : Engine) (s s' : Q) :
  s == s' -> scaleInRange config e s -> scaleInRange config e s'.
Proof. intros H [H1 H2]. split; rewrite <- H; assumption. Qed.

(** X7.  With an image present and without [limitToBounds], two
    unanimated zooms about one point, by [k1] and then by [k2], end in the
    transform of one zoom by [k1 * k2] about that point.  A wheel tick up
    followed by a tick down therefore does not restore the scale: it
    leaves it multiplied by [1 - wheel.step^2]. *)
Theorem zoomAt_composes :
  (forall e x y k1 k2 now1 now2,
     imagePresent e ->
     limitToBounds config = false ->
     ~ scale (xf e) * k1 == 0 ->
     scaleInRange config e (scale (xf e) * k1) ->
     scaleInRange config e (scale (xf e) * k1 * k2) ->
     let e2 := zoomAt LOD_LEVELS config x y k2 false now2
                 (zoomAt LOD_LEVELS config x y k1 false now1 e) in
     let e12 := zoomAt LOD_LEVELS config x y (k1 * k2) false now1 e in
     scale (xf e2) == scale (xf e12)
     /\ translateX (xf e2) == translateX (xf e12)
     /\ translateY (xf e2) == translateY (xf e12))
  /\ (forall e p q rect up down now1 now2,
        imagePresent e ->
        isAnimating (anim e) = false ->
        wheel_wheelDisabled config = false ->
        up <= 0 -> 0 < down ->
        scaleInRange config e (scale (xf e) * (1 + wheel_step config)) ->
        scaleInRange config e
          (scale (xf e) * (1 + wheel_step config) * (1 - wheel_step config)) ->
        scale (xf (handleWheel LOD_LEVELS config q down rect now2
                     (handleWheel LOD_LEVELS config p up rect now1 e)))
        == scale (xf e) * (1 - wheel_step config * wheel_step config)).
Proof.
  split.
  - intros e x y k1 k2 now1 now2 _ Hlim Hnz Hin1 Hin2 e2 e12.
    pose proof (zoomAt_unlimited x y k1 now1 e Hlim Hin1) as H1.
    cbv zeta in H1. destruct H1 as (Hs1 & Hx1 & Hy1 & Hi1 & _).
    set (e1 := zoomAt LOD_LEVELS config x y k1 false now1 e) in *.
    assert (Hin2' : scaleInRange config e1 (scale (xf e1) * k2)).
    { apply (scaleInRange_img config e e1 _ Hi1). rewrite Hs1. exact Hin2. }
    pose proof (zoomAt_unlimited x y k2 now2 e1 Hlim Hin2') as H2.
    cbv zeta in H2. destruct H2 as (Hs2 & Hx2 & Hy2 & _).
    assert (Hin12 : scaleInRange config e (scale (xf e) * (k1 * k2))).
    { eapply scaleInRange_Qeq; [|exact Hin2]. ring. }
    pose proof (zoomAt_unlimited x y (k1 * k2) now1 e Hlim Hin12) as H12.
    cbv zeta in H12. destruct H12 as (Hs12 & Hx12 & Hy12 & _).
    subst e2 e12. rewrite Hs2, Hx2, Hy2, Hs12, Hx12, Hy12, Hi1, Hs1, Hx1, Hy1.
    assert (Hs : ~ scale (xf e) == 0) by (intros H; apply Hnz; rewrite H; ring).
    assert (Hk : ~ k1 == 0) by (intros H; apply Hnz; rewrite H; ring).
    split; [ring|]. split; field; split; assumption.
  - intros e p q rect up down now1 now2 _ Hanim Hwheel Hup Hdown Hin1 Hin2.
    unfold handleWheel at 2. rewrite Hanim, Hwheel. cbn [orb]. cbv zeta.
    apply Qltb_false in Hup. rewrite Hup.
    set (e1 := zoomAt LOD_LEVELS config _ _ (1 + wheel_step config) false now1 e).
    pose proof (zoomAt_unanimated_scale LOD_LEVELS config
                  (clientX p - rect_left rect) (clientY p - rect_top rect)
                  (1 + wheel_step config) now1 e Hin1) as Hs1.
    pose proof (zoomAt_unanimated LOD_LEVELS config
                  (clientX p - rect_left rect) (clientY p - rect_top rect)
                  (1 + wheel_step config) now1 e Hin1) as H1.
    cbv zeta in H1. destruct H1 as (_ & Hi1 & Ha1 & _).
    fold e1 in Hs1, Hi1, Ha1.
    unfold handleWheel. rewrite Ha1, Hanim, Hwheel. cbn [orb]. cbv zeta.
    apply Qltb_true in Hdown. rewrite Hdown.
    rewrite zoomAt_unanimated_scale.
    + rewrite Hs1. ring.
    + apply (scaleInRange_img config e e1 _ Hi1). rewrite Hs1. exact Hin2.
Qed.

End ZoomSequence.

Lemma zoomAt_composes_witness :
  scale (xf (zoomAt Sample.LOD_LEVELS Fixture.configFree 200 150 3 false 0
               (zoomAt Sample.LOD_LEVELS Fixture.configFree 200 150 2 false 0
                  Fixture.loadedFree)))
  == scale (xf (zoomAt Sample.LOD_LEVELS Fixture.configFree 200 150 (2 * 3) false 0
                  Fixture.loadedFree))
  /\ translateX (xf (zoomAt Sample.LOD_LEVELS Fixture.configFree 200 150 3 false 0
                       (zoomAt Sample.LOD_LEVELS Fixture.configFree 200 150 2 false 0
                          Fixture.loadedFree)))
     == translateX (xf (zoomAt Sample.LOD_LEVELS Fixture.configFree 200 150 (2 * 3) false 0
                          Fixture.loadedFree)).
Proof.
  destruct (proj1 (zoomAt_composes Sample.LOD_LEVELS Fixture.configFree)
              Fixture.loadedFree 200 150 2 3 0 0) as (Hs & Hx & _).
  - split; vm_compute; reflexivity.
  - reflexivity.
  - vm_compute. discriminate.
  - split; vm_compute; discriminate.
  - split; vm_compute; discriminate.
  - split; [exact Hs|exact Hx].
Defined.

(** ** Animation frames *)

Section AnimationFrames.

Variable LOD_LEVELS : list LODLevel.
Variable config : Config.

Lemma animationProgress_finished (elapsed duration : Q) :
  0 < duration -> duration <= elapsed ->
  exists p, animationProgress elapsed duration = Some p /\ p == 1.
Proof.
  intros Hd He. unfold animationProgress.
  assert (Hnz : Qeq_bool duration 0 = false).
  { destruct (Qeq_bool duration 0) eqn:E; [|reflexivity].
    apply Qeq_bool_iff in E. lra. }
  rewrite Hnz. eexists. split; [reflexivity|].
  assert (1 <= elapsed / duration) by (apply Qle_shift_div_l; lra).
  destruct (Q.min_spec (elapsed / duration) 1) as [[? ->]|[? ->]]; lra.
Qed.

Lemma animationProgress_running (elapsed duration : Q) :
  0 < duration -> 0 <= elapsed -> elapsed < duration ->
  exists p, animationProgress elapsed duration = Some p
            /\ p == elapsed / duration /\ 0 <= p /\ p < 1.
Proof.
  intros Hd H0 He. unfold animationProgress.
  assert (Hnz : Qeq_bool duration 0 = false).
  { destruct (Qeq_bool duration 0) eqn:E; [|reflexivity].
    apply Qeq_bool_iff in E. lra. }
  rewrite Hnz. eexists. split; [reflexivity|].
  assert (elapsed / duration < 1) by (apply Qlt_shift_div_r; lra).
  assert (0 <= elapsed / duration) by (apply Qle_shift_div_l; lra).
  destruct (Q.min_spec (elapsed / duration) 1) as [[? ->]|[? ->]];
    repeat split; lra.
Qed.

Lemma updateAnimation_finished (currentTime : Q) (e : Engine) :
  0 < animationDuration (anim e) ->
  animationStartTime (anim e) + animationDuration (anim e) <= currentTime ->
  exists e',
    updateAnimation LOD_LEVELS config currentTime e = Some e'
    /\ scale (xf e') = targetScale (xf e)
    /\ translateX (xf e') = targetTranslateX (xf e)
    /\ translateY (xf e') = targetTranslateY (xf e)
    /\ isAnimating (anim e') = false.
Proof.
  intros Hd Hend. unfold updateAnimation. cbv zeta.
  destruct (animationProgress_finished
              (currentTime - animationStartTime (anim e)) (animationDuration (anim e)))
    as (p & -> & Hp); [exact Hd|lra|].
  assert (Hle : Qle_bool 1 p = true) by (apply Qle_bool_iff; lra).
  rewrite Hle. eexists. split; [reflexivity|].
  match goal with
  | |- context [updateLODIfNeeded LOD_LEVELS ?a] =>
      pose proof (updateLODIfNeeded_frame LOD_LEVELS a) as (_ & Hx & _ & Ha & _)
  end.
  cbv zeta in Hx, Ha. cbn [notifyZoomChange with_rt xf anim]. rewrite Hx, Ha.
  simpl. tauto.
Qed.

Lemma square_mono (v u : Q) : 0 <= v -> v <= u -> v * v <= u * u.
Proof.
  intros Hv Hvu.
  apply Qle_trans with (v * u).
  - apply Qmult_le_l_nonneg; assumption.
  - rewrite (Qmult_comm v u). apply Qmult_le_l_nonneg; [assumption|lra].
Qed.

Lemma easeOutQuart_mono (a b : Q) :
  0 <= a -> a <= b -> b <= 1 -> easeOutQuart a <= easeOutQuart b.
Proof.
  intros H0 Hab H1. unfold easeOutQuart.
  assert (Hsq : (1 - b) * (1 - b) <= (1 - a) * (1 - a))
    by (apply square_mono; lra).
  assert (H4 : ((1 - b) * (1 - b)) * ((1 - b) * (1 - b))
               <= ((1 - a) * (1 - a)) * ((1 - a) * (1 - a))).
  { apply square_mono; [|exact Hsq].
    apply Qmult_le_0_compat; lra. }
  assert (Ea : (1 - a) ^ 4 == ((1 - a) * (1 - a)) * ((1 - a) * (1 - a))) by ring.
  assert (Eb : (1 - b) ^ 4 == ((1 - b) * (1 - b)) * ((1 - b) * (1 - b))) by ring.
  rewrite Ea, Eb. lra.
Qed.

Lemma between_min_max (a b : Q) : Qmin a b <= a <= Qmax a b /\ Qmin a b <= b <= Qmax a b.
Proof.
  pose proof (Q.le_min_l a b). pose proof (Q.le_min_r a b).
  pose proof (Q.le_max_l a b). pose proof (Q.le_max_r a b). tauto.
Qed.

(** X8.  A frame stamped at or after the end of an animation of positive
    duration puts the transform exactly on the target and ends the
    animation.  A frame before the end leaves the animation running, with
    a scale between the scale at the start and the target scale.  The
    easing is monotone on [[0, 1]], from 0 to 1, so later frames are
    nearer to the target. *)
Theorem updateAnimation_reaches_target (currentTime : Q) (e : Engine) :
  0 < animationDuration (anim e) ->
  (animationStartTime (anim e) + animationDuration (anim e) <= currentTime ->
   exists e',
     updateAnimation LOD_LEVELS config currentTime e = Some e'
     /\ scale (xf e') = targetScale (xf e)
     /\ translateX (xf e') = targetTranslateX (xf e)
     /\ translateY (xf e') = targetTranslateY (xf e)
     /\ isAnimating (anim e') = false)
  /\ (animationStartTime (anim e) <= currentTime ->
      currentTime < animationStartTime (anim e) + animationDuration (anim e) ->
      exists e',
        updateAnimation LOD_LEVELS config currentTime e = Some e'
        /\ anim e' = anim e
        /\ Qmin (startScale (anim e)) (targetScale (xf e)) <= scale (xf e')
        /\ scale (xf e') <= Qmax (startScale (anim e)) (targetScale (xf e)))
  /\ (easeOutQuart 0 == 0 /\ easeOutQuart 1 == 1
      /\ forall a b, 0 <= a -> a <= b -> b <= 1 -> easeOutQuart a <= easeOutQuart b).
Proof.
  intros Hd. split; [|split].
  - apply updateAnimation_finished, Hd.
  - intros Hstart Hbefore. unfold updateAnimation. cbv zeta.
    destruct (animationProgress_running
                (currentTime - animationStartTime (anim e)) (animationDuration (anim e)))
      as (p & -> & _ & Hp0 & Hp1); [exact Hd|lra|lra|].
    assert (Hle : Qle_bool 1 p = false).
    { destruct (Qle_bool 1 p) eqn:E; [|reflexivity]. apply Qle_bool_iff in E. lra. }
    rewrite Hle. eexists. split; [reflexivity|]. split; [reflexivity|].
    cbn [notifyZoomChange with_rt with_xf xf set_translate set_scale scale].
    set (t := if smooth config then easeOutQuart p else p).
    assert (Ht : 0 <= t <= 1).
    { subst t. destruct (smooth config); [apply easeOutQuart_between|]; lra. }
    apply (lerp_between _ _ _ _ t); [| |exact Ht]; apply between_min_max.
  - split; [reflexivity|]. split; [reflexivity|]. exact easeOutQuart_mono.
Qed.

Lemma constrainImagePosition_translate_ext (e1 e2 : Engine) :
  img e1 = img e2 -> scale (xf e1) = scale (xf e2) ->
  translateX (xf e1) = translateX (xf e2) -> translateY (xf e1) = translateY (xf e2) ->
  translateX (xf (constrainImagePosition config e1))
  = translateX (xf (constrainImagePosition config e2))
  /\ translateY (xf (constrainImagePosition config e1))
     = translateY (xf (constrainImagePosition config e2)).
Proof.
  intros Hi Hs Hx Hy. unfold constrainImagePosition, getFitToScreenScale.
  rewrite Hi, Hs, Hx, Hy.
  destruct (negb (limitToBounds config)); [tauto|].
  cbv zeta. destruct (Qle_bool _ _); simpl; tauto.
Qed.

(** X9.  An animated zoom ends where the unanimated zoom goes at once:
    with [smooth], an image present and a scale that is not 0, the first
    frame 300 ms or more after an in-range [zoomAt] that was asked to
    animate leaves the scale and the translation that the same [zoomAt]
    without animation produces. *)
Theorem animated_zoomAt_ends_as_unanimated (x y k now currentTime : Q) (e : Engine) :
  imagePresent e ->
  ~ scale (xf e) == 0 ->
  smooth config = true ->
  scaleInRange config e (scale (xf e) * k) ->
  now + 300 <= currentTime ->
  exists e',
    updateAnimation LOD_LEVELS config currentTime
      (zoomAt LOD_LEVELS config x y k true now e) = Some e'
    /\ scale (xf e') = scale (xf (zoomAt LOD_LEVELS config x y k false now e))
    /\ translateX (xf e') = translateX (xf (zoomAt LOD_LEVELS config x y k false now e))
    /\ translateY (xf e') = translateY (xf (zoomAt LOD_LEVELS config x y k false now e))
    /\ isAnimating (anim e') = false.
Proof.
  intros _ _ Hsmooth Hin Hlate.
  pose proof (zoomAt_unanimated LOD_LEVELS config x y k now e Hin) as Hu.
  cbv zeta in Hu. destruct Hu as (Hu & _). rewrite Hu.
  pose proof (constrainImagePosition_frame config (zoomedBeforeConstraint x y k e)) as Hf.
  cbv zeta in Hf. destruct Hf as (_ & _ & _ & _ & _ & _ & _ & Hfs & _). rewrite Hfs.
  assert (Hz : zoomAt LOD_LEVELS config x y k true now e
               = startAnimation config (scale (xf e) * k)
                   (x - canvasWidth (img e) / 2
                    - (x - canvasWidth (img e) / 2 - translateX (xf e)) / scale (xf e)
                      * (scale (xf e) * k))
                   (y - canvasHeight (img e) / 2
                    - (y - canvasHeight (img e) / 2 - translateY (xf e)) / scale (xf e)
                      * (scale (xf e) * k))
                   None now e).
  { unfold zoomAt. cbv zeta. destruct Hin as [H1 H2].
    apply Qltb_false in H1, H2. rewrite H1, H2, Hsmooth. reflexivity. }
  rewrite Hz.
  match goal with
  | |- context [startAnimation config ?a ?b ?c ?d ?n ?s] =>
      set (started := startAnimation config a b c d n s);
      pose proof (startAnimation_result config a b c d n s) as Hr
  end.
  cbv zeta in Hr. fold started in Hr.
  destruct Hr as (Ha & _ & _ & _ & Hts & _).
  assert (Hdur : animationDuration (anim started) = 300)
    by (rewrite Ha, Hsmooth; reflexivity).
  assert (Hst : animationStartTime (anim started) = now) by (rewrite Ha; reflexivity).
  destruct (updateAnimation_finished currentTime started)
    as (e' & Hrun & Hs & Hx & Hy & Hend).
  { rewrite Hdur. reflexivity. }
  { rewrite Hdur, Hst. exact Hlate. }
  exists e'. split; [exact Hrun|]. rewrite Hs, Hx, Hy, Hts.
  split; [reflexivity|]. split; [|split; [|exact Hend]].
  - subst started. unfold startAnimation. cbv zeta.
    cbn [with_xf xf set_translate set_scale set_targetTranslate targetTranslateX].
    apply constrainImagePosition_translate_ext; reflexivity.
  - subst started. unfold startAnimation. cbv zeta.
    cbn [with_xf xf set_translate set_scale set_targetTranslate targetTranslateY].
    apply constrainImagePosition_translate_ext; reflexivity.
Qed.

End AnimationFrames.

Lemma updateAnimation_reaches_target_witness :
  exists e',
    updateAnimation Sample.LOD_LEVELS Sample.config 1300 Sample.animating = Some e'
    /\ scale (xf e') = targetScale (xf Sample.animating)
    /\ translateX (xf e') = targetTranslateX (xf Sample.animating)
    /\ translateY (xf e') = targetTranslateY (xf Sample.animating)
    /\ isAnimating (anim e') = false.
Proof.
  apply (proj1 (updateAnimation_reaches_target Sample.LOD_LEVELS Sample.config 1300
                  Sample.animating ltac:(vm_compute; reflexivity))).
  vm_compute. discriminate.
Defined.

Lemma animated_zoomAt_ends_as_unanimated_witness :
  exists e',
    updateAnimation Sample.LOD_LEVELS Sample.config 300
      (zoomAt Sample.LOD_LEVELS Sample.config 200 150 2 true 0 Sample.loaded) = Some e'
    /\ scale (xf e')
       = scale (xf (zoomAt Sample.LOD_LEVELS Sample.config 200 150 2 false 0 Sample.loaded))
    /\ translateX (xf e')
       = translateX (xf (zoomAt Sample.LOD_LEVELS Sample.config 200 150 2 false 0
                           Sample.loaded))
    /\ translateY (xf e')
       = translateY (xf (zoomAt Sample.LOD_LEVELS Sample.config 200 150 2 false 0
                           Sample.loaded))
    /\ isAnimating (anim e') = false.
Proof.
  apply (animated_zoomAt_ends_as_unanimated Sample.LOD_LEVELS Sample.config
           200 150 2 0 300 Sample.loaded Sample_loaded_imagePresent
           ltac:(vm_compute; discriminate) eq_refl).
  - split; vm_compute; discriminate.
  - vm_compute. discriminate.
Defined.

(** ** Swaps armed in sequence *)

(** X10.  When a second swap is armed before the frame callback of the
    first has run, as when two wheel ticks of one frame each find their
    level in the cache, the first callback installs the texture of the
    second swap under the level of the first, and the second callback,
    finding the back buffer no longer ready, does nothing: the front
    texture is the one of level [l2] while [currentLOD] says [l1]. *)
Theorem two_armed_swaps (e : Engine) (t1 t2 : WebGLTexture) (l1 l2 : Z) :
  pendingSwaps (rt e) = [] ->
  let armed := swapBuffers t2 l2 (swapBuffers t1 l1 e) in
  let e1 := runSwapCallback armed in
  let e2 := runSwapCallback e1 in
  pendingSwaps (rt armed) = [l1; l2]
  /\ (frontTexture (buf e1) = Some t2 /\ currentLOD (lod e1) = l1
      /\ isBackBufferReady (buf e1) = false)
  /\ (frontTexture (buf e2) = Some t2 /\ currentLOD (lod e2) = l1
      /\ pendingSwaps (rt e2) = []).
Proof.
  intros Hnone armed e1 e2. subst e2 e1 armed.
  unfold runSwapCallback, swapBuffers, swapCallback. simpl. rewrite Hnone.
  simpl. tauto.
Qed.

Lemma two_armed_swaps_witness :
  frontTexture
    (buf (runSwapCallback
            (runSwapCallback
               (swapBuffers 6%nat 4%Z (swapBuffers 5%nat 1%Z Sample.loaded)))))
  = Some 6%nat
  /\ currentLOD
       (lod (runSwapCallback
               (runSwapCallback
                  (swapBuffers 6%nat 4%Z (swapBuffers 5%nat 1%Z Sample.loaded)))))
     = 1%Z.
Proof.
  destruct (two_armed_swaps Sample.loaded 5%nat 6%nat 1%Z 4%Z
              ltac:(vm_compute; reflexivity)) as (_ & _ & Hf & Hl & _).
  split; [exact Hf|exact Hl].
Defined.

(** ** The memory monitor *)

Section Monitor.

Variable LOD_LEVELS : list LODLevel.
Variable config : Config.

(** X11.  Under high pressure the monitor runs [cleanupOldTextures],
    which keeps the entry of the current level and every entry created at
    most 30 s before, and evicts and deletes every other one; what it
    keeps stays live.  The buffers, [currentLOD] and the monitor's own
    figures are untouched. *)
Theorem cleanupOldTextures_keeps_current_and_recent (now : Q) (e : Engine) :
  let c := currentLOD (lod e) in
  let e' := cleanupOldTextures now e in
  (forall l info,
     lodTextures (lod e) !! l = Some info ->
     l = c \/ now - lastUsed info <= 30000 ->
     lodTextures (lod e') !! l = Some info
     /\ (cacheHandlesSound e -> texture info ∈ glLive (rt e')))
  /\ (forall l info,
        lodTextures (lod e) !! l = Some info ->
        l <> c -> 30000 < now - lastUsed info ->
        lodTextures (lod e') !! l = None /\ texture info ∉ glLive (rt e'))
  /\ (forall l, lodTextures (lod e) !! l = None -> lodTextures (lod e') !! l = None)
  /\ buf e' = buf e /\ currentLOD (lod e') = c /\ memoryInfo e' = memoryInfo e
  /\ (forall now' e0,
        pressure (memoryInfo (checkMemoryPressure (updateMemoryUsage e0))) = high ->
        updateMemoryInfo now' e0
        = cleanupOldTextures now' (checkMemoryPressure (updateMemoryUsage e0))).
Proof.
  intros c e'.
  assert (Hkeep : forall l info,
            lodTextures (lod e) !! l = Some info ->
            l = c \/ now - lastUsed info <= 30000 ->
            ((l =? c)%Z || negb (Qltb 30000 (now - lastUsed info))) = true).
  { intros l info _ [->|Hage].
    - rewrite Z.eqb_refl. reflexivity.
    - apply Qltb_false in Hage. rewrite Hage. apply orb_true_r. }
  split; [|split; [|split]].
  - intros l info Hl Hk. split.
    + subst e'. unfold cleanupOldTextures. cbv zeta. rewrite evict_lookup, Hl.
      cbn [fst snd]. fold c. rewrite (Hkeep l info Hl Hk). reflexivity.
    + intros [Hlive Hinj]. subst e'. unfold cleanupOldTextures. cbv zeta.
      apply evict_live. split; [apply (Hlive l info Hl)|].
      intros (l' & info' & Hl' & Hgone & Ht). cbn [fst snd] in Hgone. fold c in Hgone.
      assert (l' = l) by (eapply Hinj; eauto). subst l'.
      rewrite Hl in Hl'. injection Hl' as <-.
      rewrite (Hkeep l info Hl Hk) in Hgone. discriminate.
  - intros l info Hl Hne Hold.
    assert (Hgone : ((l =? c)%Z || negb (Qltb 30000 (now - lastUsed info))) = false).
    { apply Z.eqb_neq in Hne. rewrite Hne. apply Qltb_true in Hold. rewrite Hold.
      reflexivity. }
    split.
    + subst e'. unfold cleanupOldTextures. cbv zeta. rewrite evict_lookup, Hl.
      cbn [fst snd]. fold c. rewrite Hgone. reflexivity.
    + subst e'. unfold cleanupOldTextures. cbv zeta. rewrite evict_live.
      intros [_ Hno]. apply Hno. exists l, info. cbn [fst snd]. fold c. tauto.
  - intros l Hl. subst e'. unfold cleanupOldTextures. cbv zeta.
    rewrite evict_lookup, Hl. reflexivity.
  - subst e'. unfold cleanupOldTextures. cbv zeta.
    match goal with
    | |- context [evict ?k e] => pose proof (evict_frame k e) as H
    end.
    cbv zeta in H. destruct H as (Hb & _ & _ & _ & _ & Hm & Hc & _).
    split; [exact Hb|]. split; [exact Hc|]. split; [exact Hm|].
    intros now' e0 Hp. unfold updateMemoryInfo. cbv zeta. rewrite Hp. reflexivity.
Qed.

Lemma cachedMemory_insert_fresh (m : gmap Z TextureInfo) (l : Z) (info : TextureInfo) :
  m !! l = None ->
  cachedMemory (<[ l := info ]> m) == cachedMemory m + memory info.
Proof.
  intros Hl. unfold cachedMemory.
  apply (map_fold_insert Qeq (fun _ textureInfo acc => acc + memory textureInfo)).
  - intros _ z a b Hab. rewrite Hab. reflexivity.
  - intros. ring.
  - exact Hl.
Qed.

Lemma cachedMemory_delete (m : gmap Z TextureInfo) (l : Z) (info : TextureInfo) :
  m !! l = Some info ->
  cachedMemory m == cachedMemory (delete l m) + memory info.
Proof.
  intros Hl. unfold cachedMemory.
  apply (map_fold_delete Qeq (fun _ textureInfo acc => acc + memory textureInfo)).
  - intros _ z a b Hab. rewrite Hab. reflexivity.
  - intros. ring.
  - exact Hl.
Qed.

(** X12.  The monitor's figure for the texture memory is the sum over the
    cache.  Storing the texture of a level that is not cached adds
    [4 * width * height] to it; storing one for a cached level replaces
    that level's share, the texture it held being neither counted any
    longer nor deleted.  The cleanups do not refresh the figure: it is
    stale until the next tick. *)
Theorem textureMemory_accounting (l : Z) (w h now : Q) (e : Engine) :
  let e' := fst (storeTexture l w h now e) in
  textureMemory (memoryInfo (updateMemoryUsage e)) = cachedMemory (lodTextures (lod e))
  /\ (lodTextures (lod e) !! l = None ->
      textureMemory (memoryInfo e') == cachedMemory (lodTextures (lod e)) + w * h * 4)
  /\ (forall old,
        lodTextures (lod e) !! l = Some old ->
        textureMemory (memoryInfo e') + memory old
        == cachedMemory (lodTextures (lod e)) + w * h * 4
        /\ (texture old ∈ glLive (rt e) -> texture old ∈ glLive (rt e')))
  /\ (forall keepEntry, memoryInfo (evict keepEntry e) = memoryInfo e).
Proof.
  intros e'. split; [reflexivity|].
  assert (He' : textureMemory (memoryInfo e')
                = cachedMemory (<[ l := {| texture := glNext (rt e); width := w;
                                            height := h; memory := w * h * 4;
                                            lastUsed := now |} ]> (lodTextures (lod e))))
    by reflexivity.
  split; [|split].
  - intros Hl. rewrite He', cachedMemory_insert_fresh by exact Hl. reflexivity.
  - intros old Hl. split.
    + rewrite He', <- insert_delete_eq.
      rewrite cachedMemory_insert_fresh by apply lookup_delete_eq.
      rewrite (cachedMemory_delete _ l old Hl). cbn [memory]. ring.
    + intros Hlive. subst e'. cbn. apply elem_of_union_l, Hlive.
  - intros keepEntry. reflexivity.
Qed.

Lemma Qltb_ratio (c u L : Q) : 0 < L -> Qltb c (u / L) = Qltb (c * L) u.
Proof.
  intros HL. destruct (Qltb (c * L) u) eqn:E.
  - apply Qltb_true in E. apply Qltb_true. apply Qlt_shift_div_l; assumption.
  - apply Qltb_false in E. apply Qltb_false. apply Qle_shift_div_r; assumption.
Qed.

Lemma checkMemoryPressure_result (e : Engine) :
  0 < textureMemoryLimit (lod e) ->
  pressure (memoryInfo (checkMemoryPressure e))
  = if Qltb ((9 # 10) * textureMemoryLimit (lod e)) (textureMemory (memoryInfo e))
    then critical
    else if Qltb ((7 # 10) * textureMemoryLimit (lod e)) (textureMemory (memoryInfo e))
         then high
         else if Qltb ((5 # 10) * textureMemoryLimit (lod e)) (textureMemory (memoryInfo e))
              then medium
              else low.
Proof.
  intros HL. unfold checkMemoryPressure. cbv zeta. cbn [with_memoryInfo memoryInfo pressure].
  rewrite !(Qltb_ratio _ _ _ HL). reflexivity.
Qed.

(** X13.  With a positive limit, [checkMemoryPressure] reports critical
    pressure when the texture memory is above 90% of the limit, high above
    70%, medium above 50% and low otherwise, each threshold itself
    belonging to the level below; more memory never gives a lower
    level. *)
Theorem checkMemoryPressure_thresholds (e : Engine) :
  0 < textureMemoryLimit (lod e) ->
  let used := textureMemory (memoryInfo e) in
  let limit := textureMemoryLimit (lod e) in
  let p := pressure (memoryInfo (checkMemoryPressure e)) in
  ((9 # 10) * limit < used <-> p = critical)
  /\ ((7 # 10) * limit < used /\ used <= (9 # 10) * limit <-> p = high)
  /\ ((5 # 10) * limit < used /\ used <= (7 # 10) * limit <-> p = medium)
  /\ (used <= (5 # 10) * limit <-> p = low)
  /\ (forall e2,
        textureMemoryLimit (lod e2) = limit ->
        used <= textureMemory (memoryInfo e2) ->
        (pressureRank p
         <= pressureRank (pressure (memoryInfo (checkMemoryPressure e2))))%nat).
Proof.
  intros HL used limit p.
  assert (Hp : p = if Qltb ((9 # 10) * limit) used then critical
                   else if Qltb ((7 # 10) * limit) used then high
                        else if Qltb ((5 # 10) * limit) used then medium else low)
    by (apply checkMemoryPressure_result, HL).
  assert (HL' : 0 < limit) by exact HL.
  repeat split.
  - intros H. apply Qltb_true in H. rewrite Hp, H. reflexivity.
  - intros H. rewrite Hp in H.
    destruct (Qltb ((9 # 10) * limit) used) eqn:E9; [apply Qltb_true, E9|].
    destruct (Qltb ((7 # 10) * limit) used); [discriminate|].
    destruct (Qltb ((5 # 10) * limit) used); discriminate.
  - intros [H7 H9]. apply Qltb_true in H7. apply Qltb_false in H9.
    rewrite Hp, H9, H7. reflexivity.
  - rewrite Hp in H.
    destruct (Qltb ((9 # 10) * limit) used) eqn:E9; [discriminate|].
    destruct (Qltb ((7 # 10) * limit) used) eqn:E7; [apply Qltb_true, E7|].
    destruct (Qltb ((5 # 10) * limit) used); discriminate.
  - rewrite Hp in H.
    destruct (Qltb ((9 # 10) * limit) used) eqn:E9; [discriminate|].
    apply Qltb_false, E9.
  - intros [H5 H7].
    assert (H9 : Qltb ((9 # 10) * limit) used = false) by (apply Qltb_false; lra).
    apply Qltb_true in H5. apply Qltb_false in H7.
    rewrite Hp, H9, H7, H5. reflexivity.
  - rewrite Hp in H.
    destruct (Qltb ((9 # 10) * limit) used) eqn:E9; [discriminate|].
    destruct (Qltb ((7 # 10) * limit) used) eqn:E7; [discriminate|].
    destruct (Qltb ((5 # 10) * limit) used) eqn:E5; [apply Qltb_true, E5|discriminate].
  - rewrite Hp in H.
    destruct (Qltb ((9 # 10) * limit) used) eqn:E9; [discriminate|].
    destruct (Qltb ((7 # 10) * limit) used) eqn:E7; [discriminate|].
    apply Qltb_false, E7.
  - intros H5.
    assert (H7 : Qltb ((7 # 10) * limit) used = false) by (apply Qltb_false; lra).
    assert (H9 : Qltb ((9 # 10) * limit) used = false) by (apply Qltb_false; lra).
    apply Qltb_false in H5.
    rewrite Hp, H9, H7, H5. reflexivity.
  - intros H. rewrite Hp in H.
    destruct (Qltb ((9 # 10) * limit) used) eqn:E9; [discriminate|].
    destruct (Qltb ((7 # 10) * limit) used) eqn:E7; [discriminate|].
    destruct (Qltb ((5 # 10) * limit) used) eqn:E5; [discriminate|].
    apply Qltb_false, E5.
  - intros e2 HL2 Hmore.
    rewrite Hp. rewrite checkMemoryPressure_result by (rewrite HL2; exact HL).
    rewrite HL2. fold limit.
    set (used2 := textureMemory (memoryInfo e2)) in *.
    destruct (Qltb ((9 # 10) * limit) used) eqn:E9;
      destruct (Qltb ((7 # 10) * limit) used) eqn:E7;
      destruct (Qltb ((5 # 10) * limit) used) eqn:E5;
      destruct (Qltb ((9 # 10) * limit) used2) eqn:F9;
      destruct (Qltb ((7 # 10) * limit) used2) eqn:F7;
      destruct (Qltb ((5 # 10) * limit) used2) eqn:F5;
      cbn [pressureRank]; try lia;
      repeat match goal with
             | H : Qltb _ _ = true |- _ => apply Qltb_true in H
             | H : Qltb _ _ = false |- _ => apply Qltb_false in H
             end; lra.
Qed.

End Monitor.

Lemma cleanupOldTextures_keeps_current_and_recent_witness :
  lodTextures (lod (cleanupOldTextures 40000 Sample.fourCachedEngine)) !! 2%Z
  = lodTextures (lod Sample.fourCachedEngine) !! 2%Z
  /\ lodTextures (lod (cleanupOldTextures 40000 Sample.fourCachedEngine)) !! 4%Z = None.
Proof.
  pose proof (cleanupOldTextures_keeps_current_and_recent 40000 Sample.fourCachedEngine)
    as (Hkeep & Hgone & _).
  split.
  - destruct (lodTextures (lod Sample.fourCachedEngine) !! 2%Z) as [info|] eqn:E.
    + apply (Hkeep 2%Z info E). left. vm_compute. reflexivity.
    + vm_compute in E. discriminate.
  - destruct (lodTextures (lod Sample.fourCachedEngine) !! 4%Z) as [info|] eqn:E.
    + apply (Hgone 4%Z info E).
      * vm_compute. discriminate.
      * assert (Hused : lastUsed info = 30).
        { vm_compute in E. injection E as <-. reflexivity. }
        rewrite Hused. vm_compute. reflexivity.
    + vm_compute in E. discriminate.
Defined.

Lemma textureMemory_accounting_witness :
  textureMemory (memoryInfo (fst (storeTexture 2 4000 3000 10 Sample.loaded)))
  == cachedMemory (lodTextures (lod Sample.loaded)) + 4000 * 3000 * 4.
Proof.
  apply (proj1 (proj2 (textureMemory_accounting 2 4000 3000 10 Sample.loaded))).
  vm_compute. reflexivity.
Defined.

Lemma checkMemoryPressure_thresholds_witness :
  pressure (memoryInfo (checkMemoryPressure (updateMemoryUsage Sample.fourCachedEngine)))
  = critical.
Proof.
  apply (proj1 (checkMemoryPressure_thresholds (updateMemoryUsage Sample.fourCachedEngine)
                  ltac:(vm_compute; reflexivity))).
  vm_compute. reflexivity.
Defined.

(** ** Pressure and quality *)

Section PressureAndQuality.

Variable LOD_LEVELS : list LODLevel.

Lemma firstFittingLOD_modifier_mono (levels : list LODLevel) (i : Z) (r m1 m2 : Q) :
  m2 <= m1 ->
  Forall (fun lodLevel => 0 <= maxViewportScale lodLevel) levels ->
  match firstFittingLOD levels i r m1, firstFittingLOD levels i r m2 with
  | Some a, Some b => (a <= b)%Z
  | None, Some _ => False
  | _, None => True
  end.
Proof.
  intros Hm Hpos. revert i. induction Hpos as [|lodLevel levels Hpsi _ IH]; intros i.
  - exact I.
  - cbn [firstFittingLOD]. cbv zeta.
    destruct (Qle_bool r (maxViewportScale lodLevel * m1)) eqn:E1.
    + destruct (Qle_bool r (maxViewportScale lodLevel * m2)) eqn:E2; [lia|].
      destruct (firstFittingLOD levels (i + 1) r m2) as [b|] eqn:E; [|exact I].
      apply firstFittingLOD_bound in E. lia.
    + assert (E2 : Qle_bool r (maxViewportScale lodLevel * m2) = false).
      { apply Qle_bool_false. apply Qle_bool_false in E1.
        apply Qle_lt_trans with (maxViewportScale lodLevel * m1); [|exact E1].
        apply Qmult_le_l_nonneg; assumption. }
      rewrite E2. apply IH.
Qed.

Lemma getMemoryPressureModifier_mono (e1 e2 : Engine) :
  (pressureRank (pressure (memoryInfo e1))
   <= pressureRank (pressure (memoryInfo e2)))%nat ->
  getMemoryPressureModifier e2 <= getMemoryPressureModifier e1.
Proof.
  unfold getMemoryPressureModifier.
  destruct (pressure (memoryInfo e1)), (pressure (memoryInfo e2));
    cbn [pressureRank]; intros H; try lia; lra.
Qed.

(** X14.  For a table whose [maxViewportScale]s are not negative, more
    memory pressure never selects a level of smaller index for the same
    view: the modifier shrinks every threshold [maxViewportScale * m], so
    the first level that fits comes no earlier. *)
Theorem pressure_never_lowers_selectOptimalLOD (e1 e2 : Engine) :
  Forall (fun lodLevel => 0 <= maxViewportScale lodLevel) LOD_LEVELS ->
  img e1 = img e2 -> scale (xf e1) = scale (xf e2) ->
  (pressureRank (pressure (memoryInfo e1))
   <= pressureRank (pressure (memoryInfo e2)))%nat ->
  getMemoryPressureModifier e2 <= getMemoryPressureModifier e1
  /\ (selectOptimalLOD LOD_LEVELS e1 <= selectOptimalLOD LOD_LEVELS e2)%Z.
Proof.
  intros Hpos Hi Hs Hrank.
  pose proof (getMemoryPressureModifier_mono e1 e2 Hrank) as Hm.
  split; [exact Hm|].
  unfold selectOptimalLOD, getFitToScreenScale. rewrite Hi, Hs.
  destruct (negb (imageLoaded (img e2))); [lia|]. cbv zeta.
  pose proof (firstFittingLOD_modifier_mono LOD_LEVELS 0
                (scale (xf e2)
                 / Qmin (canvasWidth (img e2) / imageWidth (img e2))
                     (canvasHeight (img e2) / imageHeight (img e2)))
                _ _ Hm Hpos) as H.
  destruct (firstFittingLOD LOD_LEVELS 0 _ (getMemoryPressureModifier e1)) as [a|] eqn:Ea;
    destruct (firstFittingLOD LOD_LEVELS 0 _ (getMemoryPressureModifier e2)) as [b|] eqn:Eb;
    try contradiction; try lia.
  apply firstFittingLOD_bound in Ea. unfold LOD_LEVELS_length. lia.
Qed.

End PressureAndQuality.

Lemma pressure_never_lowers_selectOptimalLOD_witness :
  (selectOptimalLOD Sample.LOD_LEVELS Sample.loaded
   <= selectOptimalLOD Sample.LOD_LEVELS Fixture.loadedCritical)%Z.
Proof.
  apply (pressure_never_lowers_selectOptimalLOD Sample.LOD_LEVELS Sample.loaded
           Fixture.loadedCritical).
  - repeat constructor; vm_compute; discriminate.
  - vm_compute. reflexivity.
  - vm_compute. reflexivity.
  - vm_compute. lia.
Defined.

(** ** Texture sizes *)

Section TextureSizes.

Variable maxTextureSize : Z.
Variable Math_sqrt : Q -> Q.

Lemma Math_round_le (x : Q) (k : Z) : x <= inject_Z k -> Math_round x <= inject_Z k.
Proof.
  intros Hx. unfold Math_round. rewrite <- Zle_Qle.
  assert (H : (Qfloor (x + (1 # 2)) < k + 1)%Z).
  { rewrite Zlt_Qlt. apply Qle_lt_trans with (x + (1 # 2)); [apply Qfloor_le|].
    rewrite inject_Z_plus. change (inject_Z 1) with 1. lra. }
  lia.
Qed.

Lemma Math_round_zero (x : Q) : 0 <= x -> x < 1 # 2 -> Math_round x = 0.
Proof.
  intros H0 H1. unfold Math_round.
  assert (Hlo : (0 <= Qfloor (x + (1 # 2)))%Z).
  { change 0%Z with (Qfloor 0). apply Qfloor_resp_le. lra. }
  assert (Hhi : (Qfloor (x + (1 # 2)) < 1)%Z).
  { rewrite Zlt_Qlt. apply Qle_lt_trans with (x + (1 # 2)); [apply Qfloor_le|].
    change (inject_Z 1) with 1. lra. }
  replace (Qfloor (x + (1 # 2))) with 0%Z by lia. reflexivity.
Qed.

Lemma getEffectiveMaxTextureSize_integer (e : Engine) :
  exists k, getEffectiveMaxTextureSize maxTextureSize e = inject_Z k
            /\ (k <= maxTextureSize)%Z
            /\ ((0 < maxTextureSize)%Z -> (0 < k)%Z).
Proof.
  unfold getEffectiveMaxTextureSize.
  destruct (pressure (memoryInfo e)).
  - exists maxTextureSize. split; [reflexivity|lia].
  - apply (Qmin_cases (inject_Z maxTextureSize) 8192
             (fun q => exists k, q = inject_Z k /\ (k <= maxTextureSize)%Z
                                 /\ ((0 < maxTextureSize)%Z -> (0 < k)%Z))).
    + intros _. exists maxTextureSize. split; [reflexivity|lia].
    + intros H. exists 8192%Z. split; [reflexivity|].
      change 8192 with (inject_Z 8192) in H. rewrite <- Zle_Qle in H. lia.
  - apply (Qmin_cases (inject_Z maxTextureSize) 4096
             (fun q => exists k, q = inject_Z k /\ (k <= maxTextureSize)%Z
                                 /\ ((0 < maxTextureSize)%Z -> (0 < k)%Z))).
    + intros _. exists maxTextureSize. split; [reflexivity|lia].
    + intros H. exists 4096%Z. split; [reflexivity|].
      change 4096 with (inject_Z 4096) in H. rewrite <- Zle_Qle in H. lia.
  - apply (Qmin_cases (inject_Z maxTextureSize) 2048
             (fun q => exists k, q = inject_Z k /\ (k <= maxTextureSize)%Z
                                 /\ ((0 < maxTextureSize)%Z -> (0 < k)%Z))).
    + intros _. exists maxTextureSize. split; [reflexivity|lia].
    + intros H. exists 2048%Z. split; [reflexivity|].
      change 2048 with (inject_Z 2048) in H. rewrite <- Zle_Qle in H. lia.
Qed.

Lemma getEffectivePixelRatio_mono (b : Q) (e1 e2 : Engine) :
  (pressureRank (pressure (memoryInfo e1))
   <= pressureRank (pressure (memoryInfo e2)))%nat ->
  getEffectivePixelRatio b e2 <= getEffectivePixelRatio b e1
  /\ getEffectivePixelRatio b e1 <= b.
Proof.
  unfold getEffectivePixelRatio.
  destruct (pressure (memoryInfo e1)), (pressure (memoryInfo e2));
    cbn [pressureRank]; intros H; try lia;
    repeat match goal with
           | |- context [Qmin ?x ?y] =>
               destruct (Q.min_spec x y) as [[? ->]|[? ->]]
           end; split; lra.
Qed.

Lemma getEffectiveMaxTextureSize_mono (e1 e2 : Engine) :
  (pressureRank (pressure (memoryInfo e1))
   <= pressureRank (pressure (memoryInfo e2)))%nat ->
  getEffectiveMaxTextureSize maxTextureSize e2
  <= getEffectiveMaxTextureSize maxTextureSize e1
  /\ getEffectiveMaxTextureSize maxTextureSize e1 <= inject_Z maxTextureSize.
Proof.
  unfold getEffectiveMaxTextureSize.
  destruct (pressure (memoryInfo e1)), (pressure (memoryInfo e2));
    cbn [pressureRank]; intros H; try lia;
    repeat match goal with
           | |- context [Qmin ?x ?y] =>
               destruct (Q.min_spec x y) as [[? ->]|[? ->]]
           end; split; lra.
Qed.

(** X15.  The two quality knobs never exceed what the device offers, the
    pixel ratio of the canvas its [devicePixelRatio] and the texture size
    the [MAX_TEXTURE_SIZE] of the context, and neither grows when the
    memory pressure does. *)
Theorem quality_degrades_with_pressure (basePixelRatio : Q) (e1 e2 : Engine) :
  (pressureRank (pressure (memoryInfo e1))
   <= pressureRank (pressure (memoryInfo e2)))%nat ->
  (getEffectivePixelRatio basePixelRatio e2 <= getEffectivePixelRatio basePixelRatio e1
   /\ getEffectivePixelRatio basePixelRatio e1 <= basePixelRatio)
  /\ (getEffectiveMaxTextureSize maxTextureSize e2
      <= getEffectiveMaxTextureSize maxTextureSize e1
      /\ getEffectiveMaxTextureSize maxTextureSize e1 <= inject_Z maxTextureSize).
Proof.
  intros H. split.
  - apply getEffectivePixelRatio_mono, H.
  - apply getEffectiveMaxTextureSize_mono, H.
Qed.

Lemma Qdiv_div (m w h : Q) : ~ w == 0 -> ~ h == 0 -> m / (w / h) == m * h / w.
Proof. intros. field. split; assumption. Qed.

(** X16.  For a texture within the memory share of one texture,
    [applyMemoryConstraints] returns the size it is given when both sides
    are within the effective maximum, and otherwise caps the longer side
    at that maximum and scales the other, neither side of the result
    exceeding it.  This branch has no floor of one pixel: a strip whose
    longer side is more than twice the maximum times its shorter side
    comes out with a shorter side of 0. *)
Theorem applyMemoryConstraints_size_cap (w h : Q) (e : Engine) :
  (0 < maxTextureSize)%Z -> 0 < w -> 0 < h ->
  w * h * 4 <= textureMemoryLimit (lod e) * (3 # 10) ->
  let maxSize := getEffectiveMaxTextureSize maxTextureSize e in
  let r := applyMemoryConstraints maxTextureSize Math_sqrt w h e in
  (w <= maxSize -> h <= maxSize -> r = (w, h))
  /\ (maxSize < w \/ maxSize < h ->
      fst r <= maxSize /\ snd r <= maxSize
      /\ (h < w -> fst r = maxSize) /\ (w <= h -> snd r = maxSize))
  /\ (maxSize < w -> 2 * maxSize * h < w -> snd r = 0).
Proof.
  intros Hmax Hw Hh Hmem maxSize r.
  destruct (getEffectiveMaxTextureSize_integer e) as (k & Hk & _ & Hkpos).
  fold maxSize in Hk. specialize (Hkpos Hmax).
  assert (HM : 0 < maxSize).
  { rewrite Hk. change 0 with (inject_Z 0). rewrite <- Zlt_Qlt. exact Hkpos. }
  assert (Hr : r = if Qltb maxSize w || Qltb maxSize h
                   then if Qltb 1 (w / h)
                        then (maxSize, Math_round (maxSize / (w / h)))
                        else (Math_round (maxSize * (w / h)), maxSize)
                   else (w, h)).
  { subst r. unfold applyMemoryConstraints. cbv zeta.
    apply Qltb_false in Hmem. rewrite Hmem. reflexivity. }
  assert (Hwz : ~ w == 0) by lra. assert (Hhz : ~ h == 0) by lra.
  assert (Hasp : Qltb 1 (w / h) = Qltb h w).
  { destruct (Qltb h w) eqn:E.
    - apply Qltb_true in E. apply Qltb_true. apply Qlt_shift_div_l; lra.
    - apply Qltb_false in E. apply Qltb_false. apply Qle_shift_div_r; lra. }
  rewrite Hasp in Hr.
  split; [|split].
  - intros H1 H2. apply Qltb_false in H1, H2. rewrite Hr, H1, H2. reflexivity.
  - intros Hover.
    assert (Hc : Qltb maxSize w || Qltb maxSize h = true).
    { destruct Hover as [H|H]; apply Qltb_true in H; rewrite H;
        [reflexivity|apply orb_true_r]. }
    rewrite Hc in Hr. destruct (Qltb h w) eqn:E.
    + apply Qltb_true in E. rewrite Hr. cbn [fst snd].
      split; [lra|]. split; [|split; [reflexivity|lra]].
      rewrite Hk. apply Math_round_le. rewrite <- Hk.
      rewrite (Qdiv_div _ _ _ Hwz Hhz). apply Qle_shift_div_r; [exact Hw|].
      apply Qmult_le_l_nonneg; lra.
    + apply Qltb_false in E. rewrite Hr. cbn [fst snd].
      split; [|split; [lra|split; [lra|reflexivity]]].
      rewrite Hk. apply Math_round_le. rewrite <- Hk.
      assert (Ex : maxSize * (w / h) == maxSize * w / h) by (field; exact Hhz).
      rewrite Ex.
      apply Qle_shift_div_r; [exact Hh|]. apply Qmult_le_l_nonneg; lra.
  - intros Hover Hstrip.
    assert (Hc : Qltb maxSize w || Qltb maxSize h = true)
      by (apply Qltb_true in Hover; rewrite Hover; reflexivity).
    assert (Hk1 : 1 <= maxSize).
    { rewrite Hk. change 1 with (inject_Z 1). rewrite <- Zle_Qle. lia. }
    assert (E : Qltb h w = true).
    { apply Qltb_true. apply Qle_lt_trans with (2 * maxSize * h); [|exact Hstrip].
      apply Qle_trans with (1 * h); [lra|].
      apply Qle_trans with (maxSize * h); [apply Qmult_le_compat_r; lra|].
      apply Qmult_le_compat_r; lra. }
    rewrite Hc, E in Hr. rewrite Hr. cbn [snd].
    apply Math_round_zero.
    + rewrite (Qdiv_div _ _ _ Hwz Hhz). apply Qle_shift_div_l; [exact Hw|].
      rewrite Qmult_0_l. apply Qmult_le_0_compat; lra.
    + rewrite (Qdiv_div _ _ _ Hwz Hhz). apply Qlt_shift_div_r; [exact Hw|]. lra.
Qed.

End TextureSizes.

Lemma quality_degrades_with_pressure_witness :
  getEffectivePixelRatio 3 Fixture.loadedCritical <= getEffectivePixelRatio 3 Sample.loaded
  /\ getEffectiveMaxTextureSize 16384 Fixture.loadedCritical
     <= getEffectiveMaxTextureSize 16384 Sample.loaded.
Proof.
  destruct (quality_degrades_with_pressure 16384 3 Sample.loaded Fixture.loadedCritical)
    as ((Hp & _) & (Ht & _)).
  - vm_compute. lia.
  - split; [exact Hp|exact Ht].
Defined.

Lemma applyMemoryConstraints_size_cap_witness :
  snd (applyMemoryConstraints 4096 (fun q => q) 100000 3 Sample.loaded) = 0.
Proof.
  apply (proj2 (proj2 (applyMemoryConstraints_size_cap 4096 (fun q => q) 100000 3
                         Sample.loaded eq_refl eq_refl eq_refl
                         ltac:(vm_compute; discriminate))));
    vm_compute; reflexivity.
Defined.

(** ** The fitted image on the canvas *)

Section Fit.

Variable config : Config.

Lemma Qle_div_mult (a c d : Q) : 0 < d -> a <= c / d -> a * d <= c.
Proof.
  intros Hd H. apply Qle_trans with (c / d * d).
  - apply Qmult_le_compat_r; lra.
  - assert (E : c / d * d == c) by (field; lra). rewrite E. lra.
Qed.

(** X17.  [fitImageToScreen] centres the image and scales it so that the
    transform matrix maps the quad of the image onto [initialScale] times
    the clip square along one axis and onto no more than that along the
    other: with [initialScale = 1] the image touches the canvas on one
    axis and stays within it on the other. *)
Theorem fitImageToScreen_matrix (e : Engine) :
  imagePresent e -> viewportPresent e -> 0 <= initialScale config ->
  exists sx sy tx ty,
    createTransformMatrix (fitImageToScreen config e) = [sx; 0; 0; 0; sy; 0; tx; ty; 1]
    /\ sx <= initialScale config /\ sy <= initialScale config
    /\ (sx == initialScale config \/ sy == initialScale config)
    /\ tx == 0 /\ ty == 0.
Proof.
  intros [Hiw Hih] [Hcw Hch] Hinit.
  unfold createTransformMatrix, fitImageToScreen. cbv zeta.
  cbn [with_ia with_xf img xf set_translate set_scale scale translateX translateY].
  do 4 eexists. split; [reflexivity|].
  set (a := canvasWidth (img e) / imageWidth (img e)).
  set (b := canvasHeight (img e) / imageHeight (img e)).
  assert (Ha : a * imageWidth (img e) == canvasWidth (img e)) by (subst a; field; lra).
  assert (Hb : b * imageHeight (img e) == canvasHeight (img e)) by (subst b; field; lra).
  assert (Hx : forall F, imageWidth (img e) * (F * initialScale config)
                         / canvasWidth (img e)
                         == F * imageWidth (img e) / canvasWidth (img e)
                            * initialScale config) by (intros; field; lra).
  assert (Hy : forall F, imageHeight (img e) * (F * initialScale config)
                         / canvasHeight (img e)
                         == F * imageHeight (img e) / canvasHeight (img e)
                            * initialScale config) by (intros; field; lra).
  rewrite Hx, Hy.
  assert (Hone : forall q d, 0 < d -> q <= d -> q / d * initialScale config
                                                <= initialScale config).
  { intros q d Hd Hq.
    assert (q / d <= 1) by (apply Qle_shift_div_r; lra).
    apply Qle_trans with (1 * initialScale config); [|lra].
    apply Qmult_le_compat_r; assumption. }
  apply (Qmin_cases a b); intros Hab.
  - split; [apply Hone; lra|]. split.
    + apply Hone; [lra|]. apply Qle_div_mult; [lra|exact Hab].
    + split; [left; rewrite Ha; field; lra|]. split; [field; lra|field; lra].
  - split.
    + apply Hone; [lra|]. apply Qle_div_mult; [lra|exact Hab].
    + split; [apply Hone; lra|].
      split; [right; rewrite Hb; field; lra|]. split; [field; lra|field; lra].
Qed.

End Fit.

Lemma fitImageToScreen_matrix_witness :
  exists sx sy tx ty,
    createTransformMatrix (fitImageToScreen Sample.config Sample.atMax)
    = [sx; 0; 0; 0; sy; 0; tx; ty; 1]
    /\ sx <= initialScale Sample.config /\ sy <= initialScale Sample.config
    /\ (sx == initialScale Sample.config \/ sy == initialScale Sample.config)
    /\ tx == 0 /\ ty == 0.
Proof.
  apply (fitImageToScreen_matrix Sample.config Sample.atMax).
  - split; vm_compute; reflexivity.
  - split; vm_compute; reflexivity.
  - vm_compute. discriminate.
Defined.

(** ** Preloading *)

Section Preloading.

Variable LOD_LEVELS : list LODLevel.

(** X18.  For a level [c] of the table, [preloadAdjacentLODs] starts a
    request exactly for each of [c + 1] and [c - 1] that is a level of the
    table and is not in the cache, whether or not a request for it is in
    flight already, and changes nothing else: at most two requests, none
    for [c] itself. *)
Theorem preloadAdjacentLODs_requests (c : Z) (e : Engine) :
  (0 <= c < LOD_LEVELS_length LOD_LEVELS)%Z ->
  let e' := preloadAdjacentLODs LOD_LEVELS c e in
  exists extra,
    pendingTextures (rt e') = pendingTextures (rt e) ++ extra
    /\ (length extra <= 2)%nat
    /\ (forall req,
          req ∈ extra <->
          exists l, req = ReqPreload l /\ (l = c + 1 \/ l = c - 1)%Z
                    /\ (0 <= l < LOD_LEVELS_length LOD_LEVELS)%Z
                    /\ lodTextures (lod e) !! l = None)
    /\ buf e' = buf e /\ lod e' = lod e /\ xf e' = xf e
    /\ pendingSwaps (rt e') = pendingSwaps (rt e).
Proof.
  intros Hc e'. subst e'. unfold preloadAdjacentLODs. cbv zeta.
  cbn [with_rt rt pendingTextures set_pendingTextures buf lod xf pendingSwaps].
  eexists. split; [reflexivity|].
  assert (Hhas : forall l, bool_decide (is_Some (lodTextures (lod e) !! l)) = false
                           <-> lodTextures (lod e) !! l = None).
  { intros l. rewrite bool_decide_eq_false, <- eq_None_not_Some. reflexivity. }
  assert (Hone : forall (b : bool) (l : Z) (req : TextureRequest),
            req ∈ (if b && negb (bool_decide (is_Some (lodTextures (lod e) !! l)))
                    then [ReqPreload l] else [])
            <-> req = ReqPreload l /\ b = true /\ lodTextures (lod e) !! l = None).
  { intros b l req. rewrite <- Hhas.
    destruct b, (bool_decide (is_Some (lodTextures (lod e) !! l))); cbn [andb negb];
      split;
      try (intros H; apply elem_of_nil in H; contradiction);
      try (intros (_ & H1 & H2); discriminate);
      try (intros H; apply list_elem_of_singleton in H; repeat split; auto; fail).
    intros (-> & _). apply list_elem_of_here. }
  split.
  - rewrite length_app.
    destruct ((c <? _)%Z && _), ((0 <? c)%Z && _); cbn [length]; lia.
  - split; [|tauto]. intros req. rewrite elem_of_app, !Hone, Z.ltb_lt, Z.ltb_lt.
    split.
    + intros [(-> & H1 & H2)|(-> & H1 & H2)]; eexists; split; try reflexivity;
        split; try tauto; split; try assumption; lia.
    + intros (l & -> & [->| ->] & Hr & Hnone); [left|right];
        split; try reflexivity; split; try assumption; lia.
Qed.

End Preloading.

Lemma preloadAdjacentLODs_requests_witness :
  exists extra,
    pendingTextures (rt (preloadAdjacentLODs Sample.LOD_LEVELS 2 Sample.loaded))
    = pendingTextures (rt Sample.loaded) ++ extra
    /\ (length extra <= 2)%nat.
Proof.
  destruct (preloadAdjacentLODs_requests Sample.LOD_LEVELS 2 Sample.loaded)
    as (extra & Hp & Hl & _).
  - vm_compute. split; [discriminate|reflexivity].
  - exists extra. split; [exact Hp|exact Hl].
Defined.

(** ** Calls of the host *)

Section Notifications.

Variable LOD_LEVELS : list LODLevel.
Variable config : Config.

Lemma updateLODIfNeeded_zoomChanges (e : Engine) :
  zoomChanges (rt (updateLODIfNeeded LOD_LEVELS e)) = zoomChanges (rt e).
Proof.
  unfold updateLODIfNeeded. cbv zeta.
  destruct (_ =? _)%Z; [reflexivity|].
  destruct (lodTextures (lod e) !! _); reflexivity.
Qed.

Lemma constrainImagePosition_fit (e : Engine) :
  getFitToScreenScale (constrainImagePosition config e) = getFitToScreenScale e
  /\ scale (xf (constrainImagePosition config e)) = scale (xf e)
  /\ rt (constrainImagePosition config e) = rt e.
Proof.
  pose proof (constrainImagePosition_frame config e) as H. cbv zeta in H.
  destruct H as (_ & Hi & _ & _ & _ & _ & Hr & Hs & _).
  split; [apply getFitToScreenScale_img, Hi|]. split; assumption.
Qed.

(** X19.  When a zoom callback is configured, with an image present in a
    canvas of positive size, an unanimated zoom within the bounds calls it
    once, with the new scale and the new scale relative to the fit scale;
    every animation frame calls it once with the scale of that frame; a
    resize to a positive size calls it once when an image is loaded.
    Before an image is loaded a resize does not call it, and panning and
    starting an animation never do. *)
Theorem onZoomChange_calls :
  (forall e x y k now,
     imagePresent e -> viewportPresent e ->
     scaleInRange config e (scale (xf e) * k) ->
     zoomChanges (rt (zoomAt LOD_LEVELS config x y k false now e))
     = (scale (xf e) * k, scale (xf e) * k / getFitToScreenScale e)
         :: zoomChanges (rt e))
  /\ (forall e currentTime e',
        imagePresent e -> viewportPresent e ->
        updateAnimation LOD_LEVELS config currentTime e = Some e' ->
        zoomChanges (rt e')
        = (scale (xf e'), scale (xf e') / getFitToScreenScale e) :: zoomChanges (rt e))
  /\ (forall e rect,
        let e' := resizeCanvas LOD_LEVELS config rect e in
        (imageLoaded (img e) = true ->
         imagePresent e -> 0 < rect_width rect -> 0 < rect_height rect ->
         zoomChanges (rt e')
         = (scale (xf e'), scale (xf e') / getFitToScreenScale e')
             :: zoomChanges (rt e))
        /\ (imageLoaded (img e) = false -> zoomChanges (rt e') = zoomChanges (rt e)))
  /\ (forall e p, zoomChanges (rt (handleMouseMove config p e)) = zoomChanges (rt e))
  /\ (forall e ts tx ty t now,
        zoomChanges (rt (startAnimation config ts tx ty t now e)) = zoomChanges (rt e)).
Proof.
  split; [|split; [|split; [|split]]].
  - intros e x y k now _ _ [H1 H2]. unfold zoomAt. cbv zeta.
    apply Qltb_false in H1, H2. rewrite H1, H2. cbn [orb andb].
    rewrite updateLODIfNeeded_zoomChanges.
    cbn [notifyZoomChange with_rt rt zoomChanges set_zoomChanges].
    match goal with
    | |- context [constrainImagePosition config ?a] =>
        destruct (constrainImagePosition_fit a) as (-> & -> & ->)
    end.
    reflexivity.
  - intros e currentTime e' _ _. unfold updateAnimation. cbv zeta.
    destruct (animationProgress _ _) as [p|]; [|discriminate].
    intros [= <-].
    destruct (Qle_bool 1 p).
    + cbn [notifyZoomChange with_rt rt xf zoomChanges set_zoomChanges].
      match goal with
      | |- context [updateLODIfNeeded LOD_LEVELS ?a] =>
          pose proof (updateLODIfNeeded_frame LOD_LEVELS a) as (Hi & _);
          cbv zeta in Hi;
          rewrite (getFitToScreenScale_img a (updateLODIfNeeded LOD_LEVELS a) Hi)
      end.
      rewrite updateLODIfNeeded_zoomChanges. reflexivity.
    + reflexivity.
  - intros e rect e'. subst e'. unfold resizeCanvas. cbv zeta.
    cbn [with_img img imageLoaded].
    destruct (imageLoaded (img e));
      (split; [|intros Hl; try discriminate Hl; reflexivity]);
      intros Hl; [|discriminate Hl]. intros _ _ _.
    cbn [notifyZoomChange with_rt rt xf zoomChanges set_zoomChanges].
    rewrite updateLODIfNeeded_zoomChanges.
    match goal with
    | |- context [constrainScaleAndPosition config ?a] =>
        assert (Hr : zoomChanges (rt (constrainScaleAndPosition config a))
                     = zoomChanges (rt e))
    end.
    { unfold constrainScaleAndPosition. cbv zeta.
      match goal with
      | |- context [constrainImagePosition config ?a] =>
          destruct (constrainImagePosition_fit a) as (_ & _ & ->)
      end.
      destruct (Qltb _ _); [reflexivity|]. destruct (Qltb _ _); reflexivity. }
    rewrite Hr. reflexivity.
  - intros e p. unfold handleMouseMove. destruct (_ || _); [reflexivity|]. cbv zeta.
    match goal with
    | |- context [constrainImagePosition config ?a] =>
        destruct (constrainImagePosition_fit a) as (_ & _ & ->)
    end.
    reflexivity.
  - intros e ts tx ty t now.
    pose proof (startAnimation_result config ts tx ty t now e) as H. cbv zeta in H.
    destruct H as (_ & _ & _ & _ & _ & _ & _ & _ & _ & _ & ->). reflexivity.
Qed.

End Notifications.

Lemma onZoomChange_calls_witness :
  zoomChanges (rt (zoomAt Sample.LOD_LEVELS Sample.config 400 300 2 false 0 Sample.loaded))
  = (scale (xf Sample.loaded) * 2,
     scale (xf Sample.loaded) * 2 / getFitToScreenScale Sample.loaded)
      :: zoomChanges (rt Sample.loaded).
Proof.
  apply (proj1 (onZoomChange_calls Sample.LOD_LEVELS Sample.config)).
  - exact Sample_loaded_imagePresent.
  - exact Sample_loaded_viewportPresent.
  - split; vm_compute; discriminate.
Defined.

(** ** Disposal *)

Section Disposal.

Variable LOD_LEVELS : list LODLevel.

Lemma texturesOf_spec (m : gmap Z TextureInfo) (t : WebGLTexture) :
  t ∈ texturesOf m <-> exists l info, m !! l = Some info /\ texture info = t.
Proof. unfold texturesOf. apply elem_of_map_to_set. Qed.

(** X20.  [cleanupWebGLResources] empties the cache, deletes every
    texture the cache held and clears both buffers, so that a frame
    rendered afterwards draws nothing.  It deletes no other texture, and
    it cancels nothing: the pending requests stay, and one that settles
    afterwards creates and caches a texture again. *)
Theorem cleanupWebGLResources_releases_cache (e : Engine) :
  let e' := cleanupWebGLResources e in
  (lodTextures (lod e') = ∅
   /\ frontTexture (buf e') = None /\ backTexture (buf e') = None
   /\ renderFrame e' = e')
  /\ (forall t, t ∈ glLive (rt e')
                <-> t ∈ glLive (rt e)
                    /\ ~ exists l info, lodTextures (lod e) !! l = Some info
                                        /\ texture info = t)
  /\ pendingTextures (rt e') = pendingTextures (rt e)
  /\ (forall l w h now,
        (0 <= l < LOD_LEVELS_length LOD_LEVELS)%Z ->
        let e'' := settleTexture LOD_LEVELS (ReqPreload l) (Some (w, h)) None now e' in
        texture <$> lodTextures (lod e'') !! l = Some (glNext (rt e))
        /\ glNext (rt e) ∈ glLive (rt e'')).
Proof.
  intros e'. split; [|split; [|split]].
  - subst e'. unfold cleanupWebGLResources, renderFrame, drawnTexture. cbv zeta.
    cbn [with_buf with_lod with_rt buf lod img frontTexture backTexture lodTextures
         set_lodTextures].
    repeat split; try reflexivity. destruct (imageLoaded (img e)); reflexivity.
  - intros t. subst e'. unfold cleanupWebGLResources. cbv zeta.
    cbn [with_buf with_lod with_rt rt glLive set_glLive].
    rewrite elem_of_difference, texturesOf_spec. reflexivity.
  - reflexivity.
  - intros l w h now Hl e''. subst e''. unfold settleTexture, createLODTextureAsync.
    assert (Hin : (l <? 0)%Z || (LOD_LEVELS_length LOD_LEVELS <=? l)%Z = false).
    { apply orb_false_iff. split; [apply Z.ltb_ge|apply Z.leb_gt]; lia. }
    rewrite Hin.
    pose proof (storeTexture_result l w h now e') as H. cbv zeta in H.
    destruct (storeTexture l w h now e') as [e2 t]. cbn [fst snd] in H |- *.
    destruct H as (_ & Hc & Hlive & _). rewrite Hc, Hlive.
    rewrite lookup_insert_eq. split; [reflexivity|].
    apply elem_of_union_r, elem_of_singleton_2. reflexivity.
Qed.

End Disposal.

Lemma cleanupWebGLResources_releases_cache_witness :
  texture
    <$> lodTextures
          (lod (settleTexture Sample.LOD_LEVELS (ReqPreload 2) (Some (4000, 3000)) None 50
                  (cleanupWebGLResources Sample.fourCachedEngine))) !! 2%Z
  = Some (glNext (rt Sample.fourCachedEngine)).
Proof.
  apply (proj2 (proj2 (proj2 (cleanupWebGLResources_releases_cache Sample.LOD_LEVELS
                                Sample.fourCachedEngine)))).
  vm_compute. split; [discriminate|reflexivity].
Defined.

(** ** A table of fewer than four levels *)

Create HintDb awaiting.

Section ShortTable.

Variable LOD_LEVELS : list LODLevel.
Variable config : Config.

Hypothesis Hshort : (LOD_LEVELS_length LOD_LEVELS <= 3)%Z.

Ltac by_fields := unfold awaitingLevel3; simpl; tauto.

Lemma awaiting_with_buf f e : awaitingLevel3 e -> awaitingLevel3 (with_buf f e).
Proof. by_fields. Qed.
Lemma awaiting_with_xf f e : awaitingLevel3 e -> awaitingLevel3 (with_xf f e).
Proof. by_fields. Qed.
Lemma awaiting_with_ia f e : awaitingLevel3 e -> awaitingLevel3 (with_ia f e).
Proof. by_fields. Qed.
Lemma awaiting_with_anim f e : awaitingLevel3 e -> awaitingLevel3 (with_anim f e).
Proof. by_fields. Qed.
Lemma awaiting_with_memoryInfo f e :
  awaitingLevel3 e -> awaitingLevel3 (with_memoryInfo f e).
Proof. by_fields. Qed.
Lemma awaiting_set_currentLOD l e :
  awaitingLevel3 e -> awaitingLevel3 (with_lod (set_currentLOD l) e).
Proof. by_fields. Qed.
Lemma awaiting_set_pendingSwaps l e :
  awaitingLevel3 e -> awaitingLevel3 (with_rt (set_pendingSwaps l) e).
Proof. by_fields. Qed.
Lemma awaiting_notifyZoomChange e :
  awaitingLevel3 e -> awaitingLevel3 (notifyZoomChange e).
Proof. by_fields. Qed.
Lemma awaiting_swapBuffers t l e :
  awaitingLevel3 e -> awaitingLevel3 (swapBuffers t l e).
Proof. by_fields. Qed.

(** A state with the image flags, the cache and the pending requests of
    one that awaits level 3 awaits it too. *)
Lemma awaiting_frame (e e' : Engine) :
  img e' = img e -> lod e' = lod e -> rt e' = rt e ->
  awaitingLevel3 e -> awaitingLevel3 e'.
Proof. unfold awaitingLevel3. intros -> -> ->. tauto. Qed.

Lemma awaiting_constrainImagePosition e :
  awaitingLevel3 e -> awaitingLevel3 (constrainImagePosition config e).
Proof.
  pose proof (constrainImagePosition_frame config e) as H. cbv zeta in H.
  apply awaiting_frame; tauto.
Qed.

Lemma awaiting_startAnimation ts tx ty t now e :
  awaitingLevel3 e -> awaitingLevel3 (startAnimation config ts tx ty t now e).
Proof.
  pose proof (startAnimation_result config ts tx ty t now e) as H. cbv zeta in H.
  apply awaiting_frame; tauto.
Qed.

Lemma awaiting_renderFrame e : awaitingLevel3 e -> awaitingLevel3 (renderFrame e).
Proof. unfold renderFrame. destruct (drawnTexture e); [by_fields|tauto]. Qed.

Lemma awaiting_updateLODIfNeeded e :
  awaitingLevel3 e -> awaitingLevel3 (updateLODIfNeeded LOD_LEVELS e).
Proof.
  intros (Hload & Hcache & Hpend). unfold updateLODIfNeeded, selectOptimalLOD.
  rewrite Hload. cbn [negb]. cbv zeta.
  destruct (3 =? currentLOD (lod e))%Z; [unfold awaitingLevel3; tauto|].
  rewrite Hcache, lookup_empty. unfold awaitingLevel3.
  cbn [with_rt img lod rt pendingTextures set_pendingTextures].
  split; [exact Hload|]. split; [exact Hcache|].
  apply Forall_app. split; [exact Hpend|]. repeat constructor.
Qed.

Hint Resolve awaiting_with_buf awaiting_with_xf awaiting_with_ia awaiting_with_anim
  awaiting_with_memoryInfo awaiting_set_currentLOD awaiting_set_pendingSwaps
  awaiting_notifyZoomChange awaiting_swapBuffers awaiting_constrainImagePosition
  awaiting_startAnimation awaiting_renderFrame awaiting_updateLODIfNeeded : awaiting.

Ltac awaiting :=
  cbv zeta;
  repeat match goal with
         | |- awaitingLevel3 (if ?b then _ else _) => destruct b
         | |- awaitingLevel3 (match ?x with _ => _ end) => destruct x
         | |- context [if ?b then _ else _] => destruct b
         end;
  auto 12 with awaiting.

Lemma awaiting_zoomAt x y k animated now e :
  awaitingLevel3 e -> awaitingLevel3 (zoomAt LOD_LEVELS config x y k animated now e).
Proof. intros H. unfold zoomAt. awaiting. Qed.

Hint Resolve awaiting_zoomAt : awaiting.

Lemma awaiting_performDoubleClickAction x y now e :
  awaitingLevel3 e ->
  awaitingLevel3 (performDoubleClickAction LOD_LEVELS config x y now e).
Proof. intros H. unfold performDoubleClickAction. awaiting. Qed.

Hint Resolve awaiting_performDoubleClickAction : awaiting.

Lemma awaiting_handleTouchDoubleTap x y rect now e :
  awaitingLevel3 e ->
  awaitingLevel3 (handleTouchDoubleTap LOD_LEVELS config x y rect now e).
Proof. intros H. unfold handleTouchDoubleTap. awaiting. Qed.

Hint Resolve awaiting_handleTouchDoubleTap : awaiting.

Lemma awaiting_updateAnimation currentTime e e' :
  updateAnimation LOD_LEVELS config currentTime e = Some e' ->
  awaitingLevel3 e -> awaitingLevel3 e'.
Proof.
  unfold updateAnimation. cbv zeta.
  destruct (animationProgress _ _); [|discriminate].
  intros [= <-] H. awaiting.
Qed.

Lemma awaiting_updateMemoryInfo now e :
  awaitingLevel3 e -> awaitingLevel3 (updateMemoryInfo now e).
Proof.
  intros (Hload & Hcache & Hpend). unfold awaitingLevel3.
  split; [|split; [apply updateMemoryInfo_empty, Hcache|]].
  - unfold updateMemoryInfo. cbv zeta.
    destruct (pressure _); try exact Hload;
      unfold emergencyCleanup, cleanupOldTextures; cbv zeta; exact Hload.
  - unfold updateMemoryInfo. cbv zeta.
    destruct (pressure _); try exact Hpend;
      unfold emergencyCleanup, cleanupOldTextures; cbv zeta; exact Hpend.
Qed.

Lemma LOD_LEVELS_at_3 : LOD_LEVELS_at LOD_LEVELS 3 = None.
Proof.
  unfold LOD_LEVELS_at. cbn [Z.ltb Z.compare]. apply lookup_ge_None.
  unfold LOD_LEVELS_length in Hshort. lia.
Qed.

Lemma createLODTextureAsync_3 outcome now e :
  createLODTextureAsync LOD_LEVELS 3 outcome now e = (e, None).
Proof.
  unfold createLODTextureAsync.
  replace (LOD_LEVELS_length LOD_LEVELS <=? 3)%Z with true
    by (symmetry; apply Z.leb_le, Hshort).
  reflexivity.
Qed.

Lemma loadImage_resume_3 asyncOutcome syncOutcome now e :
  loadImage_resume LOD_LEVELS 3 asyncOutcome syncOutcome now e = (e, Rejected).
Proof.
  unfold loadImage_resume, createInitialTexture_resume, createTextureMainThread.
  rewrite createLODTextureAsync_3, LOD_LEVELS_at_3. reflexivity.
Qed.

Lemma settleTexture_level_3 req outcome fallback now e :
  requestLevel req = 3%Z ->
  settleTexture LOD_LEVELS req outcome fallback now e = e.
Proof.
  intros H. destruct req as [l|l|l]; cbn [requestLevel] in H; subst l;
    unfold settleTexture.
  - rewrite loadImage_resume_3. reflexivity.
  - rewrite createLODTextureAsync_3. reflexivity.
  - rewrite createLODTextureAsync_3. reflexivity.
Qed.

Lemma awaiting_loadImage_decoded w h e :
  awaitingLevel3 e -> awaitingLevel3 (loadImage_decoded config w h e).
Proof.
  unfold loadImage_decoded, fitImageToScreen. cbv zeta.
  destruct (centerOnInit config); by_fields.
Qed.

Lemma step_awaiting (ev : Event) (e e' : Engine) :
  step LOD_LEVELS config ev e = Some e' ->
  awaitingLevel3 e -> awaitingLevel3 e'.
Proof.
  destruct ev; cbn [step].
  - intros [= <-] H. unfold handleMouseDown. awaiting.
  - intros [= <-] H. unfold handleMouseMove. awaiting.
  - intros [= <-] H. unfold handleMouseUp. awaiting.
  - intros [= <-] H. unfold handleWheel. awaiting.
  - intros [= <-] H. unfold handleDoubleClick. awaiting.
  - intros [= <-] H. unfold handleTouchStart. awaiting.
  - intros [= <-] H. unfold handleTouchMove. awaiting.
  - intros [= <-] H. unfold handleTouchEnd. awaiting.
  - intros [= <-] H. unfold zoomIn. awaiting.
  - intros [= <-] H. unfold zoomOut. awaiting.
  - intros [= <-] H. unfold resetView. awaiting.
  - intros [= <-] H. unfold resizeCanvas. cbv zeta. cbn [with_img img imageLoaded].
    replace (imageLoaded (img e)) with false by (symmetry; apply H).
    revert H. by_fields.
  - unfold render. destruct (isAnimating (anim e)).
    + destruct (updateAnimation _ _ _ e) as [e1|] eqn:E; [|discriminate].
      intros [= <-] H. apply awaiting_renderFrame.
      eapply awaiting_updateAnimation; eauto.
    + intros [= <-] H. apply awaiting_renderFrame, H.
  - intros [= <-] H. unfold runSwapCallback, swapCallback. awaiting.
  - destruct (pendingTextures (rt e) !! i) as [req|] eqn:Ereq; [|discriminate].
    intros [= <-] (Hload & Hcache & Hpend).
    rewrite settleTexture_level_3.
    + unfold awaitingLevel3.
      cbn [with_rt img lod rt pendingTextures set_pendingTextures].
      split; [exact Hload|]. split; [exact Hcache|]. apply Forall_delete, Hpend.
    + exact (proj1 (Forall_lookup _ _) Hpend i req Ereq).
  - intros [= <-] H. apply awaiting_updateMemoryInfo, H.
  - intros [= <-]. by_fields.
  - destruct (pendingDecodes (rt e)) as [|n]; [discriminate|].
    destruct decoded as [[w h]|]; intros [= <-] H.
    + assert (H2 : awaitingLevel3
                     (loadImage_decoded config w h (with_rt (set_pendingDecodes n) e))).
      { apply awaiting_loadImage_decoded. revert H. by_fields. }
      destruct H2 as (Hload & Hcache & Hpend). unfold awaitingLevel3.
      cbn [with_rt img lod rt pendingTextures set_pendingTextures].
      split; [exact Hload|]. split; [exact Hcache|].
      apply Forall_app. split; [exact Hpend|]. constructor; [|constructor].
      cbn [requestLevel]. unfold selectOptimalLOD. rewrite Hload. reflexivity.
    + revert H. by_fields.
Qed.

Lemma newEngine_awaiting (isMobile : bool) (devicePixelRatio : Q) (rect : DOMRect)
    (dateNow : Q) :
  awaitingLevel3 (newEngine LOD_LEVELS config isMobile devicePixelRatio rect dateNow).
Proof.
  unfold newEngine. apply awaiting_updateMemoryInfo.
  unfold resizeCanvas, fieldInitialisers, awaitingLevel3. simpl.
  split; [reflexivity|]. split; [reflexivity|constructor].
Qed.

(** X21.  [selectOptimalLOD] answers level 3 for an image that is not yet
    marked loaded, whatever the table is.  With a table of fewer than
    four levels the initial texture can therefore never be created: every
    load is rejected, and in every state reachable from a new engine no
    image is loaded, the cache is empty and no frame draws. *)
Theorem short_table_never_loads :
  (forall url decoded asyncOutcome syncOutcome now e,
     imageLoaded (img e) = false ->
     snd (loadImage LOD_LEVELS config url decoded asyncOutcome syncOutcome now e)
     = Rejected)
  /\ (forall isMobile devicePixelRatio rect dateNow e,
        reachable LOD_LEVELS config anyEvent
          (newEngine LOD_LEVELS config isMobile devicePixelRatio rect dateNow) e ->
        imageLoaded (img e) = false
        /\ lodTextures (lod e) = ∅
        /\ drawnTexture e = None).
Proof.
  split.
  - intros url decoded asyncOutcome syncOutcome now e Hload. unfold loadImage. cbv zeta.
    destruct decoded as [[w h]|]; [|reflexivity].
    assert (H3 : selectOptimalLOD LOD_LEVELS
                   (loadImage_decoded config w h (loadImage_call url e)) = 3%Z).
    { unfold selectOptimalLOD.
      replace (imageLoaded (img (loadImage_decoded config w h (loadImage_call url e))))
        with false; [reflexivity|].
      unfold loadImage_decoded, fitImageToScreen, loadImage_call. cbv zeta.
      destruct (centerOnInit config); simpl; congruence. }
    rewrite H3, loadImage_resume_3. reflexivity.
  - intros isMobile devicePixelRatio rect dateNow e Hreach.
    assert (H : awaitingLevel3 e).
    { induction Hreach as [|e1 ev e2 _ IH _ Hstep].
      - apply newEngine_awaiting.
      - eapply step_awaiting; eauto. }
    destruct H as (Hload & Hcache & _).
    split; [exact Hload|]. split; [exact Hcache|].
    unfold drawnTexture. rewrite Hload. reflexivity.
Qed.

End ShortTable.

Lemma short_table_never_loads_witness :
  imageLoaded (img Fixture.shortLoaded) = false
  /\ lodTextures (lod Fixture.shortLoaded) = ∅
  /\ drawnTexture Fixture.shortLoaded = None.
Proof.
  apply (proj2 (short_table_never_loads Fixture.shortTable Sample.config
                  ltac:(vm_compute; discriminate)) false 1 Sample.rect 0).
  apply (run_reachable _ _ Sample.loading _ Fixture.shortFresh).
  - apply reachable_start.
  - vm_compute. reflexivity.
Defined.

(** ** Fit scale and resize *)

Section FitAndResize.

Variable LOD_LEVELS : list LODLevel.
Variable config : Config.

(** X22.  The fit scale is the largest scale at which the whole image is
    within the canvas: the image scaled by [s] is no wider and no higher
    than the canvas exactly when [s <= getFitToScreenScale]. *)
Theorem getFitToScreenScale_largest_fitting (e : Engine) (s : Q) :
  imagePresent e ->
  (imageWidth (img e) * s <= canvasWidth (img e)
   /\ imageHeight (img e) * s <= canvasHeight (img e))
  <-> s <= getFitToScreenScale e.
Proof.
  intros [Hw Hh]. unfold getFitToScreenScale. cbv zeta.
  rewrite Q.min_glb_iff.
  assert (Hdiv : forall c d, 0 < d -> (d * s <= c <-> s <= c / d)).
  { intros c d Hd. split; intros H.
    - apply Qle_shift_div_l; [exact Hd|]. lra.
    - apply Qle_div_mult in H; [lra|exact Hd]. }
  rewrite (Hdiv _ _ Hw), (Hdiv _ _ Hh). reflexivity.
Qed.

Lemma constrainScaleAndPosition_img (e : Engine) :
  img (constrainScaleAndPosition config e) = img e.
Proof.
  unfold constrainScaleAndPosition. cbv zeta.
  match goal with
  | |- context [constrainImagePosition config ?a] =>
      pose proof (constrainImagePosition_frame config a) as H; cbv zeta in H;
      destruct H as (_ & Hi & _)
  end.
  rewrite Hi. destruct (Qltb _ _); [reflexivity|]. destruct (Qltb _ _); reflexivity.
Qed.

Lemma constrainScaleAndPosition_scale (e : Engine) :
  absoluteMinScale config e <= effectiveMaxScale config e ->
  let e' := constrainScaleAndPosition config e in
  scaleInRange config e (scale (xf e'))
  /\ (scaleInRange config e (scale (xf e)) -> scale (xf e') = scale (xf e))
  /\ img e' = img e /\ ia e' = ia e /\ anim e' = anim e.
Proof.
  intros Hord. unfold constrainScaleAndPosition. cbv zeta.
  match goal with
  | |- context [constrainImagePosition config ?a] =>
      pose proof (constrainImagePosition_frame config a) as H; cbv zeta in H;
      destruct H as (_ & Hi & Hia & Ha & _ & _ & _ & Hs & _)
  end.
  rewrite Hs, Hi, Hia, Ha. unfold scaleInRange.
  destruct (Qltb (scale (xf e)) (absoluteMinScale config e)) eqn:E1.
  - apply Qltb_true in E1. cbn [with_xf xf set_scale scale img ia anim].
    repeat split; try lra.
  - apply Qltb_false in E1.
    destruct (Qltb (effectiveMaxScale config e) (scale (xf e))) eqn:E2.
    + apply Qltb_true in E2. cbn [with_xf xf set_scale scale img ia anim].
      repeat split; try lra.
    + apply Qltb_false in E2. repeat split; try lra.
Qed.

(** X23.  A resize records the new size of the canvas, on every engine.
    Before an image is loaded, be it decoded or not, it leaves the
    transform alone.  With an image of positive size loaded, a resize to a
    size that is not negative brings the scale into the bounds of the new
    fit scale (for [minScale <= maxScale]); it keeps the absolute scale
    whenever that is within the new bounds, so an image that was fitted
    stays at the scale it had rather than being fitted again. *)
Theorem resizeCanvas_reclamps (rect : DOMRect) (e : Engine) :
  let e' := resizeCanvas LOD_LEVELS config rect e in
  (canvasWidth (img e') = rect_width rect /\ canvasHeight (img e') = rect_height rect)
  /\ (imageLoaded (img e) = false -> xf e' = xf e)
  /\ (imageLoaded (img e) = true ->
      imagePresent e ->
      0 <= rect_width rect -> 0 <= rect_height rect ->
      minScale config <= maxScale config ->
      scaleInRange config e' (scale (xf e'))
      /\ (scaleInRange config e' (scale (xf e)) -> scale (xf e') = scale (xf e))).
Proof.
  intros e'. subst e'. unfold resizeCanvas. cbv zeta.
  cbn [with_img img imageLoaded].
  set (e1 := with_img _ e).
  destruct (imageLoaded (img e));
    [|split; [subst e1; simpl; tauto|]; split; [reflexivity|discriminate]].
  match goal with
  | |- context [updateLODIfNeeded LOD_LEVELS ?a] =>
      pose proof (updateLODIfNeeded_frame LOD_LEVELS a) as (Hui & Hux & _)
  end.
  cbv zeta in Hui, Hux.
  cbn [notifyZoomChange with_rt img xf]. rewrite Hui, Hux.
  rewrite (constrainScaleAndPosition_img e1).
  split; [subst e1; simpl; tauto|]. split; [discriminate|].
  intros _ [Hiw Hih] Hrw Hrh Hcfg.
  assert (Hord : absoluteMinScale config e1 <= effectiveMaxScale config e1).
  { unfold absoluteMinScale, effectiveMaxScale. cbv zeta.
    apply Qle_trans with (getFitToScreenScale e1 * maxScale config);
      [|apply Q.le_max_l].
    apply Qmult_le_l_nonneg; [exact Hcfg|].
    apply getFitToScreenScale_nonneg; subst e1; simpl; assumption. }
  pose proof (constrainScaleAndPosition_scale e1 Hord) as Hc. cbv zeta in Hc.
  destruct Hc as (Hin & Hkeep & Hi & _).
  - assert (Himg : img (notifyZoomChange
                          (updateLODIfNeeded LOD_LEVELS
                             (constrainScaleAndPosition config e1))) = img e1)
      by (cbn [notifyZoomChange with_rt img]; rewrite Hui, Hi; reflexivity).
    split.
    + apply (scaleInRange_img config e1 _ _ Himg). exact Hin.
    + intros H. apply Hkeep. apply (scaleInRange_img config e1 _ _ Himg) in H. exact H.
Qed.

End FitAndResize.

Lemma getFitToScreenScale_largest_fitting_witness :
  imageWidth (img Sample.loaded) * (1 # 10) <= canvasWidth (img Sample.loaded)
  /\ imageHeight (img Sample.loaded) * (1 # 10) <= canvasHeight (img Sample.loaded).
Proof.
  apply (getFitToScreenScale_largest_fitting Sample.loaded (1 # 10)).
  - split; vm_compute; reflexivity.
  - vm_compute. discriminate.
Defined.

Lemma resizeCanvas_reclamps_witness :
  scale (xf (resizeCanvas Sample.LOD_LEVELS Sample.config
               {| rect_left := 0; rect_top := 0; rect_width := 1600; rect_height := 1200 |}
               Sample.loaded))
  = scale (xf Sample.loaded)
  /\ xf (resizeCanvas Sample.LOD_LEVELS Sample.config
           {| rect_left := 0; rect_top := 0; rect_width := 1600; rect_height := 1200 |}
           Sample.fresh)
     = xf Sample.fresh.
Proof.
  split;
    [|apply (proj1 (proj2 (resizeCanvas_reclamps Sample.LOD_LEVELS Sample.config
                             {| rect_left := 0; rect_top := 0; rect_width := 1600;
                                rect_height := 1200 |} Sample.fresh)));
      vm_compute; reflexivity].
  destruct (resizeCanvas_reclamps Sample.LOD_LEVELS Sample.config
              {| rect_left := 0; rect_top := 0; rect_width := 1600; rect_height := 1200 |}
              Sample.loaded) as (_ & _ & Hloaded).
  destruct Hloaded as [_ Hkeep].
  - vm_compute. reflexivity.
  - exact Sample_loaded_imagePresent.
  - vm_compute. discriminate.
  - vm_compute. discriminate.
  - vm_compute. discriminate.
  - apply Hkeep. split; vm_compute; discriminate.
Defined.

(** ** Zoom buttons and reset *)

Section Buttons.

Variable LOD_LEVELS : list LODLevel.
Variable config : Config.

Lemma zoomAt_centre (k now : Q) (e : Engine) :
  ~ scale (xf e) == 0 ->
  scaleInRange config e (scale (xf e) * k) ->
  let e' := zoomAt LOD_LEVELS config (canvasWidth (img e) / 2) (canvasHeight (img e) / 2)
              k false now e in
  scale (xf e') = scale (xf e) * k
  /\ (limitToBounds config = false ->
      translateX (xf e') == translateX (xf e) * k
      /\ translateY (xf e') == translateY (xf e) * k)
  /\ (translateX (xf e) == 0 -> translateY (xf e) == 0 ->
      translateX (xf e') == 0 /\ translateY (xf e') == 0).
Proof.
  intros Hs Hin e'. subst e'.
  pose proof (zoomAt_unanimated LOD_LEVELS config (canvasWidth (img e) / 2)
                (canvasHeight (img e) / 2) k now e Hin) as H.
  cbv zeta in H. destruct H as (Hxf & _). rewrite Hxf.
  set (z := zoomedBeforeConstraint (canvasWidth (img e) / 2) (canvasHeight (img e) / 2)
              k e).
  assert (Hzx : translateX (xf z) == translateX (xf e) * k).
  { subst z. unfold zoomedBeforeConstraint, imagePointX. cbv zeta.
    cbn [with_xf xf set_translate set_scale translateX]. field. exact Hs. }
  assert (Hzy : translateY (xf z) == translateY (xf e) * k).
  { subst z. unfold zoomedBeforeConstraint, imagePointY. cbv zeta.
    cbn [with_xf xf set_translate set_scale translateY]. field. exact Hs. }
  assert (Hzs : scale (xf z) = scale (xf e) * k) by reflexivity.
  pose proof (constrainImagePosition_frame config z) as Hf. cbv zeta in Hf.
  destruct Hf as (_ & _ & _ & _ & _ & _ & _ & Hfs & _).
  split; [rewrite Hfs; exact Hzs|]. split.
  - intros Hlim. rewrite (constrainImagePosition_unlimited config z Hlim).
    split; assumption.
  - intros Hx Hy.
    assert (Hzx0 : translateX (xf z) == 0) by (rewrite Hzx, Hx; ring).
    assert (Hzy0 : translateY (xf z) == 0) by (rewrite Hzy, Hy; ring).
    destruct (limitToBounds config) eqn:Hlim.
    + pose proof (constrainImagePosition_cases config z Hlim) as [Hfit Hbig].
      cbv zeta in Hfit, Hbig.
      destruct (Qlt_le_dec (getFitToScreenScale z) (scale (xf z))) as [Hlt|Hle].
      * destruct (Hbig Hlt) as [-> ->].
        split; apply clamp_zero; try assumption; apply Q.le_max_l.
      * destruct (Hfit Hle) as [-> ->]. split; reflexivity.
    + rewrite (constrainImagePosition_unlimited config z Hlim). split; assumption.
Qed.

(** X24.  With an image present, [zoomIn] and [zoomOut] zoom about the
    centre of the canvas, by [1 + wheel.step] and [1 - wheel.step]: the
    scale and, without [limitToBounds], the offset of the image from the
    centre are multiplied by that factor, and a centred image stays
    centred under either setting. *)
Theorem zoom_buttons_about_centre (now : Q) (e : Engine) :
  imagePresent e ->
  ~ scale (xf e) == 0 ->
  (scaleInRange config e (scale (xf e) * (1 + wheel_step config)) ->
   let e' := zoomIn LOD_LEVELS config false now e in
   scale (xf e') = scale (xf e) * (1 + wheel_step config)
   /\ (limitToBounds config = false ->
       translateX (xf e') == translateX (xf e) * (1 + wheel_step config)
       /\ translateY (xf e') == translateY (xf e) * (1 + wheel_step config))
   /\ (translateX (xf e) == 0 -> translateY (xf e) == 0 ->
       translateX (xf e') == 0 /\ translateY (xf e') == 0))
  /\ (scaleInRange config e (scale (xf e) * (1 - wheel_step config)) ->
      let e' := zoomOut LOD_LEVELS config false now e in
      scale (xf e') = scale (xf e) * (1 - wheel_step config)
      /\ (limitToBounds config = false ->
          translateX (xf e') == translateX (xf e) * (1 - wheel_step config)
          /\ translateY (xf e') == translateY (xf e) * (1 - wheel_step config))
      /\ (translateX (xf e) == 0 -> translateY (xf e) == 0 ->
          translateX (xf e') == 0 /\ translateY (xf e') == 0)).
Proof.
  intros _ Hs. split; intros Hin.
  - exact (zoomAt_centre (1 + wheel_step config) now e Hs Hin).
  - exact (zoomAt_centre (1 - wheel_step config) now e Hs Hin).
Qed.

Lemma updateAnimation_finished_any (currentTime : Q) (e : Engine) :
  0 <= animationDuration (anim e) ->
  animationStartTime (anim e) < currentTime ->
  animationStartTime (anim e) + animationDuration (anim e) <= currentTime ->
  exists e',
    updateAnimation LOD_LEVELS config currentTime e = Some e'
    /\ scale (xf e') = targetScale (xf e)
    /\ translateX (xf e') = targetTranslateX (xf e)
    /\ translateY (xf e') = targetTranslateY (xf e)
    /\ isAnimating (anim e') = false
    /\ ia e' = ia e.
Proof.
  intros Hd Hafter Hend.
  assert (Hp : exists p, animationProgress (currentTime - animationStartTime (anim e))
                           (animationDuration (anim e)) = Some p /\ p == 1).
  { destruct (Qeq_bool (animationDuration (anim e)) 0) eqn:E.
    - unfold animationProgress. rewrite E.
      replace (Qltb 0 (currentTime - animationStartTime (anim e))) with true
        by (symmetry; apply Qltb_true; lra).
      exists 1. split; reflexivity.
    - apply animationProgress_finished; [|lra].
      assert (~ animationDuration (anim e) == 0).
      { intros H. apply Qeq_bool_iff in H. congruence. }
      lra. }
  destruct Hp as (p & Hp & Hp1).
  unfold updateAnimation. cbv zeta. rewrite Hp.
  assert (Hle : Qle_bool 1 p = true) by (apply Qle_bool_iff; lra).
  rewrite Hle. eexists. split; [reflexivity|].
  match goal with
  | |- context [updateLODIfNeeded LOD_LEVELS ?a] =>
      pose proof (updateLODIfNeeded_frame LOD_LEVELS a) as (_ & Hx & Hia & Ha & _)
  end.
  cbv zeta in Hx, Hia, Ha. cbn [notifyZoomChange with_rt xf anim ia].
  rewrite Hx, Ha, Hia. simpl. tauto.
Qed.

(** X25.  [resetView] animates back to the scale and the centred position
    that [fitImageToScreen] sets: the first frame after the end of the
    animation (300 ms with [smooth], at once without) leaves that scale
    and a zero translation.  It does not reset [isOriginalSize] as
    [fitImageToScreen] does, so the next double activation in toggle mode
    goes where it would have gone without the reset. *)
Theorem resetView_restores_fit (now currentTime : Q) (e : Engine) :
  imagePresent e ->
  now < currentTime ->
  now + (if smooth config then 300 else 0) <= currentTime ->
  exists e',
    updateAnimation LOD_LEVELS config currentTime (resetView config now e) = Some e'
    /\ scale (xf e') = scale (xf (fitImageToScreen config e))
    /\ translateX (xf e') == 0 /\ translateY (xf e') == 0
    /\ isAnimating (anim e') = false
    /\ isOriginalSize (ia e') = isOriginalSize (ia e).
Proof.
  intros _ Hafter Hend. unfold resetView. cbv zeta.
  match goal with
  | |- context [startAnimation config ?a ?b ?c ?d ?n ?s] =>
      set (started := startAnimation config a b c d n s);
      pose proof (startAnimation_result config a b c d n s) as Hr
  end.
  cbv zeta in Hr. fold started in Hr.
  destruct Hr as (Ha & _ & _ & _ & Hts & _ & _ & Hia & _).
  assert (Hdur : animationDuration (anim started) = if smooth config then 300 else 0)
    by (rewrite Ha; reflexivity).
  assert (Hst : animationStartTime (anim started) = now) by (rewrite Ha; reflexivity).
  destruct (updateAnimation_finished_any currentTime started)
    as (e' & Hrun & Hs & Hx & Hy & Hstop & Hia').
  { rewrite Hdur. destruct (smooth config); lra. }
  { rewrite Hst. exact Hafter. }
  { rewrite Hdur, Hst. exact Hend. }
  exists e'. split; [exact Hrun|]. rewrite Hs, Hx, Hy, Hts, Hia', Hia.
  split; [reflexivity|]. split; [|split; [|split; [exact Hstop|reflexivity]]].
  - subst started. unfold startAnimation. cbv zeta.
    cbn [with_xf xf set_translate set_scale set_targetTranslate targetTranslateX].
    match goal with
    | |- translateX (xf (constrainImagePosition config ?z)) == 0 =>
        destruct (limitToBounds config) eqn:Hlim;
        [pose proof (constrainImagePosition_cases config z Hlim) as [Hfit Hbig];
         cbv zeta in Hfit, Hbig;
         destruct (Qlt_le_dec (getFitToScreenScale z) (scale (xf z))) as [Hlt|Hle];
         [destruct (Hbig Hlt) as [-> _]; apply clamp_zero;
          [apply Q.le_max_l|reflexivity]
         |destruct (Hfit Hle) as [-> _]; reflexivity]
        |rewrite (constrainImagePosition_unlimited config z Hlim); reflexivity]
    end.
  - subst started. unfold startAnimation. cbv zeta.
    cbn [with_xf xf set_translate set_scale set_targetTranslate targetTranslateY].
    match goal with
    | |- translateY (xf (constrainImagePosition config ?z)) == 0 =>
        destruct (limitToBounds config) eqn:Hlim;
        [pose proof (constrainImagePosition_cases config z Hlim) as [Hfit Hbig];
         cbv zeta in Hfit, Hbig;
         destruct (Qlt_le_dec (getFitToScreenScale z) (scale (xf z))) as [Hlt|Hle];
         [destruct (Hbig Hlt) as [_ ->]; apply clamp_zero;
          [apply Q.le_max_l|reflexivity]
         |destruct (Hfit Hle) as [_ ->]; reflexivity]
        |rewrite (constrainImagePosition_unlimited config z Hlim); reflexivity]
    end.
Qed.

End Buttons.

Lemma zoom_buttons_about_centre_witness :
  scale (xf (zoomIn Sample.LOD_LEVELS Sample.config false 0 Sample.loaded))
  = scale (xf Sample.loaded) * (1 + wheel_step Sample.config)
  /\ translateX (xf (zoomIn Sample.LOD_LEVELS Sample.config false 0 Sample.loaded)) == 0.
Proof.
  destruct (proj1 (zoom_buttons_about_centre Sample.LOD_LEVELS Sample.config 0
                     Sample.loaded Sample_loaded_imagePresent
                     ltac:(vm_compute; discriminate)))
    as (Hs & _ & Hc).
  - split; vm_compute; discriminate.
  - split; [exact Hs|].
    destruct Hc as [Hx _]; [vm_compute; reflexivity|vm_compute; reflexivity|].
    exact Hx.
Defined.

Lemma resetView_restores_fit_witness :
  exists e',
    updateAnimation Sample.LOD_LEVELS Sample.config 400
      (resetView Sample.config 100 Sample.atMax) = Some e'
    /\ scale (xf e') = scale (xf (fitImageToScreen Sample.config Sample.atMax))
    /\ translateX (xf e') == 0 /\ translateY (xf e') == 0
    /\ isAnimating (anim e') = false
    /\ isOriginalSize (ia e') = isOriginalSize (ia Sample.atMax).
Proof.
  apply (resetView_restores_fit Sample.LOD_LEVELS Sample.config 100 400 Sample.atMax).
  - split; vm_compute; reflexivity.
  - vm_compute. reflexivity.
  - vm_compute. discriminate.
Defined.

(** ** A load whose texture fails *)

Section TextureFailure.

Variable LOD_LEVELS : list LODLevel.
Variable config : Config.

Lemma loadImage_decoded_fields (url : string) (w h : Q) (e : Engine) :
  let e2 := loadImage_decoded config w h (loadImage_call url e) in
  img e2 = {| originalImageSrc := url; imageWidth := w; imageHeight := h;
              canvasWidth := canvasWidth (img e); canvasHeight := canvasHeight (img e);
              imageLoaded := imageLoaded (img e) |}
  /\ scale (xf e2)
     = Qmin (canvasWidth (img e) / w) (canvasHeight (img e) / h) * initialScale config
  /\ buf e2 = buf e /\ lod e2 = lod e /\ anim e2 = anim e /\ rt e2 = rt e
  /\ memoryInfo e2 = memoryInfo e.
Proof.
  unfold loadImage_decoded, loadImage_call, fitImageToScreen, getFitToScreenScale.
  cbv zeta. destruct (centerOnInit config); simpl; tauto.
Qed.

Lemma createInitialTexture_resume_outcomes (l : Z)
    (asyncOutcome syncOutcome : TextureOutcome) (now : Q) (e : Engine) :
  (0 <= l < LOD_LEVELS_length LOD_LEVELS)%Z ->
  createInitialTexture_resume LOD_LEVELS l asyncOutcome syncOutcome now e <> None
  <-> asyncOutcome <> None \/ syncOutcome <> None.
Proof.
  intros Hl. unfold createInitialTexture_resume, createLODTextureAsync,
    createTextureMainThread.
  assert (Hin : (l <? 0)%Z || (LOD_LEVELS_length LOD_LEVELS <=? l)%Z = false).
  { apply orb_false_iff. split; [apply Z.ltb_ge|apply Z.leb_gt]; lia. }
  rewrite Hin.
  assert (Hat : exists lodConfig, LOD_LEVELS_at LOD_LEVELS l = Some lodConfig).
  { unfold LOD_LEVELS_at. replace (l <? 0)%Z with false by (symmetry; apply Z.ltb_ge; lia).
    apply lookup_lt_is_Some_2. unfold LOD_LEVELS_length in Hl. lia. }
  destruct Hat as (lodConfig & ->).
  destruct asyncOutcome as [[w h]|].
  - destruct (storeTexture l w h now e). split; [intros _; left|]; discriminate.
  - destruct syncOutcome as [[w h]|].
    + destruct (storeTexture l w h now e). split; [intros _; right|]; discriminate.
    + split; [intros H; contradiction|intros [H|H]; contradiction].
Qed.

(** X26.  [loadImage] assigns the size of the image and the initial scale
    as soon as the decoder answers, before the texture exists.  When the
    level that is selected is one of the table, the load resolves exactly
    when the asynchronous path or the synchronous fallback produces a
    texture.  When it rejects after the decode, the size, the scale and the
    URL are those of the new image, while the buffers, the cache and the
    loaded flag are those of before: what was drawn is still drawn, with
    the geometry of the image that failed. *)
Theorem loadImage_texture_failure (url : string) (w h : Q)
    (asyncOutcome syncOutcome : TextureOutcome) (now : Q) (e : Engine) :
  let r := loadImage LOD_LEVELS config url (Some (w, h)) asyncOutcome syncOutcome now e in
  ((0 <= selectOptimalLOD LOD_LEVELS (loadImage_decoded config w h (loadImage_call url e))
    < LOD_LEVELS_length LOD_LEVELS)%Z ->
   (snd r = Resolved <-> asyncOutcome <> None \/ syncOutcome <> None))
  /\ (snd r = Rejected ->
      img (fst r)
      = {| originalImageSrc := url; imageWidth := w; imageHeight := h;
           canvasWidth := canvasWidth (img e); canvasHeight := canvasHeight (img e);
           imageLoaded := imageLoaded (img e) |}
      /\ scale (xf (fst r))
         = Qmin (canvasWidth (img e) / w) (canvasHeight (img e) / h)
           * initialScale config
      /\ buf (fst r) = buf e /\ lod (fst r) = lod e
      /\ drawnTexture (fst r) = drawnTexture e).
Proof.
  intros r. subst r. unfold loadImage, loadImage_resume. cbv zeta.
  set (e2 := loadImage_decoded config w h (loadImage_call url e)).
  set (l := selectOptimalLOD LOD_LEVELS e2).
  pose proof (loadImage_decoded_fields url w h e) as Hf. cbv zeta in Hf. fold e2 in Hf.
  destruct Hf as (Hi & Hs & Hb & Hl & _).
  split.
  - intros Hin.
    rewrite <- (createInitialTexture_resume_outcomes l asyncOutcome syncOutcome now e2 Hin).
    destruct (createInitialTexture_resume LOD_LEVELS l asyncOutcome syncOutcome now e2);
      cbn [snd]; split; congruence.
  - destruct (createInitialTexture_resume LOD_LEVELS l asyncOutcome syncOutcome now e2);
      cbn [fst snd]; [discriminate|].
    intros _. split; [exact Hi|]. split; [exact Hs|]. split; [exact Hb|].
    split; [exact Hl|]. unfold drawnTexture. rewrite Hi, Hb. reflexivity.
Qed.

End TextureFailure.

Lemma loadImage_texture_failure_witness :
  imageWidth
    (img (fst (loadImage Sample.LOD_LEVELS Sample.config "b.jpg" (Some (400, 300))
                 None None 50 Sample.loaded))) = 400
  /\ drawnTexture
       (fst (loadImage Sample.LOD_LEVELS Sample.config "b.jpg" (Some (400, 300))
               None None 50 Sample.loaded))
     = drawnTexture Sample.loaded.
Proof.
  destruct (proj2 (loadImage_texture_failure Sample.LOD_LEVELS Sample.config "b.jpg"
                     400 300 None None 50 Sample.loaded))
    as (Hi & _ & _ & _ & Hd).
  - vm_compute. reflexivity.
  - split; [rewrite Hi; reflexivity|exact Hd].
Defined.

(** ** The front texture under cleanup *)

(** X27.  [emergencyCleanup] chooses what to keep by level, not by what
    is on display: when the front texture is the texture of a cached level
    that is neither [currentLOD] nor next to it, as after two swaps armed
    within one frame, it is deleted while it stays the front texture that
    the next frame binds. *)
Theorem emergencyCleanup_may_delete_front (e : Engine) (t : WebGLTexture) (l : Z)
    (info : TextureInfo) :
  frontTexture (buf e) = Some t ->
  lodTextures (lod e) !! l = Some info ->
  texture info = t ->
  keptByEmergencyCleanup (currentLOD (lod e)) l = false ->
  let e' := emergencyCleanup e in
  frontTexture (buf e') = Some t
  /\ (t ∉ glLive (rt e'))
  /\ drawnTexture e' = drawnTexture e.
Proof.
  intros Hfront Hl Ht Hgone e'. subst e'. unfold emergencyCleanup. cbv zeta.
  match goal with
  | |- context [evict ?k e] => pose proof (evict_frame k e) as H; cbv zeta in H;
                               destruct H as (Hb & Hi & _)
  end.
  unfold drawnTexture. rewrite Hb, Hi. split; [exact Hfront|]. split; [|reflexivity].
  rewrite evict_live. intros [_ Hno]. apply Hno. exists l, info.
  cbn [fst]. split; [exact Hl|]. split; [exact Hgone|exact Ht].
Qed.

Lemma Fixture_raced_reachable :
  reachable Sample.LOD_LEVELS Sample.config anyEvent Sample.fresh Fixture.raced.
Proof.
  apply (run_reachable _ _ Fixture.racingSession _ Sample.fresh).
  - apply reachable_start.
  - vm_compute. reflexivity.
Qed.

Lemma emergencyCleanup_may_delete_front_witness :
  reachable Sample.LOD_LEVELS Sample.config anyEvent Sample.fresh Fixture.raced
  /\ frontTexture (buf (emergencyCleanup Fixture.raced)) = frontTexture (buf Fixture.raced)
  /\ (forall t, frontTexture (buf Fixture.raced) = Some t ->
                t ∉ glLive (rt (emergencyCleanup Fixture.raced)))
  /\ pressure (memoryInfo (checkMemoryPressure (updateMemoryUsage Fixture.raced)))
     = critical.
Proof.
  split; [exact Fixture_raced_reachable|].
  destruct (lodTextures (lod Fixture.raced) !! 1%Z) as [info|] eqn:E;
    [|vm_compute in E; discriminate].
  assert (Hfront : frontTexture (buf Fixture.raced) = Some (texture info)).
  { vm_compute in E. injection E as <-. vm_compute. reflexivity. }
  destruct (emergencyCleanup_may_delete_front Fixture.raced (texture info) 1%Z info
              Hfront E eq_refl ltac:(vm_compute; reflexivity)) as (Hf & Hdel & _).
  split; [rewrite Hf, Hfront; reflexivity|].
  split; [|vm_compute; reflexivity].
  intros t Ht. rewrite Hfront in Ht. injection Ht as <-. exact Hdel.
Defined.

(** ** The memory limit *)

Create HintDb samelimit.

Section MemoryLimit.

Variable LOD_LEVELS : list LODLevel.
Variable config : Config.

Lemma sameLimit_with_buf e0 f e : sameLimit e0 e -> sameLimit e0 (with_buf f e).
Proof. exact (fun H => H). Qed.
Lemma sameLimit_with_img e0 f e : sameLimit e0 e -> sameLimit e0 (with_img f e).
Proof. exact (fun H => H). Qed.
Lemma sameLimit_with_xf e0 f e : sameLimit e0 e -> sameLimit e0 (with_xf f e).
Proof. exact (fun H => H). Qed.
Lemma sameLimit_with_ia e0 f e : sameLimit e0 e -> sameLimit e0 (with_ia f e).
Proof. exact (fun H => H). Qed.
Lemma sameLimit_with_anim e0 f e : sameLimit e0 e -> sameLimit e0 (with_anim f e).
Proof. exact (fun H => H). Qed.
Lemma sameLimit_with_memoryInfo e0 f e :
  sameLimit e0 e -> sameLimit e0 (with_memoryInfo f e).
Proof. exact (fun H => H). Qed.
Lemma sameLimit_with_rt e0 f e : sameLimit e0 e -> sameLimit e0 (with_rt f e).
Proof. exact (fun H => H). Qed.
Lemma sameLimit_set_currentLOD e0 l e :
  sameLimit e0 e -> sameLimit e0 (with_lod (set_currentLOD l) e).
Proof. exact (fun H => H). Qed.
Lemma sameLimit_notifyZoomChange e0 e :
  sameLimit e0 e -> sameLimit e0 (notifyZoomChange e).
Proof. exact (fun H => H). Qed.
Lemma sameLimit_swapBuffers e0 t l e :
  sameLimit e0 e -> sameLimit e0 (swapBuffers t l e).
Proof. exact (fun H => H). Qed.
Lemma sameLimit_preloadAdjacentLODs e0 l e :
  sameLimit e0 e -> sameLimit e0 (preloadAdjacentLODs LOD_LEVELS l e).
Proof. exact (fun H => H). Qed.
Lemma sameLimit_evict e0 keepEntry e :
  sameLimit e0 e -> sameLimit e0 (evict keepEntry e).
Proof. exact (fun H => H). Qed.
Lemma sameLimit_updateMemoryUsage e0 e :
  sameLimit e0 e -> sameLimit e0 (updateMemoryUsage e).
Proof. exact (fun H => H). Qed.
Lemma sameLimit_checkMemoryPressure e0 e :
  sameLimit e0 e -> sameLimit e0 (checkMemoryPressure e).
Proof. exact (fun H => H). Qed.
Lemma sameLimit_storeTexture e0 l w h now e :
  sameLimit e0 e -> sameLimit e0 (fst (storeTexture l w h now e)).
Proof. exact (fun H => H). Qed.

Lemma sameLimit_constrainImagePosition e0 e :
  sameLimit e0 e -> sameLimit e0 (constrainImagePosition config e).
Proof.
  pose proof (constrainImagePosition_frame config e) as H. cbv zeta in H.
  destruct H as (_ & _ & _ & _ & Hl & _). unfold sameLimit. rewrite Hl. tauto.
Qed.

Lemma sameLimit_startAnimation e0 ts tx ty t now e :
  sameLimit e0 e -> sameLimit e0 (startAnimation config ts tx ty t now e).
Proof.
  pose proof (startAnimation_result config ts tx ty t now e) as H. cbv zeta in H.
  destruct H as (_ & _ & _ & _ & _ & _ & _ & _ & Hl & _).
  unfold sameLimit. rewrite Hl. tauto.
Qed.

Lemma sameLimit_updateLODIfNeeded e0 e :
  sameLimit e0 e -> sameLimit e0 (updateLODIfNeeded LOD_LEVELS e).
Proof.
  pose proof (updateLODIfNeeded_frame LOD_LEVELS e) as H. cbv zeta in H.
  destruct H as (_ & _ & _ & _ & Hl & _). unfold sameLimit. rewrite Hl. tauto.
Qed.

Lemma sameLimit_renderFrame e0 e : sameLimit e0 e -> sameLimit e0 (renderFrame e).
Proof. unfold renderFrame. destruct (drawnTexture e); exact (fun H => H). Qed.

Hint Resolve sameLimit_with_buf sameLimit_with_img sameLimit_with_xf sameLimit_with_ia
  sameLimit_with_anim sameLimit_with_memoryInfo sameLimit_with_rt
  sameLimit_set_currentLOD sameLimit_notifyZoomChange sameLimit_swapBuffers
  sameLimit_preloadAdjacentLODs sameLimit_evict sameLimit_updateMemoryUsage
  sameLimit_checkMemoryPressure sameLimit_storeTexture
  sameLimit_constrainImagePosition sameLimit_startAnimation
  sameLimit_updateLODIfNeeded sameLimit_renderFrame : samelimit.

Ltac same_limit :=
  cbv zeta;
  repeat match goal with
         | |- sameLimit _ (if ?b then _ else _) => destruct b
         | |- sameLimit _ (match ?x with _ => _ end) => destruct x
         | |- context [if ?b then _ else _] => destruct b
         end;
  auto 12 with samelimit.

Lemma sameLimit_zoomAt e0 x y k animated now e :
  sameLimit e0 e -> sameLimit e0 (zoomAt LOD_LEVELS config x y k animated now e).
Proof. intros H. unfold zoomAt. same_limit. Qed.

Hint Resolve sameLimit_zoomAt : samelimit.

Lemma sameLimit_performDoubleClickAction e0 x y now e :
  sameLimit e0 e ->
  sameLimit e0 (performDoubleClickAction LOD_LEVELS config x y now e).
Proof. intros H. unfold performDoubleClickAction. same_limit. Qed.

Hint Resolve sameLimit_performDoubleClickAction : samelimit.

Lemma sameLimit_handleTouchDoubleTap e0 x y rect now e :
  sameLimit e0 e ->
  sameLimit e0 (handleTouchDoubleTap LOD_LEVELS config x y rect now e).
Proof. intros H. unfold handleTouchDoubleTap. same_limit. Qed.

Lemma sameLimit_constrainScaleAndPosition e0 e :
  sameLimit e0 e -> sameLimit e0 (constrainScaleAndPosition config e).
Proof. intros H. unfold constrainScaleAndPosition. same_limit. Qed.

Hint Resolve sameLimit_handleTouchDoubleTap sameLimit_constrainScaleAndPosition
  : samelimit.

Lemma sameLimit_refl e : sameLimit e e.
Proof. reflexivity. Qed.

Hint Resolve sameLimit_refl : samelimit.

Lemma sameLimit_updateMemoryInfo e0 now e :
  sameLimit e0 e -> sameLimit e0 (updateMemoryInfo now e).
Proof.
  intros H. unfold updateMemoryInfo, emergencyCleanup, cleanupOldTextures. cbv zeta.
  destruct (pressure _); auto 6 with samelimit.
Qed.

Lemma sameLimit_createLODTextureAsync e0 l outcome now e :
  sameLimit e0 e ->
  sameLimit e0 (fst (createLODTextureAsync LOD_LEVELS l outcome now e)).
Proof.
  intros H. destruct (createLODTextureAsync_cases LOD_LEVELS l outcome now e)
    as [->|(w & h & ->)]; exact H.
Qed.

Lemma sameLimit_settleTexture e0 req outcome fallback now e :
  sameLimit e0 e ->
  sameLimit e0 (settleTexture LOD_LEVELS req outcome fallback now e).
Proof.
  intros H. unfold settleTexture. destruct req as [l|l|l].
  - unfold loadImage_resume, createInitialTexture_resume, createTextureMainThread.
    destruct (createLODTextureAsync_cases LOD_LEVELS l outcome now e)
      as [->|(w & h & ->)].
    + destruct (LOD_LEVELS_at LOD_LEVELS l); [|exact H].
      destruct fallback as [[w h]|]; [|exact H].
      destruct (storeTexture l w h now e) as [e2 t] eqn:Es.
      assert (H2 : sameLimit e0 e2).
      { change e2 with (fst (e2, t)). rewrite <- Es. exact H. }
      cbn [fst]. same_limit.
    + cbn [fst]. same_limit.
  - pose proof (sameLimit_createLODTextureAsync e0 l outcome now e H) as Hc.
    destruct (createLODTextureAsync LOD_LEVELS l outcome now e) as [e1 [t|]];
      cbn [fst] in Hc; same_limit.
  - apply sameLimit_createLODTextureAsync, H.
Qed.

Lemma step_sameLimit (ev : Event) (e e' : Engine) :
  step LOD_LEVELS config ev e = Some e' -> sameLimit e e'.
Proof.
  destruct ev; cbn [step].
  - intros [= <-]. unfold handleMouseDown. same_limit.
  - intros [= <-]. unfold handleMouseMove. same_limit.
  - intros [= <-]. unfold handleMouseUp. same_limit.
  - intros [= <-]. unfold handleWheel. same_limit.
  - intros [= <-]. unfold handleDoubleClick. same_limit.
  - intros [= <-]. unfold handleTouchStart. same_limit.
  - intros [= <-]. unfold handleTouchMove. same_limit.
  - intros [= <-]. unfold handleTouchEnd. same_limit.
  - intros [= <-]. unfold zoomIn. same_limit.
  - intros [= <-]. unfold zoomOut. same_limit.
  - intros [= <-]. unfold resetView. same_limit.
  - intros [= <-]. unfold resizeCanvas. same_limit.
  - unfold render, updateAnimation. destruct (isAnimating (anim e)).
    + cbv zeta. destruct (animationProgress _ _); [|discriminate].
      intros [= <-]. same_limit.
    + intros [= <-]. same_limit.
  - intros [= <-]. unfold runSwapCallback, swapCallback. same_limit.
  - destruct (pendingTextures (rt e) !! i) as [req|]; [|discriminate].
    intros [= <-]. apply sameLimit_settleTexture. reflexivity.
  - intros [= <-]. apply sameLimit_updateMemoryInfo, sameLimit_refl.
  - intros [= <-]. reflexivity.
  - destruct (pendingDecodes (rt e)) as [|n]; [discriminate|].
    destruct decoded as [[w h]|]; intros [= <-]; [|reflexivity].
    unfold loadImage_decoded, fitImageToScreen. cbv zeta.
    destruct (centerOnInit config); reflexivity.
Qed.

Lemma calculateMemoryLimits_values (isMobile : bool) (devicePixelRatio : Q) :
  calculateMemoryLimits isMobile devicePixelRatio
  = if isMobile
    then if Qle_bool 3 devicePixelRatio then 161061273 else 80530636
    else 322122547.
Proof.
  unfold calculateMemoryLimits. cbv zeta.
  destruct isMobile; [destruct (Qle_bool 3 devicePixelRatio)|]; vm_compute; reflexivity.
Qed.

(** X28.  The texture memory limit is fixed by the constructor, at 60% of
    128 MiB on a mobile device, of 256 MiB on one with a pixel ratio of 3
    or more, and of 512 MiB elsewhere, rounded down; no event changes it.
    It is positive in every reachable state, so the usage ratio of the
    monitor never divides by zero. *)
Theorem textureMemoryLimit_is_fixed (isMobile : bool) (devicePixelRatio : Q)
    (rect : DOMRect) (dateNow : Q) (e : Engine) :
  reachable LOD_LEVELS config anyEvent
    (newEngine LOD_LEVELS config isMobile devicePixelRatio rect dateNow) e ->
  textureMemoryLimit (lod e)
  = (if isMobile
     then if Qle_bool 3 devicePixelRatio then 161061273 else 80530636
     else 322122547)
  /\ 0 < textureMemoryLimit (lod e).
Proof.
  intros Hreach.
  assert (H : textureMemoryLimit (lod e)
              = calculateMemoryLimits isMobile devicePixelRatio).
  { induction Hreach as [|e1 ev e2 _ IH _ Hstep].
    - unfold newEngine.
      pose proof (sameLimit_updateMemoryInfo _ dateNow _
                    (sameLimit_refl
                       (resizeCanvas LOD_LEVELS config rect
                          (fieldInitialisers
                             (calculateMemoryLimits isMobile devicePixelRatio))))) as H.
      unfold sameLimit in H. rewrite H.
      unfold resizeCanvas. cbv zeta. cbn [with_img img imageLoaded fieldInitialisers].
      reflexivity.
    - pose proof (step_sameLimit ev e1 e2 Hstep) as H. unfold sameLimit in H.
      rewrite H. exact IH. }
  rewrite H, calculateMemoryLimits_values. split; [reflexivity|].
  destruct isMobile; [destruct (Qle_bool 3 devicePixelRatio)|]; reflexivity.
Qed.

End MemoryLimit.

Lemma textureMemoryLimit_is_fixed_witness :
  textureMemoryLimit (lod Fixture.raced) = 322122547
  /\ 0 < textureMemoryLimit (lod Fixture.raced).
Proof.
  apply (textureMemoryLimit_is_fixed Sample.LOD_LEVELS Sample.config false 1 Sample.rect 0).
  exact Fixture_raced_reachable.
Defined.

(** ** From a request to the installed level *)

Section Pipeline.

Variable LOD_LEVELS : list LODLevel.
Variable config : Config.



End Pipeline.


(** ** Textures that leave the cache without being deleted *)

Section Overwriting.

Variable LOD_LEVELS : list LODLevel.
Variable config : Config.

Lemma uncached_sameCache (t : WebGLTexture) (e e' : Engine) :
  sameCache e e' -> uncached t e -> uncached t e'.
Proof.
  unfold sameCache, uncached. intros (-> & -> & ->). tauto.
Qed.

Lemma evict_uncached (t : WebGLTexture) (keepEntry : Z * TextureInfo -> bool)
    (e : Engine) :
  uncached t e -> uncached t (evict keepEntry e).
Proof.
  intros (Hlive & Hlt & Hno). split; [|split].
  - apply evict_live. split; [exact Hlive|].
    intros (l & info & Hl & _ & Ht). exact (Hno l info Hl Ht).
  - exact Hlt.
  - intros l info. rewrite evict_lookup.
    destruct (lodTextures (lod e) !! l) as [i|] eqn:E; [|discriminate].
    destruct (keepEntry (l, i)); [|discriminate].
    intros [= <-]. exact (Hno l i E).
Qed.

(** A new entry has a handle the context had not handed out before. *)
Lemma storeTexture_uncached (t : WebGLTexture) (lodLevel : Z) (w h now : Q)
    (e : Engine) :
  t ∈ glLive (rt e) -> (t < glNext (rt e))%nat ->
  (forall l info, lodTextures (lod e) !! l = Some info -> texture info = t ->
                  l = lodLevel) ->
  uncached t (fst (storeTexture lodLevel w h now e)).
Proof.
  intros Hlive Hlt Hno.
  pose proof (storeTexture_result lodLevel w h now e) as (_ & Hc & Hg & Hn & _).
  unfold uncached. rewrite Hc, Hg, Hn. split; [|split].
  - apply elem_of_union_l, Hlive.
  - lia.
  - intros l info Hl Ht. destruct (decide (l = lodLevel)) as [->|Hne].
    + rewrite lookup_insert_eq in Hl. injection Hl as <-. simpl in Ht. lia.
    + rewrite lookup_insert_ne in Hl by congruence. apply Hne. eapply Hno; eauto.
Qed.

Lemma storeTexture_keeps_uncached (t : WebGLTexture) (lodLevel : Z) (w h now : Q)
    (e : Engine) :
  uncached t e -> uncached t (fst (storeTexture lodLevel w h now e)).
Proof.
  intros (Hlive & Hlt & Hno). apply storeTexture_uncached; try assumption.
  intros l info Hl Ht. destruct (Hno l info Hl Ht).
Qed.

Lemma createLODTextureAsync_uncached (t : WebGLTexture) (lodLevel : Z)
    (outcome : TextureOutcome) (now : Q) (e : Engine) :
  uncached t e ->
  uncached t (fst (createLODTextureAsync LOD_LEVELS lodLevel outcome now e)).
Proof.
  intros H. unfold createLODTextureAsync.
  destruct (_ || _); [exact H|].
  destruct outcome as [[w h]|]; [|exact H].
  pose proof (storeTexture_keeps_uncached t lodLevel w h now e H) as Hs.
  destruct (storeTexture lodLevel w h now e). exact Hs.
Qed.

Lemma createTextureMainThread_uncached (t : WebGLTexture) (lodLevel : Z)
    (outcome : TextureOutcome) (now : Q) (e e' : Engine) (r : option WebGLTexture) :
  createTextureMainThread LOD_LEVELS lodLevel outcome now e = Some (e', r) ->
  uncached t e -> uncached t e'.
Proof.
  unfold createTextureMainThread. intros Hc H.
  destruct (LOD_LEVELS_at LOD_LEVELS lodLevel); [|discriminate].
  destruct outcome as [[w h]|].
  - pose proof (storeTexture_keeps_uncached t lodLevel w h now e H) as Hs.
    destruct (storeTexture lodLevel w h now e). injection Hc as <- _. exact Hs.
  - injection Hc as <- _. exact H.
Qed.

Lemma createInitialTexture_resume_uncached (t : WebGLTexture) (optimalLOD : Z)
    (asyncOutcome syncOutcome : TextureOutcome) (now : Q) (e e' : Engine) :
  createInitialTexture_resume LOD_LEVELS optimalLOD asyncOutcome syncOutcome now e
    = Some e' ->
  uncached t e -> uncached t e'.
Proof.
  unfold createInitialTexture_resume. intros Hc H.
  pose proof (createLODTextureAsync_uncached t optimalLOD asyncOutcome now e H) as H1.
  destruct (createLODTextureAsync LOD_LEVELS _ asyncOutcome now e) as [e1 [t1|]];
    cbn [fst] in H1.
  - injection Hc as <-. eapply uncached_sameCache; [|exact H1].
    apply sameCache_with_buf, sameCache_set_currentLOD, sameCache_refl.
  - destruct (createTextureMainThread LOD_LEVELS _ syncOutcome now e1)
      as [[e2 [t2|]]|] eqn:Em; try discriminate.
    injection Hc as <-.
    eapply uncached_sameCache;
      [|eapply createTextureMainThread_uncached; [exact Em | exact H1]].
    apply sameCache_with_buf, sameCache_set_currentLOD, sameCache_refl.
Qed.

Lemma settleTexture_uncached (t : WebGLTexture) (req : TextureRequest)
    (outcome fallback : TextureOutcome) (now : Q) (e : Engine) :
  uncached t e ->
  uncached t (settleTexture LOD_LEVELS req outcome fallback now e).
Proof.
  intros H. unfold settleTexture. destruct req as [l|l|l].
  - unfold loadImage_resume.
    destruct (createInitialTexture_resume LOD_LEVELS l outcome fallback now e)
      as [e3|] eqn:Ec; cbn [fst]; [|exact H].
    cbv zeta. eapply uncached_sameCache;
      [|eapply createInitialTexture_resume_uncached; [exact Ec | exact H]].
    apply sameCache_notifyZoomChange, sameCache_updateLODIfNeeded,
      sameCache_with_img, sameCache_refl.
  - pose proof (createLODTextureAsync_uncached t l outcome now e H) as Hc.
    destruct (createLODTextureAsync LOD_LEVELS l outcome now e) as [e1 [t1|]];
      cbn [fst] in Hc; [|exact Hc].
    eapply uncached_sameCache; [|exact Hc].
    apply sameCache_preloadAdjacentLODs, sameCache_swapBuffers, sameCache_refl.
  - apply createLODTextureAsync_uncached, H.
Qed.

Lemma updateMemoryInfo_uncached (t : WebGLTexture) (now : Q) (e : Engine) :
  uncached t e -> uncached t (updateMemoryInfo now e).
Proof.
  intros H. unfold updateMemoryInfo.
  assert (H1 : uncached t (checkMemoryPressure (updateMemoryUsage e))).
  { eapply uncached_sameCache; [|exact H].
    apply sameCache_checkMemoryPressure, sameCache_updateMemoryUsage, sameCache_refl. }
  cbv zeta.
  destruct (pressure (memoryInfo (checkMemoryPressure (updateMemoryUsage e))));
    try exact H1.
  - unfold cleanupOldTextures. cbv zeta. apply evict_uncached, H1.
  - unfold emergencyCleanup. cbv zeta. apply evict_uncached, H1.
Qed.

Lemma step_uncached (t : WebGLTexture) (ev : Event) (e e' : Engine) :
  step LOD_LEVELS config ev e = Some e' -> uncached t e -> uncached t e'.
Proof.
  intros Hstep H.
  pose proof (step_sameCache LOD_LEVELS config ev e e' Hstep) as Hs.
  destruct ev; try (eapply uncached_sameCache; [exact Hs | exact H]);
    simpl in Hstep.
  - destruct (pendingTextures (rt e) !! i); [|discriminate].
    injection Hstep as <-. apply settleTexture_uncached.
    eapply uncached_sameCache; [|exact H].
    apply sameCache_set_pendingTextures, sameCache_refl.
  - injection Hstep as <-. apply updateMemoryInfo_uncached, H.
Qed.

Lemma run_uncached (t : WebGLTexture) (evs : list Event) (e e' : Engine) :
  run LOD_LEVELS config evs e = Some e' -> uncached t e -> uncached t e'.
Proof.
  revert e. induction evs as [|ev evs IH]; intros e Hrun H.
  - injection Hrun as <-. exact H.
  - cbn [run] in Hrun.
    destruct (step LOD_LEVELS config ev e) as [e1|] eqn:E; [|discriminate].
    eapply IH; [exact Hrun|]. eapply step_uncached; [exact E | exact H].
Qed.

(** A request that settles with a texture stores it first; what follows
    leaves the cache and the context alone. *)
Lemma settleTexture_stores (req : TextureRequest) (w h now : Q)
    (fallback : TextureOutcome) (e : Engine) :
  (0 <= requestLevel req < LOD_LEVELS_length LOD_LEVELS)%Z ->
  sameCache (fst (storeTexture (requestLevel req) w h now e))
    (settleTexture LOD_LEVELS req (Some (w, h)) fallback now e).
Proof.
  intros Hl.
  assert (Hin : (requestLevel req <? 0)%Z
                || (LOD_LEVELS_length LOD_LEVELS <=? requestLevel req)%Z = false).
  { apply orb_false_iff. split; [apply Z.ltb_ge|apply Z.leb_gt]; lia. }
  destruct req as [l|l|l]; cbn [requestLevel] in *;
    unfold settleTexture, loadImage_resume, createInitialTexture_resume,
      createLODTextureAsync; rewrite Hin;
    destruct (storeTexture l w h now e) as [e1 t1]; cbn [fst]; cbv zeta.
  - apply sameCache_notifyZoomChange, sameCache_updateLODIfNeeded,
      sameCache_with_img, sameCache_with_buf, sameCache_set_currentLOD,
      sameCache_refl.
  - apply sameCache_preloadAdjacentLODs, sameCache_swapBuffers, sameCache_refl.
  - apply sameCache_refl.
Qed.

(** X30.  A texture that is overwritten in the cache is never deleted.
    When a request settles with a texture for a level of the table that
    the cache already holds (two requests for one level were in flight),
    the entry is replaced and the texture it held is not deleted.  From
    then on, whatever events follow, that texture stays live and is no
    entry of the cache, so that no cleanup reaches it, not even
    [cleanupWebGLResources]. *)
Theorem overwritten_texture_is_never_deleted (i : nat) (req : TextureRequest)
    (w h now : Q) (fallback : TextureOutcome) (old : TextureInfo) (evs : list Event)
    (e e' : Engine) :
  cacheHandlesSound e ->
  pendingTextures (rt e) !! i = Some req ->
  (0 <= requestLevel req < LOD_LEVELS_length LOD_LEVELS)%Z ->
  lodTextures (lod e) !! requestLevel req = Some old ->
  run LOD_LEVELS config (TextureSettled i (Some (w, h)) fallback now :: evs) e
    = Some e' ->
  texture old ∈ glLive (rt e')
  /\ (forall l info, lodTextures (lod e') !! l = Some info ->
                     texture info <> texture old)
  /\ texture old ∈ glLive (rt (cleanupWebGLResources e')).
Proof.
  intros [Hlive Hinj] Hreq Hl Hold Hrun.
  cbn [run step] in Hrun. rewrite Hreq in Hrun.
  assert (Hu : uncached (texture old) e').
  { eapply run_uncached; [exact Hrun|].
    eapply uncached_sameCache; [apply settleTexture_stores, Hl|].
    destruct (Hlive _ _ Hold) as [Hin Hlt].
    apply storeTexture_uncached.
    - exact Hin.
    - exact Hlt.
    - intros l info Hlook Ht. eapply Hinj; [exact Hlook | exact Hold | exact Ht]. }
  destruct Hu as (Hin & _ & Hno).
  split; [exact Hin|]. split; [exact Hno|].
  unfold cleanupWebGLResources. cbv zeta.
  cbn [with_buf with_lod with_rt rt glLive set_glLive].
  apply elem_of_difference. split; [exact Hin|].
  rewrite texturesOf_spec. intros (l & info & Hlook & Ht). exact (Hno l info Hlook Ht).
Qed.

End Overwriting.

Lemma Fixture_duplicated_reachable :
  reachable Sample.LOD_LEVELS Sample.config anyEvent Sample.fresh Fixture.duplicated.
Proof.
  apply (run_reachable _ _ Fixture.duplicating _ Sample.fresh).
  - apply reachable_start.
  - vm_compute. reflexivity.
Qed.

Lemma overwritten_texture_is_never_deleted_witness :
  1%nat ∈ glLive (rt Fixture.overwritten)
  /\ (forall l info, lodTextures (lod Fixture.overwritten) !! l = Some info ->
                     texture info <> 1%nat)
  /\ 1%nat ∈ glLive (rt (cleanupWebGLResources Fixture.overwritten)).
Proof.
  destruct (lodTextures (lod Fixture.duplicated) !! 2%Z) as [old|] eqn:E;
    [|vm_compute in E; discriminate].
  assert (Ht : texture old = 1%nat).
  { vm_compute in E. injection E as <-. reflexivity. }
  rewrite <- Ht.
  apply (overwritten_texture_is_never_deleted Sample.LOD_LEVELS Sample.config
           0 (ReqLODUpdate 2) 4000 3000 20 None old
           [SwapFrame; SwapFrame; MemoryTick 100000] Fixture.duplicated).
  - apply (reachable_cacheInvariant Sample.LOD_LEVELS Sample.config anyEvent
             Sample.fresh).
    + apply newEngine_cacheInvariant.
    + exact Fixture_duplicated_reachable.
  - vm_compute. reflexivity.
  - vm_compute. split; [discriminate|reflexivity].
  - exact E.
  - vm_compute. reflexivity.
Defined.
